(** * Human-detection system: the person registry and the face matcher

    A shallow embedding of [database.py] (class [PersonDatabase]) and of
    [face_utils.py] (class [FaceRecognitionSystem]).

    Modelling conventions.
    - The SQLite file is a value of type [database]: the two tables as lists of
      rows in rowid order, together with the AUTOINCREMENT counters kept in
      [sqlite_sequence].  Every method opens a connection, runs its statements
      and commits once, so a method is one function from the committed state
      before the call to the committed state after it; a statement that raises
      leaves the committed state as it was.
    - TEXT columns are [string]s compared bytewise (BINARY collation), NULL is
      [None], INTEGER columns are [Z].  Exhaustion of the store (disk full, the
      2^63-1 rowid limit) is outside the model, and so is what the driver and
      the engine refuse as an argument (an integer beyond 64 bits, a LIKE
      pattern beyond 50000 bytes): a statement about all arguments of a read
      names these bounds.
    - Python exceptions are values of type [exn]; a method that can raise
      returns a [result].
    - The libraries the code calls are interfaces: [json] ([Json]),
      [datetime] ([Clock]), and [cv2] with [face_recognition] ([Vision]).
    - A [str] is the string of the bytes of its UTF-8 encoding.
    - The face encodings and their distances are read as the real numbers
      they denote.  The floats of the frame arithmetic, whose results are
      truncated to integers, are kept as floats ([Float64]): what is proved
      of them rests on the error bound of binary64 and on nothing else. *)

From Stdlib Require Import ZArith List String Ascii Bool Lia DecimalString DecimalZ.
From Stdlib Require Import Reals Lra.
From Stdlib Require Import Permutation Sorted Orders OrdersEx Mergesort.
From Stdlib Require Import RelationClasses.
From Stdlib Require PrimFloat FloatOps SpecFloat Uint63 QArith Qreals.
Import ListNotations.

Local Open Scope string_scope.
Local Open Scope list_scope.
Local Open Scope Z_scope.

(* ===================================================================== *)
(** ** Python values: exceptions and results *)
(* ===================================================================== *)

Module Py.

Inductive exn : Type :=
| ValueError (msg : string)
| IntegrityError
| JSONDecodeError
| IndexError.

Inductive result (A : Type) : Type :=
| Ok (a : A)
| Raise (e : exn).
Arguments Ok {A} a.
Arguments Raise {A} e.

Definition bind {A B} (m : result A) (k : A -> result B) : result B :=
  match m with
  | Ok a => k a
  | Raise e => Raise e
  end.

(** [for x in xs: out.append(f x)], stopping at the first exception. *)
Fixpoint for_each {A B} (f : A -> result B) (xs : list A) : result (list B) :=
  match xs with
  | [] => Ok []
  | x :: xs' =>
      bind (f x) (fun y => bind (for_each f xs') (fun ys => Ok (y :: ys)))
  end.

(** Truthiness of a [str]: the empty string is falsy. *)
Definition truthy (s : string) : bool :=
  match s with
  | EmptyString => false
  | String _ _ => true
  end.

End Py.
Import Py.

(** The [json] module at the two Python types the registry stores as text:
    the face encoding (a list of floats) and the metadata (a dict);
    [empty_dict] is the literal [{}].  [loads] is [None] where
    [json.loads] raises. *)
Class Json (Enc Meta : Type) : Type := {
  dumps_encoding : Enc -> string;
  loads_encoding : string -> option Enc;
  dumps_metadata : Meta -> string;
  loads_metadata : string -> option Meta;
  empty_dict : Meta
}.

(** The contract of the [json] module the registry relies on. *)
Definition JsonRoundTrip (Enc Meta : Type) {json : Json Enc Meta} : Prop :=
  (forall e : Enc, loads_encoding (dumps_encoding e) = Some e)
  /\ (forall m : Meta, loads_metadata (dumps_metadata m) = Some m).

(** [datetime.datetime]: rendering as ISO text and [t - timedelta(days=n)],
    taken as total (a date out of range is outside the model). *)
Class Clock (datetime : Type) : Type := {
  isoformat : datetime -> string;
  minus_days : datetime -> Z -> datetime
}.

(* ===================================================================== *)
(** ** The storage engine: comparison of values, ORDER BY, LIKE *)
(* ===================================================================== *)

Module Sql.

(** Comparison of two TEXT values under the BINARY collation. *)
Definition text_compare : string -> string -> comparison := String_as_OT.compare.

Definition text_ltb (a b : string) : bool :=
  match text_compare a b with Lt => true | _ => false end.

Definition text_leb (a b : string) : bool :=
  match text_compare a b with Gt => false | _ => true end.

(** A nullable TEXT value: NULL sorts before every string. *)
Definition null_text_compare (a b : option string) : comparison :=
  match a, b with
  | None, None => Eq
  | None, Some _ => Lt
  | Some _, None => Gt
  | Some x, Some y => text_compare x y
  end.

(** The next rowid of an AUTOINCREMENT table: one more than the largest
    rowid ever handed out ([seq]) and than every rowid in the table. *)
Definition next_rowid (seq : Z) (rowids : list Z) : Z :=
  fold_right Z.max seq rowids + 1.


Definition like_pattern_limit : Z := 50000.

(** *** LIKE *)

Definition percent : ascii := "%"%char.
Definition underscore : ascii := "_"%char.

(** LIKE folds the case of the 26 ASCII letters and of nothing else. *)
Definition upper (c : ascii) : ascii :=
  let n := nat_of_ascii c in
  if ((97 <=? n) && (n <=? 122))%nat then ascii_of_nat (n - 32) else c.

Definition like_char_eqb (c d : ascii) : bool := Ascii.eqb (upper c) (upper d).

(** [like_any m s]: [m] accepts some suffix of [s]. *)
Fixpoint like_any (m : string -> bool) (s : string) : bool :=
  m s || match s with
         | EmptyString => false
         | String _ s' => like_any m s'
         end.

(** The LIKE function reads its operands as C strings: a TEXT value counts
    up to its first NUL character. *)
Fixpoint c_text (s : string) : string :=
  match s with
  | EmptyString => EmptyString
  | String c s' => if Ascii.eqb c zero then EmptyString else String c (c_text s')
  end.

Fixpoint nul_free (s : string) : bool :=
  match s with
  | EmptyString => true
  | String c s' => negb (Ascii.eqb c zero) && nul_free s'
  end.

(** One character of UTF-8 text: a byte and, when that byte is 0xC0 or
    more, the continuation bytes (0x80 to 0xBF) that follow it. *)
Definition continuation (c : ascii) : bool :=
  let n := nat_of_ascii c in ((128 <=? n) && (n <? 192))%nat.

Fixpoint skip_continuation (s : string) : string :=
  match s with
  | EmptyString => EmptyString
  | String c s' => if continuation c then skip_continuation s' else s
  end.

Definition skip_char (s : string) : option string :=
  match s with
  | EmptyString => None
  | String c s' =>
      Some (if (192 <=? nat_of_ascii c)%nat then skip_continuation s' else s')
  end.

(** The matcher of LIKE with no ESCAPE clause: [%] stands for any run of
    characters, [_] for any one character, every other byte for itself,
    the case of ASCII letters aside.  [star] says that a [%] has been read
    and is still open: the wildcards that follow it are absorbed, each [_]
    taking one character, and the next literal is looked for at every
    position. *)
Fixpoint like_from (star : bool) (p : string) : string -> bool :=
  match p with
  | EmptyString => fun s => star || negb (truthy s)
  | String c p' =>
      if Ascii.eqb c percent then like_from true p'
      else if Ascii.eqb c underscore then
        fun s => match skip_char s with
                 | None => false
                 | Some s' => like_from star p' s'
                 end
      else
        let literal s :=
          match s with
          | EmptyString => false
          | String d s' => like_char_eqb c d && like_from false p' s'
          end in
        if star then like_any literal else literal
  end.

(** [s LIKE p]. *)
Definition like (p s : string) : bool := like_from false (c_text p) (c_text s).

(** The words LIKE is usually read with: [q] occurs in [s] up to the case
    of ASCII letters, and [q] has no wildcard in it. *)
Fixpoint same_folded (a b : string) : bool :=
  match a, b with
  | EmptyString, EmptyString => true
  | String c a', String d b' => like_char_eqb c d && same_folded a' b'
  | _, _ => false
  end.

Definition contains_folded (q s : string) : Prop :=
  exists before mid rest,
    s = (before ++ mid ++ rest)%string /\ same_folded q mid = true.

Fixpoint wildcard_free (q : string) : bool :=
  match q with
  | EmptyString => true
  | String c q' =>
      negb (Ascii.eqb c percent) && negb (Ascii.eqb c underscore) && wildcard_free q'
  end.

End Sql.
Import Sql.

(* ===================================================================== *)
(** ** The registry: [database.py] *)
(* ===================================================================== *)

(** A row of table [persons]. *)
Record person_row : Type := {
  id : Z;
  name : string;
  face_encoding : string;
  registration_date : string;
  last_seen : option string;
  total_detections : Z;
  metadata : option string
}.

(** A row of table [detection_logs]. *)
Record log_row : Type := {
  log_id : Z;
  person_id : option Z;
  detection_time : string;
  confidence : option R
}.

Record database : Type := {
  persons : list person_row;
  persons_seq : Z;
  detection_logs : list log_row;
  logs_seq : Z
}.

(** [init_database] on a fresh file. *)
Definition init_database : database :=
  {| persons := []; persons_seq := 0; detection_logs := []; logs_seq := 0 |}.

(** The dictionary the read methods return: a row with its two JSON columns
    decoded. *)
Record person (Enc Meta : Type) : Type := {
  p_id : Z;
  p_name : string;
  p_face_encoding : Enc;
  p_registration_date : string;
  p_last_seen : option string;
  p_total_detections : Z;
  p_metadata : Meta
}.
Arguments p_id {Enc Meta} _.
Arguments p_name {Enc Meta} _.
Arguments p_face_encoding {Enc Meta} _.
Arguments p_registration_date {Enc Meta} _.
Arguments p_last_seen {Enc Meta} _.
Arguments p_total_detections {Enc Meta} _.
Arguments p_metadata {Enc Meta} _.

(** What [get_detection_stats] returns. *)
Record detection_stats : Type := {
  stat_total_detections : Z;
  stat_unique_persons : Z;
  stat_top_visitors : list (string * Z)
}.

(** [ORDER BY last_seen DESC, name ASC]: does [a] come no later than [b]? *)
Definition by_last_seen_then_name (a b : person_row) : bool :=
  match null_text_compare (last_seen b) (last_seen a) with
  | Lt => true
  | Gt => false
  | Eq => text_leb (name a) (name b)
  end.

(** [ORDER BY name ASC]. *)
Definition by_name (a b : person_row) : bool := text_leb (name a) (name b).

(** [ORDER BY count DESC] on the rows [(name, count)]. *)
Definition by_count_desc (a b : string * Z) : bool := snd b <=? snd a.

(** The counts of some rows [(name, count)], added up. *)
Definition sum_counts (vs : list (string * Z)) : Z :=
  fold_right (fun v acc => snd v + acc) 0 vs.

(** The order [get_all_persons] promises, read on two rows: the later
    [last_seen] first and a NULL [last_seen] after every timestamp; with
    equal [last_seen], the smaller name first. *)
Definition listed_no_later (a b : person_row) : Prop :=
  match last_seen a, last_seen b with
  | Some x, Some y =>
      text_compare x y = Gt \/ (x = y /\ text_compare (name a) (name b) <> Gt)
  | Some _, None => True
  | None, Some _ => False
  | None, None => text_compare (name a) (name b) <> Gt
  end.

(** Ascending names. *)
Definition name_no_later (a b : person_row) : Prop :=
  text_compare (name a) (name b) <> Gt.

Lemma text_compare_refl (x : string) : text_compare x x = Eq.
Proof.
  unfold text_compare.
  destruct (String_as_OT.compare_spec x x) as [_|L|L]; auto;
    exfalso; exact (irreflexivity L).
Qed.

Lemma text_compare_eq (x y : string) : text_compare x y = Eq -> x = y.
Proof.
  unfold text_compare. intros C.
  destruct (String_as_OT.compare_spec x y) as [E|L|G]; try discriminate.
  exact E.
Qed.

Lemma text_compare_Gt_Lt (x y : string) :
  text_compare x y = Gt -> text_compare y x = Lt.
Proof.
  unfold text_compare. intros G.
  destruct (String_as_OT.compare_spec x y) as [E|L|G']; try discriminate.
  exact G'.
Qed.

Lemma text_compare_Lt_Gt (x y : string) :
  text_compare x y = Lt -> text_compare y x = Gt.
Proof.
  unfold text_compare. intros L.
  destruct (String_as_OT.compare_spec y x) as [E|L'|G']; auto.
  - rewrite E in L. pose proof (text_compare_refl x) as R.
    unfold text_compare in R. congruence.
  - exfalso. exact (irreflexivity (transitivity L L')).
Qed.

Lemma text_leb_total (x y : string) : text_leb x y = true \/ text_leb y x = true.
Proof.
  unfold text_leb. destruct (text_compare x y) eqn:C; auto.
  right. rewrite (text_compare_Gt_Lt _ _ C). reflexivity.
Qed.

Lemma by_last_seen_then_name_total (a b : person_row) :
  by_last_seen_then_name a b = true \/ by_last_seen_then_name b a = true.
Proof.
  unfold by_last_seen_then_name, null_text_compare.
  destruct (last_seen a) as [x|], (last_seen b) as [y|]; auto.
  - destruct (text_compare y x) eqn:C; auto.
    + apply text_compare_eq in C. subst y.
      rewrite text_compare_refl. apply text_leb_total.
    + rewrite (text_compare_Gt_Lt _ _ C). auto.
  - apply text_leb_total.
Qed.

Lemma by_name_total (a b : person_row) : by_name a b = true \/ by_name b a = true.
Proof. apply text_leb_total. Qed.

Lemma by_count_desc_total (a b : string * Z) :
  by_count_desc a b = true \/ by_count_desc b a = true.
Proof.
  unfold by_count_desc.
  destruct (Z.leb_spec (snd b) (snd a)); auto.
  right. apply Z.leb_le. lia.
Qed.

(** The three orders as arguments of the library merge sort.  Rows with
    equal keys come out in the order that sort leaves them in; the engine
    promises no order among them and no fact below relies on one. *)
Module LastSeenNameOrder <: TotalLeBool.
Definition t := person_row.
Definition leb := by_last_seen_then_name.
Definition leb_total := by_last_seen_then_name_total.
End LastSeenNameOrder.

Module NameOrder <: TotalLeBool.
Definition t := person_row.
Definition leb := by_name.
Definition leb_total := by_name_total.
End NameOrder.

Module CountOrder <: TotalLeBool.
Definition t := (string * Z)%type.
Definition leb := by_count_desc.
Definition leb_total := by_count_desc_total.
End CountOrder.

Module SortLastSeenName := Sort LastSeenNameOrder.
Module SortName := Sort NameOrder.
Module SortCount := Sort CountOrder.

Section Registry.

Context {Enc Meta datetime : Type}.
Context {json : Json Enc Meta} {clock : Clock datetime}.

(** [dict(row)] followed by the two [json.loads] of the read methods; the
    metadata column is decoded only when it is neither NULL nor empty. *)
Definition decode_row (r : person_row) : result (person Enc Meta) :=
  match loads_encoding (face_encoding r) with
  | None => Raise JSONDecodeError
  | Some enc =>
      let finish (m : Meta) :=
        Ok {| p_id := id r;
              p_name := name r;
              p_face_encoding := enc;
              p_registration_date := registration_date r;
              p_last_seen := last_seen r;
              p_total_detections := total_detections r;
              p_metadata := m |} in
      match metadata r with
      | None => finish empty_dict
      | Some text =>
          if truthy text then
            match loads_metadata text with
            | None => Raise JSONDecodeError
            | Some m => finish m
            end
          else finish empty_dict
      end
  end.

(** The message of the [ValueError] raised on a duplicate name. *)
Definition already_exists (n : string) : exn :=
  ValueError ("Person with name '" ++ n ++ "' already exists")%string.

(** [metadata or {}]; a falsy dict is the empty one, which is [{}] itself. *)
Definition or_empty (m : option Meta) : Meta :=
  match m with
  | None => empty_dict
  | Some d => d
  end.

(** [add_person]: the INSERT violates UNIQUE(name) exactly when a row
    already carries the name; the [IntegrityError] is turned into a
    [ValueError] and nothing is committed. *)
Definition add_person (now : datetime) (n : string) (enc : Enc)
    (m : option Meta) (d : database) : result Z * database :=
  if existsb (fun r => String.eqb (name r) n) (persons d) then
    (Raise (already_exists n), d)
  else
    let person_id := next_rowid (persons_seq d) (map id (persons d)) in
    let row := {| id := person_id;
                  name := n;
                  face_encoding := dumps_encoding enc;
                  registration_date := isoformat now;
                  last_seen := None;
                  total_detections := 0;
                  metadata := Some (dumps_metadata (or_empty m)) |} in
    (Ok person_id,
     {| persons := persons d ++ [row];
        persons_seq := person_id;
        detection_logs := detection_logs d;
        logs_seq := logs_seq d |}).

(** The SET clause assembled by [update_person]: [if name:] skips [None]
    and the empty string, [if metadata is not None:] skips only [None]. *)
Definition name_update (n : option string) : option string :=
  match n with
  | Some s => if truthy s then Some s else None
  | None => None
  end.

Definition metadata_update (m : option Meta) : option string :=
  option_map dumps_metadata m.

Definition apply_update (n : option string) (m : option string)
    (r : person_row) : person_row :=
  {| id := id r;
     name := match n with Some s => s | None => name r end;
     face_encoding := face_encoding r;
     registration_date := registration_date r;
     last_seen := last_seen r;
     total_detections := total_detections r;
     metadata := match m with Some t => Some t | None => metadata r end |}.

(** The UPDATE breaks UNIQUE(name) when it renames a row to a name held by
    a row with another id. *)
Definition rename_conflict (pid : Z) (n : option string) (rows : list person_row)
    : bool :=
  match n with
  | None => false
  | Some s =>
      existsb (fun r => id r =? pid) rows
      && existsb (fun r => negb (id r =? pid) && String.eqb (name r) s) rows
  end.

(** [update_person]: no statement is run when [updates] is empty; an
    [IntegrityError] of the UPDATE is not caught and nothing is committed. *)
Definition update_person (pid : Z) (n : option string) (m : option Meta)
    (d : database) : result unit * database :=
  match name_update n, metadata_update m with
  | None, None => (Ok tt, d)
  | n', m' =>
      if rename_conflict pid n' (persons d) then (Raise IntegrityError, d)
      else
        (Ok tt,
         {| persons := map (fun r => if id r =? pid then apply_update n' m' r else r)
                           (persons d);
            persons_seq := persons_seq d;
            detection_logs := detection_logs d;
            logs_seq := logs_seq d |})
  end.

(** [delete_person]: the two DELETE statements. *)
Definition references (pid : Z) (l : log_row) : bool :=
  match person_id l with
  | Some p => p =? pid
  | None => false
  end.

Definition delete_person (pid : Z) (d : database) : database :=
  {| persons := filter (fun r => negb (id r =? pid)) (persons d);
     persons_seq := persons_seq d;
     detection_logs := filter (fun l => negb (references pid l)) (detection_logs d);
     logs_seq := logs_seq d |}.

(** [get_all_persons]. *)
Definition get_all_persons (d : database) : result (list (person Enc Meta)) :=
  for_each decode_row (SortLastSeenName.sort (persons d)).

(** [get_person_by_id]: [fetchone] on [WHERE id = ?]. *)
Definition get_person_by_id (pid : Z) (d : database)
    : result (option (person Enc Meta)) :=
  match find (fun r => id r =? pid) (persons d) with
  | Some r => bind (decode_row r) (fun p => Ok (Some p))
  | None => Ok None
  end.

(** [log_detection]: the INSERT and the UPDATE, committed together. *)
Definition seen (current_time : string) (r : person_row) : person_row :=
  {| id := id r;
     name := name r;
     face_encoding := face_encoding r;
     registration_date := registration_date r;
     last_seen := Some current_time;
     total_detections := total_detections r + 1;
     metadata := metadata r |}.

Definition log_detection (now : datetime) (pid : Z) (conf : option R)
    (d : database) : database :=
  let current_time := isoformat now in
  let lid := next_rowid (logs_seq d) (map log_id (detection_logs d)) in
  {| persons := map (fun r => if id r =? pid then seen current_time r else r)
                    (persons d);
     persons_seq := persons_seq d;
     detection_logs :=
       detection_logs d ++
       [{| log_id := lid; person_id := Some pid;
           detection_time := current_time; confidence := conf |}];
     logs_seq := lid |}.

(** [get_detection_stats]. *)
Definition after (cutoff_date : string) (l : log_row) : bool :=
  text_ltb cutoff_date (detection_time l).

(** The non-NULL [person_id]s of some log rows. *)
Definition person_ids (ls : list log_row) : list Z :=
  flat_map (fun l => match person_id l with Some p => [p] | None => [] end) ls.

(** The rows of [JOIN ... GROUP BY p.id]: one per person with at least one
    joined log row, in rowid order. *)
Definition visit_counts (ps : list person_row) (ls : list log_row)
    : list (string * Z) :=
  flat_map (fun p =>
              let c := Z.of_nat (List.length (filter (references (id p)) ls)) in
              if 0 <? c then [(name p, c)] else [])
           ps.

Definition get_detection_stats (now : datetime) (days : Z) (d : database)
    : detection_stats :=
  let cutoff_date := isoformat (minus_days now days) in
  let recent := filter (after cutoff_date) (detection_logs d) in
  {| stat_total_detections := Z.of_nat (List.length recent);
     stat_unique_persons := Z.of_nat (List.length (nodup Z.eq_dec (person_ids recent)));
     stat_top_visitors := firstn 5 (SortCount.sort (visit_counts (persons d) recent)) |}.

(** [search_persons]. *)
Definition search_persons (query : string) (d : database)
    : result (list (person Enc Meta)) :=
  let pattern := String percent (query ++ String percent EmptyString)%string in
  for_each decode_row
    (SortName.sort (filter (fun r => like pattern (name r)) (persons d))).

(** What the UPDATE of [update_person] leaves alone in one row: [r] before,
    [r'] after. *)
Definition update_frame (pid : Z) (n : option string) (m : option Meta)
    (r r' : person_row) : Prop :=
  id r' = id r
  /\ face_encoding r' = face_encoding r
  /\ registration_date r' = registration_date r
  /\ last_seen r' = last_seen r
  /\ total_detections r' = total_detections r
  /\ (id r <> pid -> r' = r)
  /\ (name_update n = None -> name r' = name r)
  /\ (m = None -> metadata r' = metadata r).


(** The log rows that reference a person, oldest first. *)
Definition logs_of (pid : Z) (d : database) : list log_row :=
  filter (references pid) (detection_logs d).

(** The person row [WHERE id = ?] selects. *)
Definition row_of (pid : Z) (d : database) : option person_row :=
  find (fun r => id r =? pid) (persons d).

(** [p] is row [r] with its two JSON columns read back from their text. *)
Definition decodes_to (r : person_row) (p : person Enc Meta) : Prop :=
  p_id p = id r
  /\ p_name p = name r
  /\ loads_encoding (face_encoding r) = Some (p_face_encoding p)
  /\ p_registration_date p = registration_date r
  /\ p_last_seen p = last_seen r
  /\ p_total_detections p = total_detections r
  /\ match metadata r with
     | None => p_metadata p = empty_dict
     | Some text =>
         if truthy text then loads_metadata text = Some (p_metadata p)
         else p_metadata p = empty_dict
     end.

(** Every stored row can be decoded: the state the write methods maintain
    when [json.loads] inverts [json.dumps]. *)
Definition decodable (d : database) : Prop :=
  forall r, In r (persons d) -> exists p, decode_row r = Ok p.

(** *** Runs of the write methods *)

(** One call of a write method.  A call that raises leaves the store as it
    was, so the store after a call is the second component either way. *)
Inductive op : Type :=
| AddPerson (now : datetime) (n : string) (enc : Enc) (m : option Meta)
| UpdatePerson (pid : Z) (n : option string) (m : option Meta)
| DeletePerson (pid : Z)
| LogDetection (now : datetime) (pid : Z) (conf : option R).

Definition step (o : op) (d : database) : database :=
  match o with
  | AddPerson now n enc m => snd (add_person now n enc m d)
  | UpdatePerson pid n m => snd (update_person pid n m d)
  | DeletePerson pid => delete_person pid d
  | LogDetection now pid conf => log_detection now pid conf d
  end.

Definition run (ops : list op) (d : database) : database :=
  fold_left (fun acc o => step o acc) ops d.

(** What PRIMARY KEY, UNIQUE(name) and AUTOINCREMENT stand for: no id and
    no name occurs twice, and no rowid exceeds the counter of its table. *)
Definition keyed (d : database) : Prop :=
  NoDup (map id (persons d))
  /\ NoDup (map name (persons d))
  /\ (forall r, In r (persons d) -> id r <= persons_seq d)
  /\ NoDup (map log_id (detection_logs d))
  /\ (forall l, In l (detection_logs d) -> log_id l <= logs_seq d).

(** No log row references an id that was not handed out yet. *)
Definition no_future (d : database) : Prop :=
  forall l pid, In l (detection_logs d) -> person_id l = Some pid ->
                pid <= persons_seq d.

(** The [detection_time] of the newest of some log rows. *)
Definition newest (ls : list log_row) : option string :=
  match rev ls with
  | [] => None
  | l :: _ => Some (detection_time l)
  end.

(** The invariant of the data model: each person's counter is the number
    of log rows that reference the person, and [last_seen] is the time of
    the newest of them, NULL when there is none. *)
Definition counted (d : database) : Prop :=
  forall r, In r (persons d) ->
    total_detections r = Z.of_nat (List.length (logs_of (id r) d))
    /\ last_seen r = newest (logs_of (id r) d).

(** A call the invariant survives: a detection is logged only for an id
    that has been handed out (to a person still stored or deleted since). *)
Definition admissible (o : op) (d : database) : Prop :=
  match o with
  | LogDetection _ pid _ => pid <= persons_seq d
  | _ => True
  end.

(** Every call of a run is admissible in the store it is made on. *)
Fixpoint admissible_from (ops : list op) (d : database) : Prop :=
  match ops with
  | [] => True
  | o :: ops' => admissible o d /\ admissible_from ops' (step o d)
  end.

(** [app.py], the "Total Detections" figures:
    [sum(p['total_detections'] for p in db.get_all_persons())]. *)
Definition total_detections_shown (d : database) : result Z :=
  bind (get_all_persons d) (fun persons =>
    Ok (fold_left Z.add (map p_total_detections persons) 0)).

(** [app.py], the "Registered" figures: [len(db.get_all_persons())]. *)
Definition registered_shown (d : database) : result Z :=
  bind (get_all_persons d) (fun persons => Ok (Z.of_nat (List.length persons))).

End Registry.

(* ===================================================================== *)
(** ** The matcher: [face_utils.py] *)
(* ===================================================================== *)

(** Python's [float], which is IEEE 754 binary64: [float(n)] of an [int],
    true division, multiplication, [int(x)] (truncation towards zero), and
    the real number a float stands for. *)
Class Float64 : Type := {
  float : Type;
  of_int : Z -> float;
  fdiv : float -> float -> float;
  fmul : float -> float -> float;
  int_of : float -> Z;
  real : float -> R
}.

(** Rounding to nearest: a result that is zero is exact, and a result
    between [2^-1000] and [2^1000] in magnitude is off by a relative error
    of at most [2^-53]. *)
Definition rounds_to (exact got : R) : Prop :=
  (exact = 0 \/ / 2 ^ 1000 <= Rabs exact <= 2 ^ 1000)%R ->
  exists delta : R,
    (Rabs delta <= / 2 ^ 53)%R /\ got = (exact * (1 + delta))%R.

(** What is used of binary64: integers up to [2^53] are floats, the two
    operations round to nearest, and [int] drops the fraction. *)
Definition Binary64 (fl : Float64) : Prop :=
  (forall n : Z, Z.abs n <= 2 ^ 53 -> real (of_int n) = IZR n)
  /\ (forall x y : float, rounds_to (real x * real y) (real (fmul x y)))
  /\ (forall x y : float,
        real y <> 0%R -> rounds_to (real x / real y) (real (fdiv x y)))
  /\ (forall x : float,
        (0 <= real x -> IZR (int_of x) <= real x < IZR (int_of x) + 1)%R
        /\ (real x <= 0 -> IZR (int_of x) - 1 < real x <= IZR (int_of x))%R).

(** [n] is what [int(a * (num / den))] can be for integers [a >= 0] and
    [num, den > 0] of moderate size: the quotient of [a * num] by [den],
    or one less than it when the division leaves no remainder and the
    rounded product falls just short of the quotient. *)
Definition scaled (a num den n : Z) : Prop :=
  n = a * num / den
  \/ ((a * num) mod den = 0 /\ 0 < a /\ n = a * num / den - 1).

(** The sizes for which this is shown: below [2^20] pixels. *)
Definition moderate (n : Z) : Prop := 0 <= n < 2 ^ 20.

(** A face location [(top, right, bottom, left)]. *)
Definition box : Type := (Z * Z * Z * Z)%type.

(** [cv2] and the two detector calls of [face_recognition], the second of
    which may raise; [coords] reads a float vector (a list of floats or an
    [ndarray]) as real numbers. *)
Class Vision (image Enc : Type) : Type := {
  shape : image -> Z * Z;
  cvtColor_BGR2RGB : image -> image;
  resize : image -> Z * Z -> image;
  face_locations : image -> string -> list box;
  face_encodings : image -> list box -> result (list Enc);
  coords : Enc -> list R
}.

Module Numpy.

Definition Rleb (x y : R) : bool := if Rle_dec x y then true else false.
Definition Rltb (x y : R) : bool := if Rlt_dec x y then true else false.

(** [np.linalg.norm(a - b)]. *)
Definition norm_diff (a b : list R) : R :=
  sqrt (fold_right Rplus 0%R (map (fun xy => Rsqr (fst xy - snd xy)) (combine a b))).

(** Scan for the first best element: [best] at index [best_i] is the best
    seen so far, [i] is the index of the head of [l]. *)
Fixpoint arg_from {A} (better : A -> A -> bool) (best_i : nat) (best : A)
    (i : nat) (l : list A) : nat :=
  match l with
  | [] => best_i
  | x :: l' =>
      if better x best then arg_from better i x (S i) l'
      else arg_from better best_i best (S i) l'
  end.

Definition arg_first {A} (better : A -> A -> bool) (l : list A) : nat :=
  match l with
  | [] => O
  | x :: l' => arg_from better O x 1%nat l'
  end.

(** [np.argmin]: the first occurrence of the minimum. *)
Definition argmin (l : list R) : nat := arg_first Rltb l.

(** [np.argmax]: the first occurrence of the maximum. *)
Definition argmax (l : list Z) : nat := arg_first (fun x best => best <? x) l.

End Numpy.
Import Numpy.

(** The in-memory projection held by a [FaceRecognitionSystem]. *)
Record matcher (Enc : Type) : Type := {
  model : string;
  known_face_encodings : list Enc;
  known_face_names : list string;
  known_face_ids : list Z
}.
Arguments model {Enc} _.
Arguments known_face_encodings {Enc} _.
Arguments known_face_names {Enc} _.
Arguments known_face_ids {Enc} _.

(** One entry of the list [recognize_faces] returns. *)
Record recognized_face : Type := {
  location : box;
  r_name : string;
  r_person_id : option Z;
  r_confidence : R
}.

Section Matcher.

Context {image Enc Meta datetime : Type}.
Context {json : Json Enc Meta} {clock : Clock datetime}.
Context {vision : Vision image Enc} {float64 : Float64}.

(** [face_recognition.face_distance]: the Euclidean distance from each
    known encoding to the candidate. *)
Definition face_distance (known : list Enc) (candidate : Enc) : list R :=
  map (fun k => norm_diff (coords k) (coords candidate)) known.

(** [face_recognition.compare_faces]:
    [list(face_distance(known, candidate) <= tolerance)]. *)
Definition compare_faces (known : list Enc) (candidate : Enc) (tolerance : R)
    : list bool :=
  map (fun dist => Rleb dist tolerance) (face_distance known candidate).

Definition tolerance : R := (6 / 10)%R.

(** The frame the detector runs on: converted to RGB and, when wider than
    800 pixels, resized to [(800, int(height * (800 / width)))]. *)
Definition working_frame (frame : image) : image :=
  let rgb_frame := cvtColor_BGR2RGB frame in
  let '(height, width) := shape rgb_frame in
  if 800 <? width then
    let scale := fdiv (of_int 800) (of_int width) in
    let new_width := 800 in
    let new_height := int_of (fmul (of_int height) scale) in
    resize rgb_frame (new_width, new_height)
  else rgb_frame.

(** [int(coord * scale_factor)] on the four coordinates, with
    [scale_factor = width / 800]. *)
Definition scale_back (width : Z) (b : box) : box :=
  let '(top, right_, bottom, left_) := b in
  let scale_factor := fdiv (of_int width) (of_int 800) in
  let f coord := int_of (fmul (of_int coord) scale_factor) in
  (f top, f right_, f bottom, f left_).

(** [load_known_faces]: the projection is rebuilt from [get_all_persons],
    skipping persons whose encoding is an empty list. *)
Definition has_encoding (p : person Enc Meta) : bool :=
  match coords (p_face_encoding p) with
  | [] => false
  | _ :: _ => true
  end.

Definition load_known_faces (s : matcher Enc) (d : database) : result (matcher Enc) :=
  bind (get_all_persons d) (fun ps =>
    let kept := filter has_encoding ps in
    Ok {| model := model s;
          known_face_encodings := map p_face_encoding kept;
          known_face_names := map p_name kept;
          known_face_ids := map p_id kept |}).

(** The body of the loop of [recognize_faces] for one detected face. *)
Definition recognize_face (s : matcher Enc) (width : Z) (loc : box)
    (face_encoding : Enc) : result recognized_face :=
  let loc' := if 800 <? width then scale_back width loc else loc in
  let unknown :=
    Ok {| location := loc'; r_name := "Unknown";
          r_person_id := None; r_confidence := 0%R |} in
  match known_face_encodings s with
  | [] => unknown
  | _ :: _ =>
      let matches := compare_faces (known_face_encodings s) face_encoding tolerance in
      if existsb (fun b => b) matches then
        let face_distances := face_distance (known_face_encodings s) face_encoding in
        let best_match_index := argmin face_distances in
        match nth_error matches best_match_index with
        | None => Raise IndexError
        | Some false => unknown
        | Some true =>
            match nth_error (known_face_names s) best_match_index,
                  nth_error (known_face_ids s) best_match_index,
                  nth_error face_distances best_match_index with
            | Some n, Some i, Some dist =>
                Ok {| location := loc'; r_name := n;
                      r_person_id := Some i; r_confidence := (1 - dist)%R |}
            | _, _, _ => Raise IndexError
            end
        end
      else unknown
  end.

(** [recognize_faces]. *)
Definition recognize_faces (s : matcher Enc) (frame : image)
    : result (list recognized_face) :=
  let rgb_frame := cvtColor_BGR2RGB frame in
  let '(height, width) := shape rgb_frame in
  let rgb_frame := working_frame frame in
  let locations := face_locations rgb_frame (model s) in
  bind (face_encodings rgb_frame locations) (fun encodings =>
    for_each (fun le => recognize_face s width (fst le) (snd le))
             (combine locations encodings)).

(** [(bottom - top) * (right - left)]. *)
Definition face_size (b : box) : Z :=
  let '(top, right_, bottom, left_) := b in (bottom - top) * (right_ - left_).

(** [register_new_face]: everything after the choice of the face runs under
    [try ... except Exception], which turns any exception into [False]. *)
Definition register_new_face (now : datetime) (frame : image) (n : string)
    (m : option Meta) (s : matcher Enc) (d : database)
    : bool * (matcher Enc * database) :=
  let rgb_frame := working_frame frame in
  let locations := face_locations rgb_frame (model s) in
  match locations with
  | [] => (false, (s, d))
  | _ :: _ =>
      let face_sizes := map face_size locations in
      let best_face_idx := argmax face_sizes in
      match nth_error locations best_face_idx with
      | None => (false, (s, d))
      | Some best =>
          match face_encodings rgb_frame [best] with
          | Raise _ => (false, (s, d))
          | Ok [] => (false, (s, d))
          | Ok (face_encoding :: _) =>
              match add_person now n face_encoding m d with
              | (Raise _, d') => (false, (s, d'))
              | (Ok person_id, d') =>
                  (true,
                   ({| model := model s;
                       known_face_encodings := known_face_encodings s ++ [face_encoding];
                       known_face_names := known_face_names s ++ [n];
                       known_face_ids := known_face_ids s ++ [person_id] |},
                    d'))
              end
          end
      end
  end.

(** The three sequences of the projection run in parallel. *)
Definition parallel (s : matcher Enc) : Prop :=
  List.length (known_face_names s) = List.length (known_face_encodings s)
  /\ List.length (known_face_ids s) = List.length (known_face_encodings s).

(** The entry [recognize_faces] owes a face with encoding [candidate]:
    the known person at the first least distance, when that distance is
    at most the tolerance, with confidence one minus the distance;
    otherwise the unknown entry. *)
Definition recognized_as (s : matcher Enc) (candidate : Enc)
    (r : recognized_face) : Prop :=
  (exists (i : nat) (k : Enc) (n : string) (pid : Z),
      let dist := norm_diff (coords k) (coords candidate) in
      nth_error (known_face_encodings s) i = Some k
      /\ nth_error (known_face_names s) i = Some n
      /\ nth_error (known_face_ids s) i = Some pid
      /\ (dist <= tolerance)%R
      /\ (forall k', In k' (known_face_encodings s) ->
            (dist <= norm_diff (coords k') (coords candidate))%R)
      /\ (forall j k', (j < i)%nat -> nth_error (known_face_encodings s) j = Some k' ->
            (dist < norm_diff (coords k') (coords candidate))%R)
      /\ r_name r = n
      /\ r_person_id r = Some pid
      /\ r_confidence r = (1 - dist)%R)
  \/
  ((forall k, In k (known_face_encodings s) ->
      (tolerance < norm_diff (coords k) (coords candidate))%R)
   /\ r_name r = "Unknown"
   /\ r_person_id r = None
   /\ r_confidence r = 0%R).

(** [detect_faces]: the locations found on the working frame, scaled back
    when the frame was resized. *)
Definition detect_faces (s : matcher Enc) (frame : image) : list box :=
  let rgb_frame := cvtColor_BGR2RGB frame in
  let '(height, width) := shape rgb_frame in
  let rgb_frame := working_frame frame in
  let locations := face_locations rgb_frame (model s) in
  if 800 <? width then map (scale_back width) locations else locations.

(** [FaceRecognitionSystem(db, model)]: empty sequences, then
    [load_known_faces]. *)
Definition new_matcher (model_name : string) (d : database) : result (matcher Enc) :=
  load_known_faces
    {| model := model_name; known_face_encodings := [];
       known_face_names := []; known_face_ids := [] |}
    d.

(** The projection read row by row: encoding, name and id of each known
    face. *)
Definition entries (s : matcher Enc) : list (Enc * string * Z) :=
  combine (combine (known_face_encodings s) (known_face_names s))
          (known_face_ids s).

(** What the store offers the projection: encoding, name and id of each
    person whose stored encoding decodes to a non-empty list. *)
Definition stored_entries (d : database) : list (Enc * string * Z) :=
  flat_map (fun r =>
              match loads_encoding (face_encoding r) with
              | Some enc =>
                  match coords enc with
                  | [] => []
                  | _ :: _ => [(enc, name r, id r)]
                  end
              | None => []
              end)
           (persons d).

(** The projection holds the known faces of the store, in some order. *)
Definition in_sync (s : matcher Enc) (d : database) : Prop :=
  parallel s /\ Permutation (entries s) (stored_entries d).

(** [app.py], the Delete button:
    [db.delete_person(id); face_system.load_known_faces()].  When the
    reload raises, the projection is the one from before. *)
Definition delete_and_reload (pid : Z) (s : matcher Enc) (d : database)
    : result unit * (matcher Enc * database) :=
  let d' := delete_person pid d in
  match load_known_faces s d' with
  | Ok s' => (Ok tt, (s', d'))
  | Raise e => (Raise e, (s, d'))
  end.

(** [app.py], the Update button:
    [db.update_person(id, new_name, metadata); face_system.load_known_faces()].
    When the update raises, nothing is reloaded. *)
Definition update_and_reload (pid : Z) (n : string) (m : Meta)
    (s : matcher Enc) (d : database) : result unit * (matcher Enc * database) :=
  match update_person pid (Some n) (Some m) d with
  | (Raise e, d') => (Raise e, (s, d'))
  | (Ok _, d') =>
      match load_known_faces s d' with
      | Ok s' => (Ok tt, (s', d'))
      | Raise e => (Raise e, (s, d'))
      end
  end.

(** [app.py], the Live Camera tab: the loop over the entries of
    [recognize_faces], in a run of the script in which no Register button
    is pressed.  An entry named ["Unknown"] only shows a warning; every
    other entry is passed to
    [db.log_detection(face['person_id'], face['confidence'])].  With
    [person_id] [None] the INSERT stores a NULL and the UPDATE selects no
    row.  The calls that draw and display are taken to return; they do not
    touch the store. *)
Definition log_face (now : datetime) (face : recognized_face) (d : database)
    : database :=
  if String.eqb (r_name face) "Unknown" then d
  else
    match r_person_id face with
    | Some pid => log_detection now pid (Some (r_confidence face)) d
    | None =>
        let lid := next_rowid (logs_seq d) (map log_id (detection_logs d)) in
        {| persons := persons d;
           persons_seq := persons_seq d;
           detection_logs :=
             detection_logs d ++
             [{| log_id := lid; person_id := None;
                 detection_time := isoformat now;
                 confidence := Some (r_confidence face) |}];
           logs_seq := lid |}
    end.

(** [clock_at k] is what the clock shows while entry [k] is handled. *)
Fixpoint log_faces (clock_at : nat -> datetime) (faces : list recognized_face)
    (d : database) : database :=
  match faces with
  | [] => d
  | face :: rest =>
      log_faces (fun k => clock_at (S k)) rest (log_face (clock_at O) face d)
  end.

(** The entries the loop logs. *)
Definition logged (face : recognized_face) : bool :=
  negb (String.eqb (r_name face) "Unknown").

(** The Live Camera tab for one picture: [recognize_faces], then the loop.
    An exception of [recognize_faces] ends the run before anything is
    logged. *)
Definition live_camera (clock_at : nat -> datetime) (s : matcher Enc)
    (frame : image) (d : database) : result unit * database :=
  match recognize_faces s frame with
  | Raise e => (Raise e, d)
  | Ok faces => (Ok tt, log_faces clock_at faces d)
  end.

End Matcher.

(* ===================================================================== *)
(** ** Annotation: [draw_face_boxes] *)
(* ===================================================================== *)

(** The drawing calls [draw_face_boxes] makes on the frame, which is
    changed in place and returned; a frame is known here by the calls made
    on it, in order.  Every text is set in FONT_HERSHEY_DUPLEX. *)
Inductive drawing : Type :=
| Rectangle (pt1 pt2 : Z * Z) (color : Z * Z * Z) (thickness : Z)
| PutText (text : string) (org : Z * Z) (font_scale : R) (color : Z * Z * Z)
    (thickness : Z).

(** [cv2.FILLED]. *)
Definition FILLED : Z := -1.

(** [cv2.getTextSize(text, FONT_HERSHEY_DUPLEX, scale, thickness)[0]], a
    width and a height, and the rendering [format(x, ".1%")]. *)
Class Lettering : Type := {
  getTextSize : string -> R -> Z -> Z * Z;
  format_percent : R -> string
}.

Section Annotation.

Context {lettering : Lettering}.

(** The body of the loop of [draw_face_boxes]. *)
Definition draw_face (face : recognized_face) : list drawing :=
  let '(top, right_, bottom, left_) := location face in
  let name := r_name face in
  let confidence := r_confidence face in
  let color := if String.eqb name "Unknown" then (0, 0, 255) else (0, 255, 0) in
  let thickness := 2 in
  let label_height := 30 in
  let label :=
    if Rltb 0 confidence
    then (name ++ " (" ++ format_percent confidence ++ ")")%string
    else name in
  let font_scale := (6 / 10)%R in
  let font_thickness := 1 in
  let text_size := getTextSize label font_scale font_thickness in
  let text_x := left_ + (right_ - left_ - fst text_size) / 2 in
  let text_y := bottom - (label_height - snd text_size) / 2 in
  [Rectangle (left_, top) (right_, bottom) color thickness;
   Rectangle (left_, bottom - label_height) (right_, bottom) color FILLED;
   PutText label (text_x, text_y) font_scale (255, 255, 255) font_thickness].

(** [draw_face_boxes]. *)
Definition draw_face_boxes (recognized_faces : list recognized_face)
    : list drawing :=
  flat_map draw_face recognized_faces.

End Annotation.

(* ===================================================================== *)
(** ** A small concrete installation *)
(* ===================================================================== *)

(** Concrete libraries on which the methods can be run: encodings have one
    component, written in tenths and stored as a decimal numeral; the only
    metadata is the empty dict; the clock counts the days of January 2024;
    a frame is given by the faces in it, each a box with its encoding. *)
Module Sample.

Definition json : Json Z unit :=
  {| dumps_encoding := fun z => NilEmpty.string_of_int (Z.to_int z);
     loads_encoding := fun s => option_map Z.of_int (NilEmpty.int_of_string s);
     dumps_metadata := fun _ => "{}";
     loads_metadata := fun s => if String.eqb s "{}" then Some tt else None;
     empty_dict := tt |}.

Definition digit (n : nat) : ascii := ascii_of_nat (48 + n).

Definition clock : Clock nat :=
  {| isoformat := fun day =>
       ("2024-01-"
        ++ String (digit (day / 10)) (String (digit (day mod 10)) "T12:00:00"))%string;
     minus_days := fun day n => (day - Z.to_nat n)%nat |}.

Definition frame : Type := list (box * Z).

Definition box_eqb (a b : box) : bool :=
  let '(t1, r1, b1, l1) := a in
  let '(t2, r2, b2, l2) := b in
  (t1 =? t2) && (r1 =? r2) && (b1 =? b2) && (l1 =? l2).

Definition encoding_at (f : frame) (b : box) : Z :=
  match find (fun face => box_eqb (fst face) b) f with
  | Some face => snd face
  | None => 0
  end.

Definition vision : Vision frame Z :=
  {| shape := fun _ => (480, 640);
     cvtColor_BGR2RGB := fun f => f;
     resize := fun f _ => f;
     face_locations := fun f _ => map fst f;
     face_encodings := fun f bs => Ok (map (encoding_at f) bs);
     coords := fun z => [(IZR z / 10)%R] |}.

(** The registry after Alice, with encoding 0.6, was added on day 1. *)
Definition alice_registered : database :=
  snd (add_person (json := json) (clock := clock) 1%nat "Alice" 6 None init_database).

Definition alice_row : person_row :=
  {| id := 1; name := "Alice"; face_encoding := "6";
     registration_date := "2024-01-01T12:00:00"; last_seen := None;
     total_detections := 0; metadata := Some "{}" |}.

(** Bob, with encoding 0.4, added on day 2 and detected on day 3. *)
Definition busy : database :=
  log_detection (clock := clock) 3%nat 2 (Some (8 / 10)%R)
    (snd (add_person (json := json) (clock := clock) 2%nat "Bob" 4 None
            alice_registered)).

(** A detection logged on day 1 for id 7, which no person carries. *)
Definition dangling : database :=
  log_detection (clock := clock) 1%nat 7 None init_database.


(** Frames: one face at distance 0.2 from Alice, one at distance exactly
    0.6, and two faces of areas 2500 and 10000. *)
Definition near_alice : frame := [((10, 60, 60, 10), 4)].
Definition at_tolerance : frame := [((10, 60, 60, 10), 0)].
Definition two_faces : frame := [((10, 60, 60, 10), 9); ((0, 200, 100, 100), 3)].

(** The projection [load_known_faces] builds from [alice_registered]. *)
Definition knows_alice : matcher Z :=
  {| model := "hog";
     known_face_encodings := [6];
     known_face_names := ["Alice"];
     known_face_ids := [1] |}.

(** A history: Alice is added, detected twice and renamed; Bob is added and
    deleted. *)
Definition history : list (@op Z unit nat) :=
  [AddPerson 1%nat "Alice" 6 None;
   LogDetection 2%nat 1 None;
   LogDetection 3%nat 1 (Some (8 / 10)%R);
   UpdatePerson 1 (Some "Alicia") None;
   AddPerson 4%nat "Bob" 4 None;
   DeletePerson 2].

(** A store whose second row carries an encoding text no method writes. *)
Definition damaged : database :=
  {| persons :=
       [alice_row;
        {| id := 2; name := "Bob"; face_encoding := "x";
           registration_date := "2024-01-02T12:00:00"; last_seen := None;
           total_detections := 0; metadata := Some "{}" |}];
     persons_seq := 2; detection_logs := []; logs_seq := 0 |}.

(** The same detector on frames 1600 pixels wide. *)
Definition wide_vision : Vision frame Z :=
  {| shape := fun _ => (1000, 1600);
     cvtColor_BGR2RGB := fun f => f;
     resize := fun f _ => f;
     face_locations := fun f _ => map fst f;
     face_encodings := fun f bs => Ok (map (encoding_at f) bs);
     coords := fun z => [(IZR z / 10)%R] |}.

(** A frame with one face whose encoding is Alice's. *)
Definition alice_again : frame := [((10, 60, 60, 10), 6)].

(** The projection of a store with nobody in it. *)
Definition knows_nobody : matcher Z :=
  {| model := "hog"; known_face_encodings := [];
     known_face_names := []; known_face_ids := [] |}.

(** A registry whose only person was registered under the name "Unknown",
    and the projection loaded from it. *)
Definition unknown_registered : database :=
  snd (add_person (json := json) (clock := clock) 1%nat "Unknown" 6 None
         init_database).

Definition unknown_row : person_row :=
  {| id := 1; name := "Unknown"; face_encoding := "6";
     registration_date := "2024-01-01T12:00:00"; last_seen := None;
     total_detections := 0; metadata := Some "{}" |}.

Definition knows_unknown : matcher Z :=
  {| model := "hog";
     known_face_encodings := [6];
     known_face_names := ["Unknown"];
     known_face_ids := [1] |}.

(** The clock of the camera tab: entry [k] is handled on day [2 + k]. *)
Definition camera_clock (k : nat) : nat := (2 + k)%nat.

(** A lettering whose glyphs are 10 wide and 12 high; the only confidence
    it is asked to print is 0.8. *)
Definition lettering : Lettering :=
  {| getTextSize := fun text _ _ => (10 * Z.of_nat (String.length text), 12);
     format_percent := fun _ => "80.0%" |}.

(** Python's floats as the binary64 floats of the machine.  [float(n)] is
    taken for integers below [2^63]; [int(x)] of an infinity or a NaN,
    which raises, is not met by the frame arithmetic. *)
Definition float_of_int (n : Z) : PrimFloat.float :=
  if n <? 0 then PrimFloat.opp (PrimFloat.of_uint63 (Uint63.of_Z (- n)))
  else PrimFloat.of_uint63 (Uint63.of_Z n).

Definition int_of_float (x : PrimFloat.float) : Z :=
  match FloatOps.Prim2SF x with
  | SpecFloat.S754_finite sign m e =>
      let n := if 0 <=? e then Z.shiftl (Z.pos m) e else Z.shiftr (Z.pos m) (- e) in
      if sign then - n else n
  | _ => 0
  end.

Definition real_of_float (x : PrimFloat.float) : R :=
  match FloatOps.Prim2SF x with
  | SpecFloat.S754_finite sign m e =>
      let v := if 0 <=? e then IZR (Z.pos m * 2 ^ e)
               else (IZR (Z.pos m) / IZR (2 ^ (- e)))%R in
      if sign then (- v)%R else v
  | _ => 0%R
  end.

Definition binary64 : Float64 :=
  {| float := PrimFloat.float;
     of_int := float_of_int;
     fdiv := PrimFloat.div;
     fmul := PrimFloat.mul;
     int_of := int_of_float;
     real := real_of_float |}.

(** Arithmetic without rounding, on the rationals. *)
Definition exact : Float64 :=
  {| float := QArith_base.Q;
     of_int := QArith_base.inject_Z;
     fdiv := QArith_base.Qdiv;
     fmul := QArith_base.Qmult;
     int_of := fun x => Z.quot (QArith_base.Qnum x) (Z.pos (QArith_base.Qden x));
     real := Q2R |}.

End Sample.

(* ===================================================================== *)
(** ** Facts about the storage engine *)
(* ===================================================================== *)

Lemma next_rowid_above (seq : Z) (rowids : list Z) :
  seq < next_rowid seq rowids /\ forall i, In i rowids -> i < next_rowid seq rowids.
Proof.
  unfold next_rowid. induction rowids as [|x xs [IHs IHx]]; simpl.
  - split; [lia | tauto].
  - split; [lia |]. intros i [<-|Hi]; [lia |]. specialize (IHx i Hi). lia.
Qed.

Lemma next_rowid_fresh (seq : Z) (rowids : list Z) :
  ~ In (next_rowid seq rowids) rowids.
Proof.
  intros H. apply (next_rowid_above seq) in H. lia.
Qed.

Lemma find_absent {A} (f : A -> bool) (l : list A) :
  (forall x, In x l -> f x = false) -> find f l = None.
Proof.
  induction l as [|a l IH]; simpl; intros H; [reflexivity |].
  rewrite (H a (or_introl eq_refl)). apply IH. intros x Hx. apply H. now right.
Qed.

Lemma find_app_absent {A} (f : A -> bool) (l : list A) (x : A) :
  (forall y, In y l -> f y = false) -> f x = true -> find f (l ++ [x]) = Some x.
Proof.
  induction l as [|a l IH]; simpl; intros H Hx.
  - now rewrite Hx.
  - rewrite (H a (or_introl eq_refl)). apply IH; auto.
Qed.

Lemma existsb_name_false (n : string) (rows : list person_row) :
  existsb (fun r => String.eqb (name r) n) rows = false <->
  forall r, In r rows -> name r <> n.
Proof.
  split.
  - intros H r Hr E.
    assert (X : existsb (fun r => String.eqb (name r) n) rows = true).
    { apply existsb_exists. exists r. split; [exact Hr | now apply String.eqb_eq]. }
    congruence.
  - intros H. destruct (existsb _ rows) eqn:E; [|reflexivity].
    apply existsb_exists in E. destruct E as [r [Hr E]].
    apply String.eqb_eq in E. now elim (H r Hr).
Qed.

Lemma text_compare_trans (x y z : string) :
  text_compare x y = Lt -> text_compare y z = Lt -> text_compare x z = Lt.
Proof.
  unfold text_compare. intros A B.
  exact (@transitivity _ String_as_OT.lt _ x y z A B).
Qed.

Lemma text_leb_iff (x y : string) : text_leb x y = true <-> text_compare x y <> Gt.
Proof.
  unfold text_leb. destruct (text_compare x y); split; congruence.
Qed.

Lemma text_leb_trans (x y z : string) :
  text_leb x y = true -> text_leb y z = true -> text_leb x z = true.
Proof.
  unfold text_leb. intros A B.
  destruct (text_compare x y) eqn:Cxy; try discriminate;
    destruct (text_compare y z) eqn:Cyz; try discriminate.
  - apply text_compare_eq in Cxy, Cyz. subst. now rewrite text_compare_refl.
  - apply text_compare_eq in Cxy. subst. now rewrite Cyz.
  - apply text_compare_eq in Cyz. subst. now rewrite Cxy.
  - now rewrite (text_compare_trans _ _ _ Cxy Cyz).
Qed.

Lemma null_text_compare_eq (a b : option string) :
  null_text_compare a b = Eq -> a = b.
Proof.
  destruct a, b; simpl; try discriminate; auto.
  intros C. apply text_compare_eq in C. now subst.
Qed.

Lemma null_text_compare_trans (a b c : option string) :
  null_text_compare a b = Lt -> null_text_compare b c = Lt ->
  null_text_compare a c = Lt.
Proof.
  destruct a, b, c; simpl; try discriminate; auto.
  apply text_compare_trans.
Qed.

Lemma by_last_seen_then_name_trans :
  Transitive (fun a b => is_true (by_last_seen_then_name a b)).
Proof.
  intros a b c. unfold is_true, by_last_seen_then_name.
  destruct (null_text_compare (last_seen b) (last_seen a)) eqn:Cba; try discriminate;
    destruct (null_text_compare (last_seen c) (last_seen b)) eqn:Ccb; try discriminate;
    intros A B.
  - apply null_text_compare_eq in Cba, Ccb. rewrite Ccb, Cba.
    replace (null_text_compare (last_seen a) (last_seen a)) with Eq.
    + exact (text_leb_trans _ _ _ A B).
    + destruct (last_seen a); simpl; [now rewrite text_compare_refl | reflexivity].
  - apply null_text_compare_eq in Cba. rewrite <- Cba, Ccb. reflexivity.
  - apply null_text_compare_eq in Ccb. rewrite Ccb, Cba. reflexivity.
  - now rewrite (null_text_compare_trans _ _ _ Ccb Cba).
Qed.

Lemma by_last_seen_then_name_iff (a b : person_row) :
  by_last_seen_then_name a b = true <-> listed_no_later a b.
Proof.
  unfold by_last_seen_then_name, listed_no_later, null_text_compare.
  destruct (last_seen a) as [x|], (last_seen b) as [y|].
  - destruct (text_compare y x) eqn:C.
    + apply text_compare_eq in C. subst y. rewrite text_leb_iff, text_compare_refl.
      split; [intros H; right; auto | intros [H|[_ H]]; [discriminate | exact H]].
    + rewrite (text_compare_Lt_Gt _ _ C). tauto.
    + pose proof (text_compare_Gt_Lt _ _ C) as C'. rewrite C'.
      split; [discriminate |]. intros [H|[E _]]; [discriminate |].
      subst y. rewrite text_compare_refl in C. discriminate.
  - tauto.
  - split; [discriminate | tauto].
  - apply text_leb_iff.
Qed.

Lemma by_name_trans : Transitive (fun a b => is_true (by_name a b)).
Proof.
  intros a b c. unfold is_true, by_name. apply text_leb_trans.
Qed.

Lemma by_count_desc_trans : Transitive (fun a b => is_true (by_count_desc a b)).
Proof.
  intros a b c. unfold is_true, by_count_desc. rewrite !Z.leb_le. lia.
Qed.

Lemma StronglySorted_impl {A} (R S : A -> A -> Prop) (l : list A) :
  (forall x y, R x y -> S x y) -> StronglySorted R l -> StronglySorted S l.
Proof.
  intros H. induction 1 as [|a l _ IH F]; constructor; auto.
  eapply Forall_impl; [|exact F]. auto.
Qed.

Lemma for_each_ok {A B} (f : A -> result B) (xs : list A) :
  (forall x, In x xs -> exists y, f x = Ok y) ->
  exists ys, for_each f xs = Ok ys /\ Forall2 (fun x y => f x = Ok y) xs ys.
Proof.
  induction xs as [|x xs IH]; simpl; intros H.
  - exists []. split; [reflexivity | constructor].
  - destruct (H x (or_introl eq_refl)) as [y Hy].
    destruct IH as [ys [E F]]; [intros z Hz; apply H; now right |].
    exists (y :: ys). rewrite Hy, E. simpl. split; [reflexivity |].
    constructor; assumption.
Qed.

Lemma StronglySorted_firstn {A} (R : A -> A -> Prop) (n : nat) (l : list A) :
  StronglySorted R l -> StronglySorted R (firstn n l).
Proof.
  intros H. revert n. induction H as [|a l _ IH F]; intros [|n]; simpl;
    try constructor; auto.
  rewrite Forall_forall in *. intros x Hx. apply F.
  rewrite <- (firstn_skipn n l). apply in_or_app. now left.
Qed.

Lemma StronglySorted_app_cross {A} (R : A -> A -> Prop) (l1 l2 : list A) :
  StronglySorted R (l1 ++ l2) ->
  forall x y, In x l1 -> In y l2 -> R x y.
Proof.
  induction l1 as [|a l1 IH]; simpl; intros H x y Hx Hy; [contradiction |].
  apply StronglySorted_inv in H. destruct H as [H F].
  destruct Hx as [<-|Hx].
  - rewrite Forall_forall in F. apply F, in_or_app. now right.
  - now apply IH.
Qed.

Lemma in_firstn {A} (n : nat) (l : list A) (x : A) : In x (firstn n l) -> In x l.
Proof.
  intros H. rewrite <- (firstn_skipn n l). apply in_or_app. now left.
Qed.

(** What [LIMIT n] keeps of a sorted list: an element is kept, or [n]
    elements are kept and each of them precedes it. *)
Lemma firstn_sorted_top {A} (R : A -> A -> Prop) (n : nat) (l : list A) (y : A) :
  StronglySorted R l -> In y l ->
  In y (firstn n l)
  \/ (List.length (firstn n l) = n /\ forall x, In x (firstn n l) -> R x y).
Proof.
  intros S Hy. rewrite <- (firstn_skipn n l) in Hy, S.
  apply in_app_or in Hy. destruct Hy as [Hy|Hy]; [now left |]. right.
  split.
  - apply firstn_length_le.
    destruct (Nat.le_gt_cases n (List.length l)) as [L|G]; [exact L |].
    rewrite skipn_all2 in Hy by (apply Nat.lt_le_incl; exact G). contradiction.
  - intros x Hx. exact (StronglySorted_app_cross R _ _ S x y Hx Hy).
Qed.

Lemma like_any_spec (m : string -> bool) (s : string) :
  like_any m s = true <->
  exists before rest, s = (before ++ rest)%string /\ m rest = true.
Proof.
  induction s as [|c s IH]; simpl.
  - rewrite orb_false_r. split.
    + intros H. now exists EmptyString, EmptyString.
    + intros [before [rest [E H]]].
      destruct before; [| discriminate]. simpl in E. now subst.
  - rewrite orb_true_iff, IH. split.
    + intros [H | [before [rest [-> H]]]].
      * now exists EmptyString, (String c s).
      * now exists (String c before), rest.
    + intros [[|c' before] [rest [E H]]]; simpl in E.
      * left. now subst.
      * right. injection E as -> ->. now exists before, rest.
Qed.

Lemma like_any_always (s : string) : like_any (fun _ => true) s = true.
Proof. destruct s; reflexivity. Qed.

Lemma c_text_app (q t : string) :
  nul_free q = true -> c_text (q ++ t) = (q ++ c_text t)%string.
Proof.
  induction q as [|c q IH]; simpl; intros H; [reflexivity |].
  apply andb_true_iff in H. destruct H as [Hc Hq].
  apply negb_true_iff in Hc. rewrite Hc. now rewrite IH.
Qed.


Lemma like_prefix_spec (q s : string) :
  wildcard_free q = true ->
  (like_from false (q ++ String percent EmptyString) s = true <->
   exists mid rest, s = (mid ++ rest)%string /\ same_folded q mid = true).
Proof.
  revert s. induction q as [|c q IH]; intros s Hq.
  - simpl. split; [| reflexivity].
    intros _. now exists EmptyString, s.
  - simpl in Hq. apply andb_true_iff in Hq. destruct Hq as [Hc Hq].
    apply andb_true_iff in Hc. destruct Hc as [Hp Hu].
    apply negb_true_iff in Hp, Hu.
    cbn [append like_from]. rewrite Hp, Hu.
    destruct s as [|d s].
    + split; [discriminate |].
      intros [[|d' mid] [rest [E H]]]; simpl in H; [discriminate |].
      simpl in E. discriminate.
    + rewrite andb_true_iff, (IH s Hq). split.
      * intros [Hcd [mid [rest [-> H]]]].
        exists (String d mid), rest. split; [reflexivity |].
        simpl. now rewrite Hcd.
      * intros [[|d' mid] [rest [E H]]]; simpl in H; [discriminate |].
        simpl in E. injection E as -> ->.
        apply andb_true_iff in H. destruct H as [Hcd H].
        split; [exact Hcd |]. now exists mid, rest.
Qed.

(** After an open [%], a pattern that begins with literals is tried at
    every position. *)
Lemma like_from_star (q s : string) :
  wildcard_free q = true ->
  like_from true (q ++ String percent EmptyString) s
  = like_any (like_from false (q ++ String percent EmptyString)) s.
Proof.
  destruct q as [|c q]; intros Hq.
  - simpl. symmetry. apply like_any_always.
  - simpl in Hq. apply andb_true_iff in Hq. destruct Hq as [Hc _].
    apply andb_true_iff in Hc. destruct Hc as [Hp Hu].
    apply negb_true_iff in Hp, Hu.
    cbn [append like_from]. now rewrite Hp, Hu.
Qed.

(** For a query with no wildcard and no NUL in it, the pattern of
    [search_persons] accepts exactly the names the query occurs in, letter
    case aside, a name being read up to its first NUL. *)
Lemma like_contains (q s : string) :
  wildcard_free q = true -> nul_free q = true ->
  (like (String percent (q ++ String percent EmptyString)) s = true <->
   contains_folded q (c_text s)).
Proof.
  intros Hq Hn. unfold like.
  change (String percent (q ++ String percent EmptyString))
    with (String percent EmptyString ++ (q ++ String percent EmptyString))%string.
  rewrite (c_text_app (String percent EmptyString)) by reflexivity.
  rewrite (c_text_app q _ Hn).
  change (c_text (String percent EmptyString)) with (String percent EmptyString).
  cbn [append like_from]. rewrite Ascii.eqb_refl.
  rewrite (like_from_star q _ Hq), like_any_spec.
  unfold contains_folded. split.
  - intros [before [rest [-> H]]].
    apply (like_prefix_spec q rest Hq) in H. destruct H as [mid [rest' [-> H]]].
    now exists before, mid, rest'.
  - intros [before [mid [rest [-> H]]]].
    exists before, (mid ++ rest)%string. split; [reflexivity |].
    apply (like_prefix_spec q _ Hq). now exists mid, rest.
Qed.

(** The matcher at work: [_] takes one character, not one byte, so two of
    them do not fit the two bytes of a single accented letter; and a name
    is read up to its first NUL only. *)
Lemma like_underscore_is_one_character :
  let e_acute := String (ascii_of_nat 195) (String (ascii_of_nat 169) EmptyString) in
  like "%_%" e_acute = true /\ like "%__%" e_acute = false.
Proof. split; reflexivity. Qed.

Lemma like_reads_to_nul :
  let name := String "a" (String zero (String "b" EmptyString)) in
  like "%b%" name = false
  /\ contains_folded "b" name
  /\ ~ contains_folded "b" (c_text name).
Proof.
  split; [reflexivity |]. split.
  - exists (String "a" (String zero EmptyString)), "b", EmptyString.
    split; reflexivity.
  - intros H. apply (like_contains "b" _ eq_refl eq_refl) in H. discriminate H.
Qed.

Lemma for_each_inv {A B} (f : A -> result B) (xs : list A) (ys : list B) :
  for_each f xs = Ok ys -> Forall2 (fun x y => f x = Ok y) xs ys.
Proof.
  revert ys. induction xs as [|x xs IH]; simpl; intros ys H.
  - injection H as <-. constructor.
  - destruct (f x) as [y|e] eqn:Ex; simpl in H; [| discriminate].
    destruct (for_each f xs) as [ys'|e]; simpl in H; [| discriminate].
    injection H as <-. constructor; auto.
Qed.

Lemma Forall2_in_l {A B} (P : A -> B -> Prop) (xs : list A) (ys : list B) (x : A) :
  Forall2 P xs ys -> In x xs -> exists y, In y ys /\ P x y.
Proof.
  induction 1 as [|a b xs ys Hab _ IH]; intros Hin; [contradiction |].
  destruct Hin as [<- | Hin].
  - exists b. split; [now left | exact Hab].
  - destruct (IH Hin) as [y [Hy Hp]]. exists y. split; [now right | exact Hp].
Qed.

Lemma Forall2_in_r {A B} (P : A -> B -> Prop) (xs : list A) (ys : list B) (y : B) :
  Forall2 P xs ys -> In y ys -> exists x, In x xs /\ P x y.
Proof.
  induction 1 as [|a b xs ys Hab _ IH]; intros Hin; [contradiction |].
  destruct Hin as [<- | Hin].
  - exists a. split; [now left | exact Hab].
  - destruct (IH Hin) as [x [Hx Hp]]. exists x. split; [now right | exact Hp].
Qed.

Lemma NoDup_map_same {A B} (f : A -> B) (l : list A) (a b : A) :
  NoDup (map f l) -> In a l -> In b l -> f a = f b -> a = b.
Proof.
  induction l as [|x l IH]; simpl; intros Hnd Ha Hb E; [contradiction |].
  inversion Hnd as [|y ys Hnotin Hnd']; subst.
  destruct Ha as [<- | Ha], Hb as [<- | Hb]; auto.
  - elim Hnotin. rewrite E. now apply in_map.
  - elim Hnotin. rewrite <- E. now apply in_map.
Qed.

(* ===================================================================== *)
(** ** Facts about the registry *)
(* ===================================================================== *)

Section RegistryFacts.

Context {Enc Meta datetime : Type}.
Context {json : Json Enc Meta} {clock : Clock datetime}.

(** A row written by [add_person] decodes to the values it was built from. *)
Lemma decode_row_written (RT : JsonRoundTrip Enc Meta)
    (i : Z) (n : string) (enc : Enc) (m : Meta) (date : string)
    (seen_at : option string) (k : Z) :
  exists m' : Meta,
    decode_row {| id := i; name := n; face_encoding := dumps_encoding enc;
                  registration_date := date; last_seen := seen_at;
                  total_detections := k; metadata := Some (dumps_metadata m) |}
    = Ok {| p_id := i; p_name := n; p_face_encoding := enc;
            p_registration_date := date; p_last_seen := seen_at;
            p_total_detections := k; p_metadata := m' |}.
Proof.
  destruct RT as [RTe RTm].
  unfold decode_row; simpl. rewrite RTe.
  destruct (truthy (dumps_metadata m)).
  - rewrite RTm. now exists m.
  - now exists empty_dict.
Qed.

(** C3. [add_person] on a name no row carries appends one row with
    [registration_date = now], [total_detections = 0], [last_seen = NULL]
    and a fresh id, which it returns; [get_person_by_id] on that id then
    yields the given name and the very embedding that was supplied.  On a
    name some row carries it raises the duplicate-name [ValueError] and
    the database is unchanged. *)
Theorem add_person_spec
    (RT : JsonRoundTrip Enc Meta)
    (now : datetime) (n : string) (enc : Enc) (m : option Meta) (d : database) :
  ((forall r, In r (persons d) -> name r <> n) ->
   exists (pid : Z) (row : person_row) (p : person Enc Meta),
     add_person now n enc m d =
       (Ok pid, {| persons := persons d ++ [row];
                   persons_seq := pid;
                   detection_logs := detection_logs d;
                   logs_seq := logs_seq d |})
     /\ ~ In pid (map id (persons d))
     /\ id row = pid /\ name row = n
     /\ registration_date row = isoformat now
     /\ total_detections row = 0 /\ last_seen row = None
     /\ get_person_by_id pid (snd (add_person now n enc m d)) = Ok (Some p)
     /\ p_id p = pid /\ p_name p = n /\ p_face_encoding p = enc
     /\ p_registration_date p = isoformat now
     /\ p_total_detections p = 0 /\ p_last_seen p = None)
  /\
  ((exists r, In r (persons d) /\ name r = n) ->
   add_person now n enc m d = (Raise (already_exists n), d)).
Proof.
  split.
  - intros Hfresh. apply existsb_name_false in Hfresh.
    unfold add_person. rewrite Hfresh.
    set (pid := next_rowid (persons_seq d) (map id (persons d))).
    set (row := {| id := pid; name := n; face_encoding := dumps_encoding enc;
                   registration_date := isoformat now; last_seen := None;
                   total_detections := 0;
                   metadata := Some (dumps_metadata (or_empty m)) |}).
    destruct (decode_row_written RT pid n enc (or_empty m)
                (isoformat now) None 0) as [m' Hdec].
    fold row in Hdec.
    pose proof (next_rowid_fresh (persons_seq d) (map id (persons d))) as Hnew.
    fold pid in Hnew.
    eexists pid, row, _. split; [reflexivity |].
    split; [exact Hnew |].
    repeat (split; [reflexivity |]).
    split.
    + unfold get_person_by_id; simpl.
      rewrite (find_app_absent _ (persons d) row).
      * rewrite Hdec. reflexivity.
      * intros y Hy. apply Z.eqb_neq. intros E. apply Hnew. rewrite <- E.
        now apply in_map.
      * simpl. apply Z.eqb_refl.
    + simpl. repeat split; reflexivity.
  - intros [r [Hr E]]. unfold add_person.
    assert (X : existsb (fun r => String.eqb (name r) n) (persons d) = true).
    { apply existsb_exists. exists r. split; [exact Hr | now apply String.eqb_eq]. }
    now rewrite X.
Qed.

(** *** [update_person] *)

Lemma map_unmatched (pid : Z) (f : person_row -> person_row) (rows : list person_row) :
  (forall r, In r rows -> id r <> pid) ->
  map (fun r => if id r =? pid then f r else r) rows = rows.
Proof.
  induction rows as [|a rows IH]; simpl; intros H; [reflexivity |].
  rewrite IH by (intros r Hr; apply H; now right).
  destruct (Z.eqb_spec (id a) pid) as [E|_]; [|reflexivity].
  now elim (H a (or_introl eq_refl)).
Qed.

Lemma rename_conflict_unmatched (pid : Z) (n : option string) (rows : list person_row) :
  (forall r, In r rows -> id r <> pid) -> rename_conflict pid n rows = false.
Proof.
  intros H. destruct n as [s|]; simpl; [|reflexivity].
  replace (existsb (fun r => id r =? pid) rows) with false; [reflexivity |].
  symmetry. destruct (existsb _ rows) eqn:E; [|reflexivity].
  apply existsb_exists in E. destruct E as [r [Hr E]].
  apply Z.eqb_eq in E. now elim (H r Hr).
Qed.

Ltac case_conflict :=
  match goal with
  | |- context [rename_conflict ?a ?b ?c] => destruct (rename_conflict a b c)
  end.

Lemma update_frame_refl (pid : Z) (n : option string) (m : option Meta)
    (rows : list person_row) :
  Forall2 (update_frame pid n m) rows rows.
Proof.
  induction rows; constructor; auto. unfold update_frame. tauto.
Qed.

Lemma update_frame_map (pid : Z) (n : option string) (m : option Meta)
    (rows : list person_row) :
  Forall2 (update_frame pid n m) rows
    (map (fun r => if id r =? pid
                   then apply_update (name_update n) (metadata_update m) r
                   else r) rows).
Proof.
  induction rows as [|a rows IH]; simpl; constructor; auto.
  destruct (Z.eqb_spec (id a) pid) as [E|E].
  - unfold update_frame, apply_update; simpl.
    repeat (split; [reflexivity |]).
    split; [intros X; now elim X |].
    split; [intros ->; reflexivity | intros ->; reflexivity].
  - unfold update_frame. tauto.
Qed.

(** C7. [update_person] touches nothing but the name and the metadata of
    the rows whose id is the given one: the rows stay in place, the other
    columns of the addressed row and every other row are as before, a
    field that is not supplied keeps its value, and so do the detection
    log and both counters.  With neither field supplied, or with an id no
    row carries, the call returns normally and the database is the one it
    started from. *)
Theorem update_person_frame
    (pid : Z) (n : option string) (m : option Meta) (d : database) :
  let d' := snd (update_person pid n m d) in
  Forall2 (update_frame pid n m) (persons d) (persons d')
  /\ detection_logs d' = detection_logs d
  /\ persons_seq d' = persons_seq d
  /\ logs_seq d' = logs_seq d
  /\ ((n = None \/ n = Some EmptyString) -> m = None ->
      update_person pid n m d = (Ok tt, d))
  /\ ((forall r, In r (persons d) -> id r <> pid) ->
      update_person pid n m d = (Ok tt, d)).
Proof.
  unfold update_person.
  split; [| split; [| split; [| split; [| split]]]].
  - destruct (name_update n) eqn:En, (metadata_update m) eqn:Em;
      try (case_conflict;
           [apply update_frame_refl
           | rewrite <- En, <- Em; apply update_frame_map]).
    apply update_frame_refl.
  - destruct (name_update n), (metadata_update m); try case_conflict; reflexivity.
  - destruct (name_update n), (metadata_update m); try case_conflict; reflexivity.
  - destruct (name_update n), (metadata_update m); try case_conflict; reflexivity.
  - intros [-> | ->] ->; reflexivity.
  - intros H.
    destruct (name_update n) as [s|] eqn:En, (metadata_update m) as [t|] eqn:Em;
      try reflexivity;
      rewrite (rename_conflict_unmatched pid _ (persons d) H);
      rewrite (map_unmatched pid _ (persons d) H);
      destruct d; reflexivity.
Qed.

(** *** [delete_person] *)

Lemma filter_all {A} (f : A -> bool) (l : list A) :
  (forall x, In x l -> f x = true) -> filter f l = l.
Proof.
  induction l as [|a l IH]; simpl; intros H; [reflexivity |].
  rewrite (H a (or_introl eq_refl)). f_equal. apply IH. intros x Hx. apply H. now right.
Qed.

Lemma filter_idem {A} (f : A -> bool) (l : list A) :
  filter f (filter f l) = filter f l.
Proof.
  apply filter_all. intros x Hx. apply filter_In in Hx. tauto.
Qed.

Lemma references_iff (pid : Z) (l : log_row) :
  references pid l = true <-> person_id l = Some pid.
Proof.
  unfold references. destruct (person_id l) as [q|].
  - rewrite Z.eqb_eq. split; congruence.
  - split; discriminate.
Qed.

Lemma not_references_iff (pid : Z) (l : log_row) :
  negb (references pid l) = true <-> person_id l <> Some pid.
Proof.
  rewrite negb_true_iff, <- not_true_iff_false, references_iff. tauto.
Qed.

(** C6, as the code has it.  [delete_person] removes exactly the person
    rows with the given id and the log rows that reference it, after which
    [get_person_by_id] finds nobody; a second call changes nothing more;
    and the call changes nothing at all when neither a person row nor a
    log row carries the id. *)
Theorem delete_person_spec (pid : Z) (d : database) :
  let d' := delete_person pid d in
  (forall r, In r (persons d') <-> In r (persons d) /\ id r <> pid)
  /\ (forall l, In l (detection_logs d') <->
                In l (detection_logs d) /\ person_id l <> Some pid)
  /\ get_person_by_id pid d' = Ok None
  /\ delete_person pid d' = d'
  /\ ((forall r, In r (persons d) -> id r <> pid) ->
      (forall l, In l (detection_logs d) -> person_id l <> Some pid) ->
      d' = d).
Proof.
  simpl. split; [| split; [| split; [| split]]].
  - intros r. unfold delete_person; simpl. rewrite filter_In.
    rewrite negb_true_iff, Z.eqb_neq. tauto.
  - intros l. unfold delete_person; simpl. rewrite filter_In.
    rewrite not_references_iff. tauto.
  - unfold get_person_by_id, delete_person; simpl.
    rewrite find_absent; [reflexivity |].
    intros r Hr. apply filter_In in Hr. destruct Hr as [_ Hr].
    now apply negb_true_iff in Hr.
  - unfold delete_person; simpl. now rewrite !filter_idem.
  - intros Hp Hl. unfold delete_person.
    rewrite (filter_all _ (persons d)), (filter_all _ (detection_logs d)).
    + destruct d; reflexivity.
    + intros l Hin. apply not_references_iff. auto.
    + intros r Hin. apply negb_true_iff, Z.eqb_neq. auto.
Qed.

(** *** [log_detection] *)


Lemma logs_of_log_detection (now : datetime) (pid : Z) (conf : option R)
    (d : database) :
  exists l : log_row,
    logs_of pid (log_detection now pid conf d) = logs_of pid d ++ [l]
    /\ person_id l = Some pid
    /\ detection_time l = isoformat now
    /\ confidence l = conf
    /\ ~ In (log_id l) (map log_id (detection_logs d)).
Proof.
  eexists. unfold logs_of, log_detection; simpl.
  rewrite filter_app; simpl. unfold references at 2; simpl.
  rewrite Z.eqb_refl. split; [reflexivity |].
  repeat (split; [reflexivity |]). simpl. apply next_rowid_fresh.
Qed.



(** *** The read methods *)

Lemma decode_row_decodes (r : person_row) (p : person Enc Meta) :
  decode_row r = Ok p -> decodes_to r p.
Proof.
  unfold decode_row, decodes_to.
  destruct (loads_encoding (face_encoding r)) as [enc|]; [|discriminate].
  destruct (metadata r) as [text|].
  - destruct (truthy text).
    + destruct (loads_metadata text) as [m|]; [|discriminate].
      intros [= <-]. simpl. tauto.
    + intros [= <-]. simpl. tauto.
  - intros [= <-]. simpl. tauto.
Qed.

(** C5. When every stored row decodes, [get_all_persons] returns one
    person per stored row, nobody twice and nobody left out, in the order
    of [listed_no_later]: latest [last_seen] first, NULL [last_seen] after
    all timestamps, equal [last_seen] by ascending name; and each returned
    person is its row with the embedding and the metadata read back from
    the stored text. *)
Theorem get_all_persons_spec (d : database) :
  decodable d ->
  exists (rows : list person_row) (ps : list (person Enc Meta)),
    get_all_persons d = Ok ps
    /\ Permutation (persons d) rows
    /\ StronglySorted listed_no_later rows
    /\ Forall2 decodes_to rows ps.
Proof.
  intros Hdec. unfold get_all_persons.
  destruct (for_each_ok decode_row (SortLastSeenName.sort (persons d)))
    as [ps [E F]].
  - intros r Hr. apply Hdec.
    eapply Permutation_in; [|exact Hr].
    apply Permutation_sym, SortLastSeenName.Permuted_sort.
  - exists (SortLastSeenName.sort (persons d)), ps.
    split; [exact E |].
    split; [apply SortLastSeenName.Permuted_sort |].
    split.
    + eapply StronglySorted_impl;
        [| apply SortLastSeenName.StronglySorted_sort,
                 by_last_seen_then_name_trans].
      intros x y. apply by_last_seen_then_name_iff.
    + eapply Forall2_impl; [|exact F].
      intros r p. apply decode_row_decodes.
Qed.

(** *** Stored rows stay decodable *)

Lemma decode_row_ok (r : person_row) :
  (exists p, decode_row r = Ok p) <->
  (exists enc, loads_encoding (face_encoding r) = Some enc)
  /\ match metadata r with
     | None => True
     | Some text => truthy text = true -> exists m, loads_metadata text = Some m
     end.
Proof.
  unfold decode_row. split.
  - intros [p H].
    destruct (loads_encoding (face_encoding r)) as [enc|]; [|discriminate].
    split; [now exists enc |].
    destruct (metadata r) as [text|]; [|exact I].
    intros T. rewrite T in H.
    destruct (loads_metadata text) as [m|]; [now exists m | discriminate].
  - intros [[enc ->] H].
    destruct (metadata r) as [text|]; [| eexists; reflexivity].
    destruct (truthy text); [| eexists; reflexivity].
    destruct (H eq_refl) as [m ->]. eexists; reflexivity.
Qed.

Lemma init_database_decodable : decodable init_database.
Proof. intros r []. Qed.

Lemma add_person_decodable (RT : JsonRoundTrip Enc Meta)
    (now : datetime) (n : string) (enc : Enc) (m : option Meta) (d : database) :
  decodable d -> decodable (snd (add_person now n enc m d)).
Proof.
  intros H. unfold add_person.
  destruct (existsb _ (persons d)); [exact H |].
  intros r Hr. simpl in Hr. apply in_app_or in Hr.
  destruct Hr as [Hr | [<- | []]]; [now apply H |].
  destruct (decode_row_written RT
              (next_rowid (persons_seq d) (map id (persons d))) n enc
              (or_empty m) (isoformat now) None 0) as [m' E].
  eexists. exact E.
Qed.

Lemma log_detection_decodable (now : datetime) (pid : Z) (conf : option R)
    (d : database) :
  decodable d -> decodable (log_detection now pid conf d).
Proof.
  intros H r Hr. unfold log_detection in Hr; simpl in Hr.
  apply in_map_iff in Hr. destruct Hr as [r0 [E Hr0]].
  specialize (H r0 Hr0).
  destruct (id r0 =? pid); subst r; [| exact H].
  apply decode_row_ok. apply decode_row_ok in H. exact H.
Qed.

Lemma update_person_decodable (RT : JsonRoundTrip Enc Meta)
    (pid : Z) (n : option string) (m : option Meta) (d : database) :
  decodable d -> decodable (snd (update_person pid n m d)).
Proof.
  intros H. unfold update_person.
  destruct (name_update n) as [s|] eqn:En, (metadata_update m) as [t|] eqn:Em;
    try exact H;
    (match goal with
     | |- context [rename_conflict ?a ?b ?c] => destruct (rename_conflict a b c)
     end; [exact H |]);
    intros r Hr; simpl in Hr; apply in_map_iff in Hr;
    destruct Hr as [r0 [E Hr0]]; specialize (H r0 Hr0);
    (destruct (id r0 =? pid); subst r; [| exact H]);
    apply decode_row_ok; apply decode_row_ok in H;
    destruct H as [He Hm]; (split; [exact He |]); simpl; try exact Hm;
    intros _; destruct m as [x|]; try discriminate;
    injection Em as <-; exists x; apply RT.
Qed.

Lemma delete_person_decodable (pid : Z) (d : database) :
  decodable d -> decodable (delete_person pid d).
Proof.
  intros H r Hr. unfold delete_person in Hr; simpl in Hr.
  apply filter_In in Hr. apply H. tauto.
Qed.

(** The rows behind a result of [search_persons] when every stored row
    decodes: those the LIKE pattern accepts, each once, by ascending name. *)
Lemma search_persons_rows (query : string) (d : database) :
  decodable d ->
  exists (rows : list person_row) (ps : list (person Enc Meta)),
    search_persons query d = Ok ps
    /\ Permutation
         (filter (fun r => like (String percent (query ++ String percent EmptyString))
                                (name r))
                 (persons d))
         rows
    /\ StronglySorted name_no_later rows
    /\ Forall2 decodes_to rows ps.
Proof.
  intros Hdec. unfold search_persons.
  set (pattern := String percent (query ++ String percent EmptyString)%string).
  set (hits := filter (fun r => like pattern (name r)) (persons d)).
  assert (P : Permutation hits (SortName.sort hits)) by apply SortName.Permuted_sort.
  destruct (for_each_ok decode_row (SortName.sort hits)) as [ps [E F]].
  - intros r Hr. apply Hdec.
    apply (Permutation_in _ (Permutation_sym P)) in Hr.
    unfold hits in Hr. apply filter_In in Hr. tauto.
  - exists (SortName.sort hits), ps.
    split; [exact E |]. split; [exact P |]. split.
    + eapply StronglySorted_impl;
        [| apply SortName.StronglySorted_sort, by_name_trans].
      intros x y. apply text_leb_iff.
    + eapply Forall2_impl; [|exact F].
      intros r p. apply decode_row_decodes.
Qed.


Lemma like_everything (s : string) :
  like (String percent (String percent EmptyString)) s = true.
Proof. reflexivity. Qed.

(** X9. The empty query selects everybody: on a store whose rows decode,
    [search_persons] with the empty string returns every stored person,
    each once, by ascending name. *)
Theorem search_persons_empty_query (d : database) :
  decodable d ->
  exists (rows : list person_row) (ps : list (person Enc Meta)),
    search_persons EmptyString d = Ok ps
    /\ Permutation (persons d) rows
    /\ StronglySorted name_no_later rows
    /\ Forall2 decodes_to rows ps.
Proof.
  intros Hdec.
  destruct (search_persons_rows EmptyString d Hdec) as [rows [ps [E [P [S F]]]]].
  exists rows, ps. split; [exact E |]. split; [| auto].
  rewrite filter_all in P; [exact P |].
  intros r _. apply like_everything.
Qed.


(** *** [get_detection_stats] *)

Lemma person_ids_spec (ls : list log_row) (i : Z) :
  In i (person_ids ls) <-> exists l, In l ls /\ person_id l = Some i.
Proof.
  unfold person_ids. rewrite in_flat_map. split.
  - intros [l [Hl Hi]]. exists l. split; [exact Hl |].
    destruct (person_id l) as [q|]; simpl in Hi; [|contradiction].
    destruct Hi as [->|[]]. reflexivity.
  - intros [l [Hl E]]. exists l. split; [exact Hl |]. rewrite E. now left.
Qed.

Lemma visit_counts_spec (ps : list person_row) (ls : list log_row)
    (nm : string) (c : Z) :
  In (nm, c) (visit_counts ps ls) <->
  exists p, In p ps /\ name p = nm
            /\ c = Z.of_nat (List.length (filter (references (id p)) ls))
            /\ 0 < c.
Proof.
  unfold visit_counts. rewrite in_flat_map. split.
  - intros [p [Hp Hin]]. exists p. split; [exact Hp |].
    destruct (Z.ltb_spec 0 (Z.of_nat (List.length (filter (references (id p)) ls))))
      as [L|L]; simpl in Hin; [|contradiction].
    destruct Hin as [[= <- <-]|[]]. auto.
  - intros [p [Hp [<- [-> L]]]]. exists p. split; [exact Hp |].
    apply Z.ltb_lt in L. rewrite L. now left.
Qed.

(** C9. With [cutoff] the ISO text of [now - days], the events that count
    are the log rows whose [detection_time] is strictly greater than
    [cutoff].  [total_detections] is their number; [unique_persons] is the
    number of distinct person ids they carry; [top_visitors] has at most
    five entries, in descending order of count, each the name of a stored
    person with the positive number of counted events that reference that
    person, and a person with counted events is either listed or has no
    more of them than any of the five listed.  Dropping every other event
    from the log leaves the three results as they are. *)
Theorem get_detection_stats_spec (now : datetime) (days : Z) (d : database) :
  let cutoff := isoformat (minus_days now days) in
  let recent := filter (after cutoff) (detection_logs d) in
  let visits (p : person_row) :=
    Z.of_nat (List.length (filter (references (id p)) recent)) in
  let s := get_detection_stats now days d in
  (forall l, In l recent <->
             In l (detection_logs d)
             /\ text_compare cutoff (detection_time l) = Lt)
  /\ stat_total_detections s = Z.of_nat (List.length recent)
  /\ (exists ids : list Z,
        NoDup ids
        /\ (forall i, In i ids <-> exists l, In l recent /\ person_id l = Some i)
        /\ stat_unique_persons s = Z.of_nat (List.length ids))
  /\ (List.length (stat_top_visitors s) <= 5)%nat
  /\ StronglySorted (fun a b => snd b <= snd a) (stat_top_visitors s)
  /\ (forall nm c, In (nm, c) (stat_top_visitors s) ->
        exists p, In p (persons d) /\ name p = nm /\ c = visits p /\ 0 < c)
  /\ (forall p, In p (persons d) -> 0 < visits p ->
        In (name p, visits p) (stat_top_visitors s)
        \/ (List.length (stat_top_visitors s) = 5%nat
            /\ forall e, In e (stat_top_visitors s) -> visits p <= snd e))
  /\ get_detection_stats now days
       {| persons := persons d; persons_seq := persons_seq d;
          detection_logs := recent; logs_seq := logs_seq d |} = s.
Proof.
  intros cutoff recent visits s.
  assert (Sorted_all : StronglySorted (fun a b => snd b <= snd a)
                         (SortCount.sort (visit_counts (persons d) recent))).
  { eapply StronglySorted_impl;
      [| apply SortCount.StronglySorted_sort, by_count_desc_trans].
    intros x y H. apply Z.leb_le. exact H. }
  assert (Etop : stat_top_visitors s
                 = firstn 5 (SortCount.sort (visit_counts (persons d) recent)))
    by reflexivity.
  split; [| split; [| split; [| split; [| split; [| split; [| split]]]]]].
  - intros l. unfold recent. rewrite filter_In. unfold after, text_ltb.
    destruct (text_compare cutoff (detection_time l));
      split; intros [H1 H2]; split; auto; discriminate.
  - reflexivity.
  - exists (nodup Z.eq_dec (person_ids recent)).
    split; [apply NoDup_nodup |].
    split; [| reflexivity].
    intros i. rewrite nodup_In. apply person_ids_spec.
  - rewrite Etop. apply firstn_le_length.
  - rewrite Etop. now apply StronglySorted_firstn.
  - intros nm c Hin. rewrite Etop in Hin. apply in_firstn in Hin.
    eapply Permutation_in in Hin;
      [| apply Permutation_sym, SortCount.Permuted_sort].
    apply visit_counts_spec in Hin. exact Hin.
  - intros p Hp Hpos. rewrite Etop.
    assert (Hin : In (name p, visits p)
                     (SortCount.sort (visit_counts (persons d) recent))).
    { eapply Permutation_in; [apply SortCount.Permuted_sort |].
      apply visit_counts_spec. exists p. auto. }
    destruct (firstn_sorted_top _ 5 _ _ Sorted_all Hin) as [H|[Hlen Htop]];
      [now left | right].
    split; [exact Hlen |]. intros e He. exact (Htop e He).
  - assert (Hidem : filter (after cutoff) recent = recent)
      by (unfold recent; apply filter_idem).
    unfold s, get_detection_stats; cbn [detection_logs persons].
    fold cutoff. rewrite Hidem. reflexivity.
Qed.

(** *** Keys stay unique *)

Lemma NoDup_map_filter {Row Key : Type} (keep : Row -> bool)
    (key : Row -> Key) (rows : list Row) (Hkey : NoDup (map key rows)) :
  NoDup (map key (filter keep rows)).
Proof.
  induction rows as [|r rows IH]; simpl in *; [constructor |].
  apply NoDup_cons_iff in Hkey. destruct Hkey as [Hfresh Hrest].
  destruct (keep r); simpl; [| now apply IH].
  apply NoDup_cons_iff. split; [| now apply IH].
  intros Hin. apply Hfresh. apply in_map_iff in Hin.
  destruct Hin as [y [E Hy]]. apply filter_In in Hy.
  apply in_map_iff. exists y. tauto.
Qed.

Lemma map_id_updated (pid : Z) (f : person_row -> person_row) (rows : list person_row) :
  (forall r, id (f r) = id r) ->
  map id (map (fun r => if id r =? pid then f r else r) rows) = map id rows.
Proof.
  intros Hf. rewrite map_map. apply map_ext. intros r.
  destruct (id r =? pid); [apply Hf | reflexivity].
Qed.

Lemma map_name_updated (pid : Z) (f : person_row -> person_row) (rows : list person_row) :
  (forall r, name (f r) = name r) ->
  map name (map (fun r => if id r =? pid then f r else r) rows) = map name rows.
Proof.
  intros Hf. rewrite map_map. apply map_ext. intros r.
  destruct (id r =? pid); [apply Hf | reflexivity].
Qed.

Lemma in_updated (pid : Z) (f : person_row -> person_row) (rows : list person_row)
    (r' : person_row) :
  In r' (map (fun r => if id r =? pid then f r else r) rows) ->
  exists r, In r rows /\ (r' = r \/ (id r = pid /\ r' = f r)).
Proof.
  intros H. apply in_map_iff in H. destruct H as [r [E Hr]].
  exists r. split; [exact Hr |].
  destruct (Z.eqb_spec (id r) pid); subst; auto.
Qed.

Lemma rename_conflict_false (pid : Z) (s : string) (rows : list person_row) :
  rename_conflict pid (Some s) rows = false ->
  (forall r, In r rows -> id r <> pid)
  \/ (forall r, In r rows -> id r <> pid -> name r <> s).
Proof.
  unfold rename_conflict. intros H. apply andb_false_iff in H.
  destruct H as [H|H].
  - left. intros r Hr E.
    assert (X : existsb (fun r => id r =? pid) rows = true)
      by (apply existsb_exists; exists r; split; [exact Hr | now apply Z.eqb_eq]).
    congruence.
  - right. intros r Hr Hid E.
    assert (X : existsb (fun r => negb (id r =? pid) && String.eqb (name r) s) rows
                = true).
    { apply existsb_exists. exists r. split; [exact Hr |].
      apply andb_true_iff. split.
      - now apply negb_true_iff, Z.eqb_neq.
      - now apply String.eqb_eq. }
    congruence.
Qed.

Lemma NoDup_names_renamed (pid : Z) (s : string) (m : option string)
    (rows : list person_row) :
  NoDup (map id rows) -> NoDup (map name rows) ->
  (forall r, In r rows -> id r <> pid -> name r <> s) ->
  NoDup (map name (map (fun r => if id r =? pid then apply_update (Some s) m r else r)
                       rows)).
Proof.
  induction rows as [|a rows IH]; simpl; intros Hid Hname Hfree; [constructor |].
  inversion Hid as [|x xs Hid1 Hid2]; subst.
  inversion Hname as [|x xs Hn1 Hn2]; subst.
  destruct (Z.eqb_spec (id a) pid) as [E|E].
  - rewrite map_unmatched.
    + simpl. constructor; [| exact Hn2].
      intros Hin. apply in_map_iff in Hin. destruct Hin as [r [Er Hr]].
      apply (Hfree r (or_intror Hr)); [| exact Er].
      intros Er'. apply Hid1. apply in_map_iff. exists r. split; [congruence | exact Hr].
    + intros r Hr Er. apply Hid1. apply in_map_iff. exists r.
      split; [congruence | exact Hr].
  - constructor; [| apply IH; auto].
    intros Hin. apply in_map_iff in Hin. destruct Hin as [r' [Er' Hr']].
    apply in_updated in Hr'. destruct Hr' as [r [Hr [-> | [Hrid ->]]]].
    + apply Hn1. apply in_map_iff. exists r. auto.
    + simpl in Er'. apply (Hfree a (or_introl eq_refl) E). congruence.
Qed.

Lemma keyed_init : keyed init_database.
Proof.
  unfold keyed, init_database; simpl.
  repeat split; try constructor; intros ? [].
Qed.

Lemma keyed_add_person (now : datetime) (n : string) (enc : Enc)
    (m : option Meta) (d : database) :
  keyed d -> keyed (snd (add_person now n enc m d)).
Proof.
  intros K. unfold add_person.
  destruct (existsb _ (persons d)) eqn:Ex; [exact K |].
  destruct K as [Kid [Kname [Kseq [Klid Klseq]]]].
  pose proof (next_rowid_above (persons_seq d) (map id (persons d))) as [Hs Hr].
  unfold keyed; simpl. rewrite !map_app; simpl.
  split; [| split; [| split; [| split]]]; auto.
  - apply NoDup_app; [exact Kid | repeat constructor; intros [] |].
    intros a Ha [<-|[]]. apply Hr in Ha. lia.
  - apply NoDup_app; [exact Kname | repeat constructor; intros [] |].
    intros a Ha [<-|[]]. apply in_map_iff in Ha. destruct Ha as [r [E Hin]].
    apply (proj1 (existsb_name_false _ _) Ex r Hin E).
  - intros r Hin. apply in_app_or in Hin. destruct Hin as [Hin|[<-|[]]]; simpl.
    + specialize (Kseq r Hin). lia.
    + lia.
Qed.

Lemma keyed_update_person (pid : Z) (n : option string) (m : option Meta)
    (d : database) :
  keyed d -> keyed (snd (update_person pid n m d)).
Proof.
  intros K. unfold update_person.
  destruct (name_update n) as [s|] eqn:En, (metadata_update m) as [t|] eqn:Em;
    try exact K;
    (match goal with
     | |- context [rename_conflict ?a ?b ?c] =>
         destruct (rename_conflict a b c) eqn:Ec
     end; [exact K |]);
    destruct K as [Kid [Kname [Kseq [Klid Klseq]]]];
    unfold keyed; simpl;
    (split; [rewrite map_id_updated by reflexivity; exact Kid |]);
    (split; [| split; [| split]]; auto);
    try (intros r' Hr'; apply in_updated in Hr';
         destruct Hr' as [r [Hr [-> | [_ ->]]]]; simpl; auto).
  - apply rename_conflict_false in Ec. destruct Ec as [Hno | Hfree].
    + rewrite map_unmatched by exact Hno. exact Kname.
    + now apply NoDup_names_renamed.
  - apply rename_conflict_false in Ec. destruct Ec as [Hno | Hfree].
    + rewrite map_unmatched by exact Hno. exact Kname.
    + now apply NoDup_names_renamed.
  - rewrite map_name_updated by reflexivity. exact Kname.
Qed.

Lemma keyed_delete_person (pid : Z) (d : database) :
  keyed d -> keyed (delete_person pid d).
Proof.
  intros [Kid [Kname [Kseq [Klid Klseq]]]]. unfold keyed, delete_person; simpl.
  split; [now apply NoDup_map_filter |].
  split; [now apply NoDup_map_filter |].
  split; [intros r Hr; apply filter_In in Hr; apply Kseq; tauto |].
  split; [now apply NoDup_map_filter |].
  intros l Hl. apply filter_In in Hl. apply Klseq. tauto.
Qed.

Lemma keyed_log_detection (now : datetime) (pid : Z) (conf : option R)
    (d : database) :
  keyed d -> keyed (log_detection now pid conf d).
Proof.
  intros [Kid [Kname [Kseq [Klid Klseq]]]].
  pose proof (next_rowid_above (logs_seq d) (map log_id (detection_logs d)))
    as [Hs Hr].
  unfold keyed, log_detection; simpl.
  split; [rewrite map_id_updated by reflexivity; exact Kid |].
  split; [rewrite map_name_updated by reflexivity; exact Kname |].
  split.
  { intros r' Hr'. apply in_updated in Hr'.
    destruct Hr' as [r [Hin [-> | [_ ->]]]]; simpl; auto. }
  rewrite map_app; simpl. split.
  - apply NoDup_app; [exact Klid | repeat constructor; intros [] |].
    intros a Ha [<-|[]]. apply Hr in Ha. lia.
  - intros l Hl. apply in_app_or in Hl. destruct Hl as [Hl|[<-|[]]]; simpl.
    + specialize (Klseq l Hl). lia.
    + lia.
Qed.

Lemma keyed_step (o : op) (d : database) : keyed d -> keyed (step o d).
Proof.
  destruct o; simpl.
  - apply keyed_add_person.
  - apply keyed_update_person.
  - apply keyed_delete_person.
  - apply keyed_log_detection.
Qed.

Lemma run_snoc (ops : list op) (o : op) (d : database) :
  run (ops ++ [o]) d = step o (run ops d).
Proof. unfold run. now rewrite fold_left_app. Qed.

Lemma keyed_run (ops : list op) (d : database) : keyed d -> keyed (run ops d).
Proof.
  intros K. induction ops as [|o ops IH] using rev_ind; [exact K |].
  rewrite run_snoc. now apply keyed_step.
Qed.

(** X1. Whatever calls of the write methods are made on a fresh database,
    succeeding or raising, no two stored persons share an id or a name, no
    two log rows share an id, and no rowid exceeds its table's counter. *)
Theorem store_keys_unique (ops : list op) : keyed (run ops init_database).
Proof. apply keyed_run, keyed_init. Qed.

(** *** Ids are not reused *)

Lemma persons_seq_step (o : op) (d : database) :
  persons_seq d <= persons_seq (step o d).
Proof.
  destruct o; simpl.
  - unfold add_person. destruct (existsb _ (persons d)); simpl; [lia |].
    pose proof (next_rowid_above (persons_seq d) (map id (persons d))) as [H _]. lia.
  - unfold update_person.
    destruct (name_update n), (metadata_update m); try (simpl; lia);
      match goal with
      | |- context [rename_conflict ?a ?b ?c] => destruct (rename_conflict a b c)
      end; simpl; lia.
  - simpl. lia.
  - simpl. lia.
Qed.

Lemma persons_seq_run (ops : list op) (d : database) :
  persons_seq d <= persons_seq (run ops d).
Proof.
  induction ops as [|o ops IH] using rev_ind; [simpl; lia |].
  rewrite run_snoc. pose proof (persons_seq_step o (run ops d)). lia.
Qed.

(** X2. An id, once handed out, is never handed out again: the id
    [add_person] returns is larger than the id of every person stored at
    any earlier moment, whether or not that person was deleted since. *)
Theorem add_person_id_never_reused
    (before later : list op) (now : datetime) (n : string) (enc : Enc)
    (m : option Meta) (pid : Z) :
  let earlier := run before init_database in
  let current := run later earlier in
  fst (add_person now n enc m current) = Ok pid ->
  forall r, In r (persons earlier) -> id r < pid.
Proof.
  intros earlier current Hadd r Hr.
  destruct (keyed_run before init_database keyed_init) as [_ [_ [Kseq _]]].
  fold earlier in Kseq. specialize (Kseq r Hr).
  pose proof (persons_seq_run later earlier) as Hmono. fold current in Hmono.
  unfold add_person in Hadd.
  destruct (existsb _ (persons current)); simpl in Hadd; [discriminate |].
  injection Hadd as <-.
  pose proof (next_rowid_above (persons_seq current) (map id (persons current)))
    as [H _]. lia.
Qed.

Lemma update_person_logs (pid : Z) (n : option string) (m : option Meta)
    (d : database) :
  detection_logs (snd (update_person pid n m d)) = detection_logs d.
Proof.
  unfold update_person.
  destruct (name_update n), (metadata_update m); try reflexivity;
    match goal with
    | |- context [rename_conflict ?a ?b ?c] => destruct (rename_conflict a b c)
    end; reflexivity.
Qed.

(** A row after [update_person] is a row from before with the same id,
    counter and [last_seen]. *)
Lemma update_person_rows (pid : Z) (n : option string) (m : option Meta)
    (d : database) (r' : person_row) :
  In r' (persons (snd (update_person pid n m d))) ->
  exists r, In r (persons d)
            /\ id r' = id r
            /\ total_detections r' = total_detections r
            /\ last_seen r' = last_seen r.
Proof.
  unfold update_person.
  destruct (name_update n), (metadata_update m);
    try (intros H; exists r'; now auto);
    (match goal with
     | |- context [rename_conflict ?a ?b ?c] => destruct (rename_conflict a b c)
     end; [intros H; exists r'; now auto |]);
    simpl; intros H; apply in_updated in H;
    destruct H as [r [Hr [-> | [_ ->]]]]; exists r; auto.
Qed.

(** *** Counters and log rows agree *)

Lemma in_updated_cases (pid : Z) (f : person_row -> person_row)
    (rows : list person_row) (r' : person_row) :
  In r' (map (fun r => if id r =? pid then f r else r) rows) ->
  exists r, In r rows /\ ((id r <> pid /\ r' = r) \/ (id r = pid /\ r' = f r)).
Proof.
  intros H. apply in_map_iff in H. destruct H as [r [E Hr]].
  exists r. split; [exact Hr |].
  destruct (Z.eqb_spec (id r) pid); subst; auto.
Qed.

Lemma newest_snoc (ls : list log_row) (l : log_row) :
  newest (ls ++ [l]) = Some (detection_time l).
Proof. unfold newest. now rewrite rev_unit. Qed.

Lemma logs_of_delete_other (pid other : Z) (d : database) :
  other <> pid -> logs_of other (delete_person pid d) = logs_of other d.
Proof.
  intros Hne. unfold logs_of, delete_person; simpl.
  induction (detection_logs d) as [|l ls IH]; simpl; [reflexivity |].
  destruct (references pid l) eqn:Ep; simpl.
  - apply references_iff in Ep.
    destruct (references other l) eqn:Eo; [| exact IH].
    apply references_iff in Eo. congruence.
  - now rewrite IH.
Qed.

Lemma logs_of_log_other (now : datetime) (pid other : Z) (conf : option R)
    (d : database) :
  other <> pid -> logs_of other (log_detection now pid conf d) = logs_of other d.
Proof.
  intros Hne. unfold logs_of, log_detection; simpl.
  rewrite filter_app; simpl. unfold references at 2; simpl.
  destruct (Z.eqb_spec pid other); [congruence |]. apply app_nil_r.
Qed.

Lemma logs_of_unissued (pid : Z) (d : database) :
  no_future d -> persons_seq d < pid -> logs_of pid d = [].
Proof.
  intros Hnf Hlt. destruct (logs_of pid d) as [|l ls] eqn:E; [reflexivity |].
  assert (Hin : In l (logs_of pid d)) by (rewrite E; now left).
  unfold logs_of in Hin. apply filter_In in Hin. destruct Hin as [Hin Hr].
  apply references_iff in Hr. specialize (Hnf l pid Hin Hr). lia.
Qed.

Lemma no_future_step (o : op) (d : database) :
  no_future d -> admissible o d -> no_future (step o d).
Proof.
  intros Hnf Ha l q Hl Hq.
  pose proof (persons_seq_step o d) as Hmono.
  destruct o; simpl in *.
  - unfold add_person in Hl. destruct (existsb _ (persons d)); simpl in Hl;
      specialize (Hnf l q Hl Hq); lia.
  - assert (Hlogs : detection_logs (snd (update_person pid n m d)) = detection_logs d)
      by apply update_person_logs.
    rewrite Hlogs in Hl. specialize (Hnf l q Hl Hq). lia.
  - apply filter_In in Hl. destruct Hl as [Hl _]. exact (Hnf l q Hl Hq).
  - apply in_app_or in Hl. destruct Hl as [Hl | [<- | []]].
    + exact (Hnf l q Hl Hq).
    + simpl in Hq. injection Hq as <-. exact Ha.
Qed.

Lemma counted_step (o : op) (d : database) :
  keyed d -> no_future d -> counted d -> counted (step o d).
Proof.
  intros K Hnf Hc. destruct o; simpl.
  - unfold add_person. destruct (existsb _ (persons d)); [exact Hc |].
    intros r Hr. simpl in Hr. unfold logs_of; simpl. fold (logs_of (id r) d).
    apply in_app_or in Hr. destruct Hr as [Hr | [<- | []]]; [now apply Hc |].
    simpl. rewrite logs_of_unissued; [split; reflexivity | exact Hnf |].
    pose proof (next_rowid_above (persons_seq d) (map id (persons d))) as [H _].
    exact H.
  - intros r' Hr'.
    assert (Hlogs : logs_of (id r') (snd (update_person pid n m d)) = logs_of (id r') d).
    { unfold logs_of. now rewrite update_person_logs. }
    rewrite Hlogs.
    destruct (update_person_rows pid n m d r' Hr') as [r [Hr [Hid [Ht Hs]]]].
    rewrite Hid, Ht, Hs. now apply Hc.
  - intros r Hr. unfold delete_person in Hr; simpl in Hr.
    apply filter_In in Hr. destruct Hr as [Hr Hne].
    apply negb_true_iff, Z.eqb_neq in Hne.
    rewrite logs_of_delete_other by exact Hne. now apply Hc.
  - intros r' Hr'. unfold log_detection in Hr'; simpl in Hr'.
    apply in_updated_cases in Hr'.
    destruct Hr' as [r [Hr [[Hne ->] | [He ->]]]].
    + rewrite logs_of_log_other by exact Hne. now apply Hc.
    + simpl. rewrite He.
      destruct (logs_of_log_detection now pid conf d) as [l [El [_ [Et _]]]].
      rewrite El, length_app, newest_snoc, Et. simpl.
      destruct (Hc r Hr) as [Hcount _]. rewrite He in Hcount.
      split; [lia | reflexivity].
Qed.

Lemma counted_run (ops : list op) (d : database) :
  keyed d -> no_future d -> counted d -> admissible_from ops d ->
  counted (run ops d).
Proof.
  revert d. induction ops as [|o ops IH]; intros d K Hnf Hc Ha; [exact Hc |].
  destruct Ha as [Ha Hrest]. simpl. apply IH; auto.
  - now apply keyed_step.
  - now apply no_future_step.
  - now apply counted_step.
Qed.

(** X3. The invariant of the data model holds along every run that starts
    from a fresh database and logs detections only for ids that were handed
    out: for each stored person, [total_detections] is the number of log
    rows that reference the person and [last_seen] is the [detection_time]
    of the newest of them, NULL when there is none.  Deleting persons and
    renaming them in between does not disturb it. *)
Theorem counters_match_log (ops : list op) :
  admissible_from ops init_database -> counted (run ops init_database).
Proof.
  apply counted_run.
  - exact keyed_init.
  - intros l pid [].
  - intros r [].
Qed.


(** *** What [update_person] does *)

Lemma find_updated (pid : Z) (f : person_row -> person_row)
    (rows : list person_row) (r : person_row) :
  (forall x, id (f x) = id x) ->
  find (fun x => id x =? pid) rows = Some r ->
  find (fun x => id x =? pid)
       (map (fun x => if id x =? pid then f x else x) rows) = Some (f r).
Proof.
  intros Hf. induction rows as [|a rows IH]; simpl; [discriminate |].
  destruct (Z.eqb_spec (id a) pid) as [E|E]; simpl.
  - rewrite Hf, E, Z.eqb_refl. now intros [= ->].
  - apply Z.eqb_neq in E. rewrite E. exact IH.
Qed.

Lemma apply_update_nothing (r : person_row) : apply_update None None r = r.
Proof. now destruct r. Qed.

(** X4. [update_person] on the id of a stored person.  If the call renames
    the person to a name some other person carries, it raises
    [IntegrityError] and the store is unchanged.  Otherwise it returns
    normally, and the person's row is the old one with the name replaced
    when a non-empty name was given, and the metadata text replaced by
    [json.dumps] of the metadata when one was given. *)
Theorem update_person_effect
    (pid : Z) (n : option string) (m : option Meta) (d : database)
    (r : person_row) :
  row_of pid d = Some r ->
  ((exists s other, name_update n = Some s /\ In other (persons d)
                    /\ id other <> pid /\ name other = s) ->
   update_person pid n m d = (Raise IntegrityError, d))
  /\
  ((forall s other, name_update n = Some s -> In other (persons d) ->
                    id other <> pid -> name other <> s) ->
   fst (update_person pid n m d) = Ok tt
   /\ row_of pid (snd (update_person pid n m d))
      = Some (apply_update (name_update n) (metadata_update m) r)).
Proof.
  intros Hrow. unfold row_of in Hrow.
  assert (Hhere : existsb (fun x => id x =? pid) (persons d) = true).
  { apply find_some in Hrow. apply existsb_exists. exists r. exact Hrow. }
  split.
  - intros [s [other [En [Hin [Hid Hname]]]]].
    unfold update_person. rewrite En.
    assert (Hc : rename_conflict pid (Some s) (persons d) = true).
    { unfold rename_conflict. rewrite Hhere. simpl.
      apply existsb_exists. exists other. split; [exact Hin |].
      apply andb_true_iff. split.
      - now apply negb_true_iff, Z.eqb_neq.
      - now apply String.eqb_eq. }
    rewrite Hc. now destruct (metadata_update m).
  - intros Hfree.
    assert (Hc : rename_conflict pid (name_update n) (persons d) = false).
    { destruct (name_update n) as [s|] eqn:En; [| reflexivity].
      unfold rename_conflict. rewrite Hhere. simpl.
      match goal with |- ?b = false => destruct b eqn:Ex end; [| reflexivity].
      apply existsb_exists in Ex. destruct Ex as [other [Hin Hb]].
      apply andb_true_iff in Hb. destruct Hb as [Hid Hname].
      apply negb_true_iff, Z.eqb_neq in Hid. apply String.eqb_eq in Hname.
      now elim (Hfree s other eq_refl Hin Hid). }
    unfold update_person, row_of.
    destruct (name_update n) as [s|] eqn:En, (metadata_update m) as [t|] eqn:Em;
      try rewrite Hc; simpl;
      try (split; [reflexivity |]; now apply find_updated).
    split; [reflexivity |]. now rewrite apply_update_nothing.
Qed.

(** *** [log_detection] and the rest of the store *)

(** X5. [log_detection] checks nothing: for an id no stored person has it
    still appends one log row, referencing that id, with the clock reading
    and the confidence, under a log id larger than every earlier one, and
    the persons table is left exactly as it was.  If no log row referenced
    the id before, [delete_person] on the id then removes that row again
    and both tables are back to what they were; only the counter of log
    ids has moved. *)
Theorem log_detection_unknown_id
    (now : datetime) (pid : Z) (conf : option R) (d : database) :
  (forall r, In r (persons d) -> id r <> pid) ->
  (exists l : log_row,
     log_detection now pid conf d
     = {| persons := persons d; persons_seq := persons_seq d;
          detection_logs := detection_logs d ++ [l]; logs_seq := log_id l |}
     /\ person_id l = Some pid
     /\ detection_time l = isoformat now
     /\ confidence l = conf
     /\ (forall older, In older (detection_logs d) -> log_id older < log_id l))
  /\ ((forall l, In l (detection_logs d) -> person_id l <> Some pid) ->
      persons (delete_person pid (log_detection now pid conf d)) = persons d
      /\ detection_logs (delete_person pid (log_detection now pid conf d))
         = detection_logs d).
Proof.
  intros Habsent. split.
  - exists {| log_id := next_rowid (logs_seq d) (map log_id (detection_logs d));
              person_id := Some pid; detection_time := isoformat now;
              confidence := conf |}.
    unfold log_detection.
    rewrite (map_unmatched pid _ (persons d) Habsent).
    split; [reflexivity |]. simpl. repeat (split; [reflexivity |]).
    intros older Hin.
    apply (proj2 (next_rowid_above (logs_seq d) (map log_id (detection_logs d)))).
    now apply in_map.
  - intros Hnone. unfold delete_person, log_detection; simpl.
    rewrite (map_unmatched pid _ (persons d) Habsent). split.
    + apply filter_all. intros r Hr. apply negb_true_iff, Z.eqb_neq. auto.
    + rewrite filter_app; simpl. unfold references at 2; simpl.
      rewrite Z.eqb_refl; simpl. rewrite app_nil_r.
      apply filter_all. intros l Hl. apply not_references_iff. auto.
Qed.

(** *** The read methods on stores written through the methods *)

Lemma decodable_step (RT : JsonRoundTrip Enc Meta) (o : op) (d : database) :
  decodable d -> decodable (step o d).
Proof.
  destruct o; simpl.
  - now apply add_person_decodable.
  - now apply update_person_decodable.
  - apply delete_person_decodable.
  - apply log_detection_decodable.
Qed.

Lemma decodable_run (RT : JsonRoundTrip Enc Meta) (ops : list op) (d : database) :
  decodable d -> decodable (run ops d).
Proof.
  intros H. induction ops as [|o ops IH] using rev_ind; [exact H |].
  rewrite run_snoc. now apply decodable_step.
Qed.


(** *** Rows that do not decode *)

Lemma decode_row_raises (r : person_row) (e : exn) :
  decode_row r = Raise e -> e = JSONDecodeError.
Proof.
  unfold decode_row.
  destruct (loads_encoding (face_encoding r)); [| now intros [= <-]].
  destruct (metadata r) as [text|]; [| discriminate].
  destruct (truthy text); [| discriminate].
  destruct (loads_metadata text); [discriminate | now intros [= <-]].
Qed.

Lemma for_each_raises {A B} (f : A -> result B) (xs : list A) (e : exn) :
  (forall x e', f x = Raise e' -> e' = e) ->
  (exists x, In x xs /\ f x = Raise e) ->
  for_each f xs = Raise e.
Proof.
  intros Honly. induction xs as [|a xs IH]; intros [x [Hin Hx]]; [contradiction |].
  simpl. destruct (f a) as [y|e'] eqn:Ea; simpl.
  - destruct Hin as [-> | Hin]; [congruence |].
    rewrite IH; [reflexivity | now exists x].
  - now rewrite (Honly a e' Ea).
Qed.

(** X7. A stored encoding that [json.loads] rejects is fatal to every
    listing: [get_all_persons] raises [JSONDecodeError] instead of
    returning the other persons, and [search_persons] does so for every
    query, of a length the engine accepts, whose pattern accepts the name
    of the damaged row. *)
Theorem undecodable_row_is_fatal (d : database) (r : person_row) :
  In r (persons d) ->
  loads_encoding (face_encoding r) = None ->
  get_all_persons d = Raise JSONDecodeError
  /\ (forall query,
        Z.of_nat (String.length query) + 2 <= like_pattern_limit ->
        like (String percent (query ++ String percent EmptyString)) (name r) = true ->
        search_persons query d = Raise JSONDecodeError).
Proof.
  intros Hin Hbad.
  assert (Hr : decode_row r = Raise JSONDecodeError)
    by (unfold decode_row; now rewrite Hbad).
  split.
  - unfold get_all_persons. apply for_each_raises.
    + intros x e'. apply decode_row_raises.
    + exists r. split; [| exact Hr].
      eapply Permutation_in; [apply SortLastSeenName.Permuted_sort | exact Hin].
  - intros query _ Hlike. unfold search_persons. apply for_each_raises.
    + intros x e'. apply decode_row_raises.
    + exists r. split; [| exact Hr].
      eapply Permutation_in; [apply SortName.Permuted_sort |].
      apply filter_In. auto.
Qed.

(** *** Lookup and listing agree *)

(** X10. On a store with distinct ids, looking a person up by id and
    finding the person in the full listing come to the same: when
    [get_all_persons] returns, [get_person_by_id] returns a person exactly
    if the listing contains that person under that id. *)
Theorem get_person_by_id_in_listing
    (d : database) (ps : list (person Enc Meta)) (pid : Z) (p : person Enc Meta) :
  NoDup (map id (persons d)) ->
  get_all_persons d = Ok ps ->
  (get_person_by_id pid d = Ok (Some p) <-> In p ps /\ p_id p = pid).
Proof.
  intros Hnd Hall. unfold get_all_persons in Hall.
  apply for_each_inv in Hall.
  pose proof (SortLastSeenName.Permuted_sort (persons d)) as P.
  unfold get_person_by_id. split.
  - destruct (find (fun r => id r =? pid) (persons d)) as [r|] eqn:Ef;
      [| discriminate].
    destruct (decode_row r) as [q|e] eqn:Er; simpl; [| discriminate].
    intros [= ->]. apply find_some in Ef. destruct Ef as [Hin Hid].
    apply Z.eqb_eq in Hid.
    destruct (Forall2_in_l _ _ _ r Hall (Permutation_in _ P Hin)) as [y [Hy Hd]].
    assert (y = p) by congruence. subst y.
    split; [exact Hy |].
    apply decode_row_decodes in Er. destruct Er as [Eid _]. congruence.
  - intros [Hin Hid].
    destruct (Forall2_in_r _ _ _ p Hall Hin) as [r [Hr Hd]].
    apply (Permutation_in _ (Permutation_sym P)) in Hr.
    pose proof (decode_row_decodes _ _ Hd) as [Eid _].
    destruct (find (fun r => id r =? pid) (persons d)) as [r0|] eqn:Ef.
    + apply find_some in Ef. destruct Ef as [Hin0 Hid0]. apply Z.eqb_eq in Hid0.
      assert (r0 = r).
      { apply (NoDup_map_same id (persons d)); auto. congruence. }
      subst r0. now rewrite Hd.
    + apply find_none with (x := r) in Ef; [| exact Hr].
      apply Z.eqb_neq in Ef. congruence.
Qed.

(** *** Bounds on the statistics *)

Lemma person_ids_length (ls : list log_row) :
  (List.length (person_ids ls) <= List.length ls)%nat.
Proof.
  unfold person_ids. induction ls as [|l ls IH]; simpl; [lia |].
  rewrite length_app. destruct (person_id l); simpl; lia.
Qed.

Lemma nodup_length_le (l : list Z) :
  (List.length (nodup Z.eq_dec l) <= List.length l)%nat.
Proof.
  induction l as [|a l IH]; simpl; [lia |].
  destruct (in_dec Z.eq_dec a l); simpl; lia.
Qed.

Lemma sum_counts_app (a b : list (string * Z)) :
  sum_counts (a ++ b) = sum_counts a + sum_counts b.
Proof. induction a as [|x a IH]; simpl; lia. Qed.

Lemma sum_counts_perm (a b : list (string * Z)) :
  Permutation a b -> sum_counts a = sum_counts b.
Proof. induction 1; simpl; lia. Qed.

Lemma sum_counts_nonneg (a : list (string * Z)) :
  (forall v, In v a -> 0 <= snd v) -> 0 <= sum_counts a.
Proof.
  induction a as [|x a IH]; simpl; intros H; [lia |].
  pose proof (H x (or_introl eq_refl)).
  assert (0 <= sum_counts a) by (apply IH; intros v Hv; apply H; now right). lia.
Qed.

Lemma filter_disjoint_length {A} (f g : A -> bool) (l : list A) :
  (forall x, In x l -> f x = true -> g x = false) ->
  List.length (filter (fun x => f x || g x) l)
  = (List.length (filter f l) + List.length (filter g l))%nat.
Proof.
  induction l as [|a l IH]; simpl; intros H; [reflexivity |].
  assert (IH' := IH (fun x Hx => H x (or_intror Hx))).
  destruct (f a) eqn:Ef; simpl.
  - rewrite (H a (or_introl eq_refl) Ef). simpl. now rewrite IH'.
  - destruct (g a); simpl; rewrite IH'; lia.
Qed.

(** The counts of [visit_counts] add up to the number of log rows that
    reference a listed person, when the persons have distinct ids. *)
Lemma visit_counts_total (ps : list person_row) (ls : list log_row) :
  NoDup (map id ps) ->
  sum_counts (visit_counts ps ls)
  = Z.of_nat (List.length
                (filter (fun l => existsb (fun p => references (id p) l) ps) ls)).
Proof.
  induction ps as [|a ps IH]; simpl; intros Hnd.
  - induction ls as [|l ls IHl]; simpl; [reflexivity | exact IHl].
  - inversion Hnd as [|x xs Hnotin Hnd']; subst.
    rewrite sum_counts_app, (IH Hnd').
    rewrite (filter_disjoint_length (references (id a))
               (fun l => existsb (fun p => references (id p) l) ps)).
    + rewrite Nat2Z.inj_add.
      destruct (0 <? Z.of_nat (List.length (filter (references (id a)) ls))) eqn:E;
        simpl; [lia |].
      apply Z.ltb_ge in E. lia.
    + intros l _ Hr. apply references_iff in Hr.
      destruct (existsb _ ps) eqn:Ex; [| reflexivity].
      apply existsb_exists in Ex. destruct Ex as [p [Hp Hrp]].
      apply references_iff in Hrp. elim Hnotin.
      apply in_map_iff. exists p. split; [congruence | exact Hp].
Qed.

(** X11. The three statistics are consistent with one another: the number
    of unique persons is at most the number of detections; each listed
    visitor has at least one and at most that many detections; and, on a
    store with distinct ids, the counts of the listed visitors add up to at
    most that number, so no detection counts for two visitors. *)
Theorem get_detection_stats_bounds (now : datetime) (days : Z) (d : database) :
  let s := get_detection_stats now days d in
  0 <= stat_unique_persons s <= stat_total_detections s
  /\ (forall nm c, In (nm, c) (stat_top_visitors s) ->
                   1 <= c <= stat_total_detections s)
  /\ (NoDup (map id (persons d)) ->
      sum_counts (stat_top_visitors s) <= stat_total_detections s).
Proof.
  intros s. unfold s, get_detection_stats; cbn [stat_unique_persons
    stat_total_detections stat_top_visitors].
  set (recent := filter (after (isoformat (minus_days now days))) (detection_logs d)).
  set (sorted := SortCount.sort (visit_counts (persons d) recent)).
  assert (Hperm : Permutation (visit_counts (persons d) recent) sorted)
    by apply SortCount.Permuted_sort.
  assert (Hpos : forall v, In v sorted -> 1 <= snd v <= Z.of_nat (List.length recent)).
  { intros [nm c] Hv. apply (Permutation_in _ (Permutation_sym Hperm)) in Hv.
    apply visit_counts_spec in Hv. destruct Hv as [p [_ [_ [-> Hc]]]]. simpl.
    pose proof (filter_length_le (references (id p)) recent). lia. }
  split; [| split].
  - pose proof (nodup_length_le (person_ids recent)).
    pose proof (person_ids_length recent). lia.
  - intros nm c Hin. apply in_firstn in Hin. exact (Hpos (nm, c) Hin).
  - intros Hnd.
    assert (Hsplit : sum_counts sorted
                     = sum_counts (firstn 5 sorted) + sum_counts (skipn 5 sorted)).
    { rewrite <- sum_counts_app. now rewrite firstn_skipn. }
    assert (Hrest : 0 <= sum_counts (skipn 5 sorted)).
    { apply sum_counts_nonneg. intros v Hv.
      assert (In v sorted).
      { rewrite <- (firstn_skipn 5 sorted). apply in_or_app. now right. }
      specialize (Hpos v H). lia. }
    rewrite <- (sum_counts_perm _ _ Hperm) in Hsplit.
    rewrite (visit_counts_total _ _ Hnd) in Hsplit.
    pose proof (filter_length_le
                  (fun l => existsb (fun p => references (id p) l) (persons d))
                  recent).
    lia.
Qed.

(** *** The figures [app.py] shows *)

Lemma fold_left_add (l : list Z) (a : Z) :
  fold_left Z.add l a = a + fold_right Z.add 0 l.
Proof.
  revert a. induction l as [|x l IH]; intros a; simpl; [lia |].
  rewrite IH. lia.
Qed.

Lemma sum_counts_visit_counts (ps : list person_row) (ls : list log_row) :
  sum_counts (visit_counts ps ls)
  = fold_right Z.add 0
      (map (fun p => Z.of_nat (List.length (filter (references (id p)) ls))) ps).
Proof.
  induction ps as [|a ps IH]; simpl; [reflexivity |].
  rewrite sum_counts_app, IH.
  destruct (0 <? Z.of_nat (List.length (filter (references (id a)) ls))) eqn:E;
    simpl; [lia |].
  apply Z.ltb_ge in E. lia.
Qed.

Lemma sum_totals_perm (a b : list person_row) :
  Permutation a b ->
  fold_right Z.add 0 (map total_detections a)
  = fold_right Z.add 0 (map total_detections b).
Proof. induction 1; simpl; lia. Qed.

Lemma decoded_totals (rows : list person_row) (ps : list (person Enc Meta)) :
  Forall2 (fun r p => decode_row r = Ok p) rows ps ->
  map p_total_detections ps = map total_detections rows.
Proof.
  induction 1 as [|r p rows ps Hd _ IH]; simpl; [reflexivity |].
  apply decode_row_decodes in Hd. destruct Hd as [_ [_ [_ [_ [_ [Ht _]]]]]].
  now rewrite Ht, IH.
Qed.

(** X12. The "Total Detections" figure of the application, the sum of the
    counters of all persons, is the number of log rows that reference a
    stored person, along every run from a fresh database that logs
    detections only for ids that were handed out; and the "Registered"
    figure is the number of person rows. *)
Theorem figures_shown (RT : JsonRoundTrip Enc Meta) (ops : list op) :
  admissible_from ops init_database ->
  let d := run ops init_database in
  total_detections_shown d
  = Ok (Z.of_nat
          (List.length
             (filter (fun l => existsb (fun p => references (id p) l) (persons d))
                     (detection_logs d))))
  /\ registered_shown d = Ok (Z.of_nat (List.length (persons d))).
Proof.
  intros Ha d.
  assert (K : keyed d) by (apply keyed_run, keyed_init).
  assert (C : counted d).
  { apply counted_run; auto; [exact keyed_init | intros l pid [] | intros r []]. }
  assert (Hdec : decodable d)
    by (apply decodable_run; [exact RT | exact init_database_decodable]).
  pose proof (SortLastSeenName.Permuted_sort (persons d)) as P.
  destruct (for_each_ok decode_row (SortLastSeenName.sort (persons d)))
    as [ps [E F]].
  { intros r Hr. apply Hdec. exact (Permutation_in _ (Permutation_sym P) Hr). }
  unfold total_detections_shown, registered_shown, get_all_persons.
  rewrite E. simpl. split.
  - f_equal. rewrite fold_left_add, (decoded_totals _ _ F).
    rewrite <- (sum_totals_perm _ _ P).
    destruct K as [Kid _].
    rewrite <- (visit_counts_total (persons d) (detection_logs d) Kid).
    rewrite sum_counts_visit_counts. simpl.
    f_equal. apply map_ext_in. intros r Hr.
    destruct (C r Hr) as [Hc _]. exact Hc.
  - do 2 f_equal. rewrite <- (Forall2_length F).
    symmetry. now apply Permutation_length.
Qed.

End RegistryFacts.

(* ===================================================================== *)
(** ** Facts about [np.argmin] and [np.argmax] *)
(* ===================================================================== *)

Section ArgFirst.

Context {A : Type} (better : A -> A -> bool).
Hypothesis better_irrefl : forall x, better x x = false.
Hypothesis better_trans :
  forall x y z, better x y = true -> better y z = true -> better x z = true.
Hypothesis better_cotrans :
  forall x y z, better x z = true -> better x y = true \/ better y z = true.

Lemma arg_from_spec (l pre : list A) (best_i : nat) (best : A) :
  nth_error pre best_i = Some best ->
  (forall j y, nth_error pre j = Some y -> better y best = false) ->
  (forall j y, (j < best_i)%nat -> nth_error pre j = Some y -> better best y = true) ->
  exists m,
    nth_error (pre ++ l) (arg_from better best_i best (List.length pre) l) = Some m
    /\ (forall j y, nth_error (pre ++ l) j = Some y -> better y m = false)
    /\ (forall j y, (j < arg_from better best_i best (List.length pre) l)%nat ->
                    nth_error (pre ++ l) j = Some y -> better m y = true).
Proof.
  revert pre best_i best.
  induction l as [|x l IH]; intros pre best_i best Hb Hmin Hfirst; simpl.
  - rewrite app_nil_r. exists best. auto.
  - assert (Hlt : (best_i < List.length pre)%nat).
    { apply nth_error_Some. congruence. }
    assert (Hsplit : pre ++ x :: l = (pre ++ [x]) ++ l)
      by (rewrite <- app_assoc; reflexivity).
    assert (Hlen : S (List.length pre) = List.length (pre ++ [x]))
      by (rewrite length_app; simpl; lia).
    rewrite Hsplit, Hlen.
    destruct (better x best) eqn:Hx.
    + apply IH.
      * rewrite nth_error_app2, Nat.sub_diag by lia. reflexivity.
      * intros j y Hj.
        destruct (Nat.lt_ge_cases j (List.length pre)) as [L|G].
        -- rewrite nth_error_app1 in Hj by exact L.
           destruct (better y x) eqn:Hyx; [|reflexivity].
           pose proof (better_trans _ _ _ Hyx Hx) as T.
           rewrite (Hmin j y Hj) in T. discriminate.
        -- rewrite nth_error_app2 in Hj by exact G.
           destruct (j - List.length pre)%nat as [|k]; simpl in Hj.
           ++ injection Hj as <-. apply better_irrefl.
           ++ now destruct k.
      * intros j y L Hj. rewrite nth_error_app1 in Hj by exact L.
        destruct (better_cotrans x y best Hx) as [H|H]; [exact H |].
        now rewrite (Hmin j y Hj) in H.
    + apply IH.
      * rewrite nth_error_app1 by exact Hlt. exact Hb.
      * intros j y Hj.
        destruct (Nat.lt_ge_cases j (List.length pre)) as [L|G].
        -- rewrite nth_error_app1 in Hj by exact L. exact (Hmin j y Hj).
        -- rewrite nth_error_app2 in Hj by exact G.
           destruct (j - List.length pre)%nat as [|k]; simpl in Hj.
           ++ injection Hj as <-. exact Hx.
           ++ now destruct k.
      * intros j y L Hj.
        rewrite nth_error_app1 in Hj by lia. exact (Hfirst j y L Hj).
Qed.

(** On a non-empty list [arg_first] is the index of an element no other
    element beats and that beats every element before it. *)
Lemma arg_first_spec (l : list A) :
  l <> [] ->
  exists m,
    nth_error l (arg_first better l) = Some m
    /\ (forall j y, nth_error l j = Some y -> better y m = false)
    /\ (forall j y, (j < arg_first better l)%nat ->
                    nth_error l j = Some y -> better m y = true).
Proof.
  destruct l as [|x l]; [congruence | intros _].
  unfold arg_first.
  apply (arg_from_spec l [x] O x).
  - reflexivity.
  - intros [|j] y Hj; simpl in Hj.
    + injection Hj as <-. apply better_irrefl.
    + now destruct j.
  - intros j y L. lia.
Qed.

End ArgFirst.

Lemma Rltb_true (x y : R) : Rltb x y = true <-> (x < y)%R.
Proof. unfold Rltb. destruct (Rlt_dec x y); split; auto; discriminate. Qed.

Lemma Rltb_false (x y : R) : Rltb x y = false <-> (y <= x)%R.
Proof.
  unfold Rltb. destruct (Rlt_dec x y); split; try discriminate; try lra; auto.
Qed.

Lemma Rleb_true (x y : R) : Rleb x y = true <-> (x <= y)%R.
Proof. unfold Rleb. destruct (Rle_dec x y); split; auto; discriminate. Qed.

Lemma Rleb_false (x y : R) : Rleb x y = false <-> (y < x)%R.
Proof.
  unfold Rleb. destruct (Rle_dec x y); split; try discriminate; try lra; auto.
Qed.

(** [np.argmin] on a non-empty array: the least value, at its first index. *)
Lemma argmin_spec (l : list R) :
  l <> [] ->
  exists m,
    nth_error l (argmin l) = Some m
    /\ (forall j y, nth_error l j = Some y -> (m <= y)%R)
    /\ (forall j y, (j < argmin l)%nat -> nth_error l j = Some y -> (m < y)%R).
Proof.
  intros H. destruct (arg_first_spec Rltb) with (l := l) as [m [E [Hmin Hfirst]]].
  - intros x. apply Rltb_false. lra.
  - intros x y z. rewrite !Rltb_true. lra.
  - intros x y z. rewrite !Rltb_true.
    destruct (Rlt_dec x y); [now left | right; lra].
  - exact H.
  - exists m. split; [exact E |]. split.
    + intros j y Hj. apply Rltb_false. exact (Hmin j y Hj).
    + intros j y L Hj. apply Rltb_true. exact (Hfirst j y L Hj).
Qed.


(* ===================================================================== *)
(** ** Facts about the frame arithmetic *)
(* ===================================================================== *)

Section FloatFacts.
Context {float64 : Float64}.
Hypothesis B64 : Binary64 float64.

Lemma two_pow_53 : (2 ^ 53 = 9007199254740992)%R.
Proof. lra. Qed.

(** Magnitudes the frame arithmetic stays within are rounded with the
    relative error of binary64. *)
Lemma within_normal_range (x : R) :
  (/ 2 ^ 21 <= x <= 2 ^ 41)%R -> (/ 2 ^ 1000 <= Rabs x <= 2 ^ 1000)%R.
Proof.
  intros [L U].
  assert (P21 : (0 < 2 ^ 21)%R) by (apply pow_lt; lra).
  assert (H1 : (2 ^ 21 <= 2 ^ 1000)%R) by (apply Rle_pow; [lra | lia]).
  assert (H2 : (2 ^ 41 <= 2 ^ 1000)%R) by (apply Rle_pow; [lra | lia]).
  assert (Hx : (0 < x)%R).
  { apply Rlt_le_trans with (/ 2 ^ 21)%R; [| exact L]. now apply Rinv_0_lt_compat. }
  rewrite Rabs_right by lra. split; [| lra].
  apply Rle_trans with (/ 2 ^ 21)%R; [| exact L].
  apply Rinv_le_contravar; [exact P21 | exact H1].
Qed.


Lemma Rabs_bound (a b : R) : (Rabs a <= b -> - b <= a <= b)%R.
Proof. unfold Rabs. destruct (Rcase_abs a); lra. Qed.

(** The compound error of two roundings. *)
Lemma two_roundings (d1 d2 : R) :
  (Rabs d1 <= / 2 ^ 53 -> Rabs d2 <= / 2 ^ 53 ->
   Rabs ((1 + d1) * (1 + d2) - 1) <= 3 * / 2 ^ 53)%R.
Proof.
  intros H1 H2.
  assert (U : (0 < / 2 ^ 53 <= 1)%R) by (rewrite two_pow_53; lra).
  set (u := (/ 2 ^ 53)%R) in *.
  apply Rabs_bound in H1, H2. apply Rabs_le.
  assert (P : (- (u * u) <= d1 * d2 <= u * u)%R) by nra.
  assert (Q : (u * u <= u)%R) by nra.
  lra.
Qed.

(** [int(a * (num / den))] under the error bound of binary64. *)
Lemma int_of_scaled (a num den : Z) :
  moderate a -> 0 < num < 2 ^ 20 -> 0 < den < 2 ^ 20 ->
  scaled a num den (int_of (fmul (of_int a) (fdiv (of_int num) (of_int den)))).
Proof.
  unfold moderate. change (2 ^ 20) with 1048576.
  intros Ha Hnum Hden.
  destruct B64 as [Hint [Hmul [Hdiv Htrunc]]].
  assert (Ea : real (of_int a) = IZR a) by (apply Hint; change (2 ^ 53) with 9007199254740992; lia).
  assert (En : real (of_int num) = IZR num) by (apply Hint; change (2 ^ 53) with 9007199254740992; lia).
  assert (Ed : real (of_int den) = IZR den) by (apply Hint; change (2 ^ 53) with 9007199254740992; lia).
  set (A := IZR a) in *. set (N := IZR num) in *. set (D := IZR den) in *.
  assert (RA : (0 <= A <= 1048575)%R)
    by (split; apply IZR_le; lia).
  assert (RN : (1 <= N <= 1048575)%R)
    by (split; apply IZR_le; lia).
  assert (RD : (1 <= D <= 1048575)%R)
    by (split; apply IZR_le; lia).
  assert (U : (/ 2 ^ 53 = / 9007199254740992)%R) by (now rewrite two_pow_53).
  (* the scale factor *)
  set (sf := fdiv (of_int num) (of_int den)).
  assert (HND : (/ 1048575 <= N / D <= 1048575)%R).
  { unfold Rdiv. split.
    - apply Rle_trans with (1 * / D)%R.
      + rewrite Rmult_1_l. apply Rinv_le_contravar; lra.
      + apply Rmult_le_compat_r; [| lra].
        apply Rlt_le, Rinv_0_lt_compat. lra.
    - apply Rle_trans with (N * 1)%R; [| lra].
      apply Rmult_le_compat_l; [lra |].
      rewrite <- Rinv_1. apply Rinv_le_contravar; lra. }
  destruct (Hdiv (of_int num) (of_int den)) as [d1 [Hd1 Esf]].
  { rewrite Ed. lra. }
  { right. rewrite En, Ed. apply within_normal_range.
    assert ((2 ^ 21 = 2097152)%R) by lra. assert ((2 ^ 41 = 2199023255552)%R) by lra.
    lra. }
  fold sf in Esf. rewrite En, Ed in Esf.
  rewrite U in Hd1. pose proof (Rabs_bound _ _ Hd1) as Bd1.
  assert (HS : (/ 2097152 <= real sf <= 2097152)%R).
  { rewrite Esf. split; nra. }
  (* the product *)
  destruct (Hmul (of_int a) sf) as [d2 [Hd2 Ex]].
  { rewrite Ea. destruct (Z.eq_dec a 0) as [->|Hnz].
    - left. unfold A. simpl. lra.
    - right. apply within_normal_range.
      assert (RA1 : (1 <= A)%R) by (apply IZR_le; lia).
      assert ((2 ^ 21 = 2097152)%R) by lra. assert ((2 ^ 41 = 2199023255552)%R) by lra.
      split; nra. }
  rewrite Ea in Ex. set (x := real (fmul (of_int a) sf)) in *.
  pose proof (two_roundings d1 d2) as He.
  rewrite U in *. specialize (He Hd1 Hd2).
  apply Rabs_bound in He. pose proof (Rabs_bound _ _ Hd2) as Bd2.
  set (e := ((1 + d1) * (1 + d2) - 1)%R) in *.
  assert (Ey : (D * x = A * N * (1 + e))%R).
  { rewrite Ex, Esf. unfold e. field. lra. }
  assert (Hx0 : (0 <= x)%R).
  { rewrite Ex. apply Rmult_le_pos; [apply Rmult_le_pos; lra | lra]. }
  destruct (Htrunc (fmul (of_int a) sf)) as [Hn _]. fold x in Hn.
  specialize (Hn Hx0). set (n := int_of (fmul (of_int a) sf)) in *.
  (* the quotient *)
  pose proof (Z.div_mod (a * num) den ltac:(lia)) as Hqr.
  pose proof (Z.mod_pos_bound (a * num) den ltac:(lia)) as Hr.
  set (q := a * num / den) in *. set (r := (a * num) mod den) in *.
  assert (EAN : (A * N = D * IZR q + IZR r)%R).
  { unfold A, N, D. rewrite <- !mult_IZR, <- plus_IZR. now f_equal. }
  assert (HAN : (0 <= A * N <= 1048575 * 1048575)%R) by (split; nra).
  assert (Hdist : (- / 2 < D * x - A * N < / 2)%R).
  { rewrite Ey. split; nra. }
  assert (Hup : den * n <= den * q + r).
  { assert (H : (2 * (D * IZR n) < 2 * (D * IZR q + IZR r) + 1)%R) by nra.
    assert (H' : 2 * (den * n) < 2 * (den * q + r) + 1).
    { apply lt_IZR. rewrite plus_IZR, !mult_IZR, plus_IZR, mult_IZR.
      fold D. exact H. }
    lia. }
  assert (Hlo : den * q + r <= den * (n + 1)).
  { assert (H : (2 * (D * IZR q + IZR r) < 2 * (D * (IZR n + 1)) + 1)%R) by nra.
    assert (H' : 2 * (den * q + r) < 2 * (den * (n + 1)) + 1).
    { apply lt_IZR. rewrite plus_IZR, !mult_IZR, !plus_IZR, mult_IZR.
      fold D. exact H. }
    lia. }
  unfold scaled. fold q r.
  assert (Hnq : n <= q) by nia.
  destruct (Z.eq_dec r 0) as [Hr0|Hr0].
  - assert (Hqn : q - 1 <= n) by nia.
    destruct (Z.eq_dec n q) as [E|E]; [now left |].
    right. split; [exact Hr0 |]. split; [| lia].
    destruct (Z.eq_dec a 0) as [Ha0|Ha0]; [| lia].
    exfalso. subst a. unfold A in Ex. rewrite Rmult_0_l, Rmult_0_l in Ex.
    rewrite Ex in Hn.
    assert (n = 0).
    { assert (n < 1) by (apply lt_IZR; lra).
      assert (-1 < n) by (apply lt_IZR; lra). lia. }
    assert (q = 0) by (unfold q; reflexivity). lia.
  - left. nia.
Qed.

(** Scaling up by [width / 800] moves no coordinate towards the origin and
    keeps two coordinates in their order. *)
Lemma scaled_grows (width c c' : Z) :
  800 < width -> 0 <= c -> scaled c width 800 c' -> c <= c'.
Proof.
  intros Hw Hc.
  pose proof (Z.div_mod (c * width) 800 ltac:(lia)) as Hqr.
  pose proof (Z.mod_pos_bound (c * width) 800 ltac:(lia)) as Hr.
  intros [-> | [H0 [Hpos ->]]]; nia.
Qed.

Lemma scaled_ordered (width a b a' b' : Z) :
  800 < width -> 0 <= a -> a < b ->
  scaled a width 800 a' -> scaled b width 800 b' -> a' <= b'.
Proof.
  intros Hw Ha Hab.
  pose proof (Z.div_mod (a * width) 800 ltac:(lia)) as Hqa.
  pose proof (Z.mod_pos_bound (a * width) 800 ltac:(lia)) as Hra.
  pose proof (Z.div_mod (b * width) 800 ltac:(lia)) as Hqb.
  pose proof (Z.mod_pos_bound (b * width) 800 ltac:(lia)) as Hrb.
  intros [-> | [_ [_ ->]]] [-> | [_ [_ ->]]]; nia.
Qed.

End FloatFacts.


(* ===================================================================== *)
(** ** Facts about the matcher *)
(* ===================================================================== *)

Section MatcherFacts.

Context {image Enc Meta datetime : Type}.
Context {json : Json Enc Meta} {clock : Clock datetime}.
Context {vision : Vision image Enc} {float64 : Float64}.

Lemma existsb_matches (known : list Enc) (candidate : Enc) (tol : R) :
  existsb (fun b => b) (compare_faces known candidate tol) = true <->
  exists k, In k known /\ (norm_diff (coords k) (coords candidate) <= tol)%R.
Proof.
  unfold compare_faces, face_distance. rewrite existsb_exists. split.
  - intros [b [Hb ->]]. rewrite map_map in Hb. apply in_map_iff in Hb.
    destruct Hb as [k [E Hk]]. exists k. split; [exact Hk |].
    now apply Rleb_true.
  - intros [k [Hk L]]. exists true. split; [|reflexivity].
    rewrite map_map. apply in_map_iff. exists k. split; [|exact Hk].
    now apply Rleb_true.
Qed.

(** One face: [recognize_face] returns, and what it returns is the entry
    [recognized_as] describes. *)
Lemma recognize_face_spec (s : matcher Enc) (width : Z) (loc : box)
    (candidate : Enc) :
  parallel s ->
  exists r, recognize_face s width loc candidate = Ok r
            /\ recognized_as s candidate r.
Proof.
  intros [Hnames Hids]. unfold recognize_face.
  set (loc' := if 800 <? width then scale_back width loc else loc).
  set (unknown := {| location := loc'; r_name := "Unknown";
                     r_person_id := None; r_confidence := 0%R |}).
  destruct (known_face_encodings s) as [|k0 known0] eqn:Eknown.
  - exists unknown. split; [reflexivity |]. right.
    rewrite Eknown. split; [intros k [] | auto].
  - rewrite <- Eknown in Hnames, Hids |- *.
    set (known := known_face_encodings s) in *.
    destruct (existsb (fun b => b) (compare_faces known candidate tolerance)) eqn:Eany.
    + apply existsb_matches in Eany. destruct Eany as [kw [Hkw Lw]].
      destruct (argmin_spec (face_distance known candidate)) as [m [Em [Hmin Hfirst]]].
      { unfold face_distance. rewrite Eknown. discriminate. }
      set (i := argmin (face_distance known candidate)) in *.
      assert (Hi : (i < List.length known)%nat).
      { unfold face_distance in Em.
        rewrite <- (length_map (fun k => norm_diff (coords k) (coords candidate))).
        apply nth_error_Some. congruence. }
      destruct (nth_error known i) as [k|] eqn:Ek;
        [| apply nth_error_None in Ek; lia].
      assert (Emk : m = norm_diff (coords k) (coords candidate)).
      { unfold face_distance in Em. rewrite nth_error_map, Ek in Em.
        simpl in Em. congruence. }
      assert (Hall : forall k', In k' known ->
                       (m <= norm_diff (coords k') (coords candidate))%R).
      { intros k' Hk'. apply In_nth_error in Hk'. destruct Hk' as [j Hj].
        apply (Hmin j). unfold face_distance. now rewrite nth_error_map, Hj. }
      assert (Lm : (m <= tolerance)%R).
      { specialize (Hall kw Hkw). lra. }
      assert (Ematch : nth_error (compare_faces known candidate tolerance) i = Some true).
      { unfold compare_faces. rewrite nth_error_map, Em. simpl.
        f_equal. now apply Rleb_true. }
      rewrite Ematch.
      destruct (nth_error (known_face_names s) i) as [n|] eqn:En;
        [| apply nth_error_None in En; lia].
      destruct (nth_error (known_face_ids s) i) as [pid|] eqn:Eid;
        [| apply nth_error_None in Eid; lia].
      rewrite Em.
      eexists. split; [reflexivity |]. left.
      exists i, k, n, pid. simpl. rewrite <- Emk.
      repeat (split; [assumption || reflexivity |]).
      split; [| auto].
      intros j k' L Hj. apply (Hfirst j); [exact L |].
      unfold face_distance. rewrite nth_error_map.
      fold known in Hj. now rewrite Hj.
    + exists unknown. split; [reflexivity |]. right.
      split; [| auto].
      intros k Hk.
      destruct (Rle_dec (norm_diff (coords k) (coords candidate)) tolerance) as [L|G];
        [| lra].
      assert (X : existsb (fun b => b) (compare_faces known candidate tolerance) = true).
      { apply existsb_matches. exists k. auto. }
      congruence.
Qed.

(** C1, as the code has it.  For every frame and every projection whose
    three sequences run in parallel, [recognize_faces] returns one entry
    per detected face, in order, and the entry of a face is decided by the
    Euclidean distances from its encoding to the known encodings: if some
    distance is at most 0.6 (the bound is included), the entry names the
    known person at the least distance, the first such on a tie, with
    confidence one minus that distance; if every distance exceeds 0.6, and
    so when the projection is empty, the entry is "Unknown" with no person
    id and confidence 0. *)
Theorem recognize_faces_spec (s : matcher Enc) (frame : image)
    (encodings : list Enc) :
  parallel s ->
  let locations := face_locations (working_frame frame) (model s) in
  face_encodings (working_frame frame) locations = Ok encodings ->
  exists rs : list recognized_face,
    recognize_faces s frame = Ok rs
    /\ Forall2 (fun face r => recognized_as s (snd face) r)
               (combine locations encodings) rs.
Proof.
  intros Hpar locations Henc. unfold recognize_faces.
  destruct (shape (cvtColor_BGR2RGB frame)) as [height width].
  fold locations. rewrite Henc. simpl.
  destruct (for_each_ok
              (fun face => recognize_face s width (fst face) (snd face))
              (combine locations encodings)) as [rs [E F]].
  - intros [loc candidate] _.
    destruct (recognize_face_spec s width loc candidate Hpar) as [r [Hr _]].
    now exists r.
  - exists rs. split; [exact E |].
    eapply Forall2_impl; [|exact F].
    intros [loc candidate] r Hr. simpl in *.
    destruct (recognize_face_spec s width loc candidate Hpar) as [r' [Hr' Hspec]].
    congruence.
Qed.

(** *** [register_new_face] *)

Lemma add_person_raise (now : datetime) (n : string) (enc : Enc)
    (m : option Meta) (d d' : database) (e : exn) :
  add_person now n enc m d = (Raise e, d') -> d' = d.
Proof.
  unfold add_person.
  destruct (existsb _ (persons d)); [now intros [= _ <-] | discriminate].
Qed.




(** C10. Whenever [register_new_face] returns [False] the projection, and
    the database with it, is what it was before the call.  That is the
    outcome when a face was found but the embedding extraction raises or
    yields nothing, and when [add_person] raises, as it does on a
    duplicate name: nothing is appended. *)
Theorem register_new_face_failure (now : datetime) (frame : image) (n : string)
    (m : option Meta) (s : matcher Enc) (d : database) :
  let rgb_frame := working_frame frame in
  let locations := face_locations rgb_frame (model s) in
  (fst (register_new_face now frame n m s d) = false ->
   snd (register_new_face now frame n m s d) = (s, d))
  /\
  (forall best,
     locations <> [] ->
     nth_error locations (argmax (map face_size locations)) = Some best ->
     (forall e, face_encodings rgb_frame [best] = Raise e ->
                register_new_face now frame n m s d = (false, (s, d)))
     /\ (face_encodings rgb_frame [best] = Ok [] ->
         register_new_face now frame n m s d = (false, (s, d)))
     /\ (forall enc rest e d',
           face_encodings rgb_frame [best] = Ok (enc :: rest) ->
           add_person now n enc m d = (Raise e, d') ->
           register_new_face now frame n m s d = (false, (s, d)))).
Proof.
  intros rgb_frame locations. split.
  - unfold register_new_face. fold rgb_frame. fold locations.
    destruct locations as [|b0 bs]; [reflexivity |].
    destruct (nth_error _ _) as [best|]; [|reflexivity].
    destruct (face_encodings rgb_frame [best]) as [[|enc rest]|e];
      try reflexivity.
    destruct (add_person now n enc m d) as [[pid|e] d'] eqn:Hadd.
    + discriminate.
    + intros _. simpl. now rewrite (add_person_raise _ _ _ _ _ _ _ Hadd).
  - intros best Hne Eb.
    unfold register_new_face. fold rgb_frame. fold locations.
    destruct locations as [|b0 bs] eqn:El; [congruence |].
    rewrite <- El in *. rewrite Eb.
    split; [| split].
    + intros e ->. reflexivity.
    + intros ->. reflexivity.
    + intros enc rest e d' -> Hadd. rewrite Hadd.
      now rewrite (add_person_raise _ _ _ _ _ _ _ Hadd).
Qed.

(** *** The projection stays parallel *)

Lemma delete_person_rows (pid : Z) (d : database) :
  (forall r, In r (persons (delete_person pid d)) -> id r <> pid)
  /\ (forall l, In l (detection_logs (delete_person pid d)) ->
                person_id l <> Some pid).
Proof.
  unfold delete_person; simpl. split.
  - intros r Hr. apply filter_In in Hr. destruct Hr as [_ Hr].
    now apply negb_true_iff, Z.eqb_neq in Hr.
  - intros l Hl. apply filter_In in Hl. destruct Hl as [_ Hl].
    now apply not_references_iff in Hl.
Qed.

Lemma load_known_faces_parallel (s s' : matcher Enc) (d : database) :
  load_known_faces s d = Ok s' -> parallel s'.
Proof.
  unfold load_known_faces.
  destruct (get_all_persons d) as [ps|e]; simpl; [|discriminate].
  intros [= <-]. unfold parallel; simpl. now rewrite !length_map.
Qed.

Lemma register_new_face_parallel (now : datetime) (frame : image) (n : string)
    (m : option Meta) (s : matcher Enc) (d : database) :
  parallel s -> parallel (fst (snd (register_new_face now frame n m s d))).
Proof.
  intros [Hn Hi]. unfold register_new_face.
  destruct (face_locations _ _) as [|b0 bs]; [now split |].
  destruct (nth_error _ _) as [best|]; [| now split].
  destruct (face_encodings _ [best]) as [[|enc rest]|e]; try now split.
  destruct (add_person now n enc m d) as [[pid|e] d']; [| now split].
  unfold parallel; simpl. rewrite !length_app; simpl. lia.
Qed.

(** *** The shape of an entry *)

(** An entry [recognize_face] returns is the unknown entry or the entry of
    a known face whose distance passed the tolerance test. *)
Lemma recognize_face_entry (s : matcher Enc) (width : Z) (loc : box)
    (candidate : Enc) (r : recognized_face) :
  recognize_face s width loc candidate = Ok r ->
  location r = (if 800 <? width then scale_back width loc else loc)
  /\ ((r_name r = "Unknown" /\ r_person_id r = None /\ r_confidence r = 0%R)
      \/ exists (i : nat) (k : Enc) (n : string) (pid : Z),
           nth_error (known_face_encodings s) i = Some k
           /\ nth_error (known_face_names s) i = Some n
           /\ nth_error (known_face_ids s) i = Some pid
           /\ (norm_diff (coords k) (coords candidate) <= tolerance)%R
           /\ r_name r = n
           /\ r_person_id r = Some pid
           /\ r_confidence r = (1 - norm_diff (coords k) (coords candidate))%R).
Proof.
  unfold recognize_face.
  set (loc' := if 800 <? width then scale_back width loc else loc).
  destruct (known_face_encodings s) as [|k0 known0] eqn:Eknown.
  { intros [= <-]. simpl. auto. }
  rewrite <- Eknown. set (known := known_face_encodings s).
  destruct (existsb (fun b => b) (compare_faces known candidate tolerance));
    [| intros [= <-]; simpl; now auto].
  set (i := argmin (face_distance known candidate)).
  destruct (nth_error (compare_faces known candidate tolerance) i) as [[|]|] eqn:Em;
    [| intros [= <-]; simpl; now auto | discriminate].
  destruct (nth_error (known_face_names s) i) as [n|] eqn:En; [| discriminate].
  destruct (nth_error (known_face_ids s) i) as [pid|] eqn:Ei; [| discriminate].
  destruct (nth_error (face_distance known candidate) i) as [dist|] eqn:Ed;
    [| discriminate].
  intros [= <-]. simpl. split; [reflexivity |]. right.
  unfold face_distance in Ed. rewrite nth_error_map in Ed.
  destruct (nth_error known i) as [k|] eqn:Ek; [| discriminate].
  simpl in Ed. injection Ed as <-.
  unfold compare_faces, face_distance in Em.
  rewrite !nth_error_map, Ek in Em. simpl in Em. injection Em as Em.
  apply Rleb_true in Em.
  exists i, k, n, pid. auto 10.
Qed.

Lemma recognize_faces_entries (s : matcher Enc) (frame : image)
    (rs : list recognized_face) :
  recognize_faces s frame = Ok rs ->
  exists encodings,
    face_encodings (working_frame frame)
      (face_locations (working_frame frame) (model s)) = Ok encodings
    /\ Forall2 (fun face r =>
                  recognize_face s (snd (shape (cvtColor_BGR2RGB frame)))
                    (fst face) (snd face) = Ok r)
               (combine (face_locations (working_frame frame) (model s)) encodings)
               rs.
Proof.
  unfold recognize_faces.
  destruct (shape (cvtColor_BGR2RGB frame)) as [height width]. simpl.
  destruct (face_encodings _ _) as [encodings|e]; simpl; [| discriminate].
  intros H. exists encodings. split; [reflexivity |].
  now apply for_each_inv.
Qed.

(** *** [detect_faces] *)

(** One coordinate scaled back, under the error bound of binary64. *)
Lemma scale_back_coordinate (width c : Z) :
  Binary64 float64 -> 800 < width < 2 ^ 20 -> moderate c ->
  let c' := int_of (fmul (of_int c) (fdiv (of_int width) (of_int 800))) in
  scaled c width 800 c' /\ c <= c'.
Proof.
  intros B64 Hw Hc c'.
  assert (Hs : scaled c width 800 c').
  { apply (int_of_scaled B64); [exact Hc | lia |].
    change (2 ^ 20) with 1048576. lia. }
  split; [exact Hs |].
  apply (scaled_grows width c c'); [lia | apply Hc | exact Hs].
Qed.

Lemma scale_back_order (width a b : Z) :
  Binary64 float64 -> 800 < width < 2 ^ 20 -> moderate a -> moderate b ->
  a <= b ->
  int_of (fmul (of_int a) (fdiv (of_int width) (of_int 800)))
  <= int_of (fmul (of_int b) (fdiv (of_int width) (of_int 800))).
Proof.
  intros B64 Hw Ha Hb Hab.
  destruct (Z.eq_dec a b) as [->|Hne]; [lia |].
  apply (scaled_ordered width a b); try lia; [apply Ha | |];
    now apply scale_back_coordinate.
Qed.

(** X13. [detect_faces] returns one box per location the detector finds.
    A frame at most 800 pixels wide goes to the detector unresized and the
    boxes come back as found.  A wider frame goes to the detector resized
    to 800 columns and [int(height * (800 / width))] rows, and every
    coordinate [c] of a box found there comes back as
    [int(c * (width / 800))].  With the error bound of binary64, and for
    sizes below [2^20], these integers are the quotients of [height * 800]
    by [width] and of [c * width] by 800, or one less than the quotient
    when the division leaves no remainder.  So scaling back keeps the top
    above the bottom and the left before the right, and moves no
    coordinate towards the origin. *)
Theorem detect_faces_boxes (s : matcher Enc) (frame : image) :
  let height := fst (shape (cvtColor_BGR2RGB frame)) in
  let width := snd (shape (cvtColor_BGR2RGB frame)) in
  let found := face_locations (working_frame frame) (model s) in
  List.length (detect_faces s frame) = List.length found
  /\ (width <= 800 ->
      working_frame frame = cvtColor_BGR2RGB frame
      /\ detect_faces s frame = face_locations (cvtColor_BGR2RGB frame) (model s))
  /\ (Binary64 float64 -> 800 < width < 2 ^ 20 ->
      (moderate height ->
       exists new_height,
         working_frame frame = resize (cvtColor_BGR2RGB frame) (800, new_height)
         /\ scaled height 800 width new_height)
      /\ Forall2 (fun b b' =>
                    let '(top, right_, bottom, left_) := b in
                    let '(top', right', bottom', left') := b' in
                    moderate top -> moderate right_ ->
                    moderate bottom -> moderate left_ ->
                    scaled top width 800 top'
                    /\ scaled right_ width 800 right'
                    /\ scaled bottom width 800 bottom'
                    /\ scaled left_ width 800 left'
                    /\ (top <= bottom -> top' <= bottom')
                    /\ (left_ <= right_ -> left' <= right')
                    /\ top <= top' /\ left_ <= left'
                    /\ bottom <= bottom' /\ right_ <= right')
                 found (detect_faces s frame)).
Proof.
  intros height width found. unfold detect_faces, working_frame in *.
  subst height width found.
  destruct (shape (cvtColor_BGR2RGB frame)) as [height width]. cbn [fst snd].
  destruct (Z.ltb_spec 800 width) as [Hw|Hw].
  - split; [apply length_map |]. split; [lia |]. intros B64 Hwide. split.
    + intros Hh. eexists. split; [reflexivity |].
      apply (int_of_scaled B64);
        [exact Hh | change (2 ^ 20) with 1048576; lia | lia].
    + induction (face_locations _ _) as [|[[[top right_] bottom] left_] bs IH];
        simpl; constructor; auto.
      intros Ht Hr Hb Hl.
      destruct (scale_back_coordinate width top B64 Hwide Ht) as [St Gt].
      destruct (scale_back_coordinate width right_ B64 Hwide Hr) as [Sr Gr].
      destruct (scale_back_coordinate width bottom B64 Hwide Hb) as [Sb Gb].
      destruct (scale_back_coordinate width left_ B64 Hwide Hl) as [Sl Gl].
      repeat (split; [assumption |]).
      split; [now apply scale_back_order |].
      split; [now apply scale_back_order |].
      repeat split; assumption.
  - split; [reflexivity |]. split; [intros _; split; reflexivity | lia].
Qed.

Lemma locations_of_entries (g : box -> box) (locs : list box) (encs : list Enc)
    (rs : list recognized_face) (f : box * Enc -> recognized_face -> Prop) :
  (forall face r, f face r -> location r = g (fst face)) ->
  Forall2 f (combine locs encs) rs ->
  map location rs = firstn (List.length rs) (map g locs).
Proof.
  intros Hf. revert encs rs.
  induction locs as [|b locs IH]; intros encs rs H.
  - simpl in H. inversion H. reflexivity.
  - destruct encs as [|e encs]; simpl in H.
    + inversion H. reflexivity.
    + inversion H as [|face r l l' Hfr Hrest]; subst. simpl.
      rewrite (Hf _ _ Hfr). simpl. f_equal. now apply (IH encs).
Qed.

(** X14. [recognize_faces] and [detect_faces] agree on where the faces
    are: the locations of the entries [recognize_faces] returns are the
    boxes [detect_faces] returns for the same frame, in the same order
    (all of them when the detector yields an encoding for each location). *)
Theorem recognize_faces_locations (s : matcher Enc) (frame : image)
    (rs : list recognized_face) :
  recognize_faces s frame = Ok rs ->
  map location rs = firstn (List.length rs) (detect_faces s frame).
Proof.
  intros H. destruct (recognize_faces_entries s frame rs H) as [encs [_ F]].
  unfold detect_faces.
  destruct (shape (cvtColor_BGR2RGB frame)) as [height width]. simpl in F.
  replace (if 800 <? width
           then map (scale_back width) (face_locations (working_frame frame) (model s))
           else face_locations (working_frame frame) (model s))
    with (map (fun b => if 800 <? width then scale_back width b else b)
              (face_locations (working_frame frame) (model s))).
  - eapply locations_of_entries; [| exact F].
    intros face r Hr. simpl in Hr.
    now apply recognize_face_entry in Hr.
  - destruct (800 <? width); [reflexivity | apply map_id].
Qed.

(** *** Confidence *)

Lemma norm_diff_nonneg (a b : list R) : (0 <= norm_diff a b)%R.
Proof. unfold norm_diff. apply sqrt_pos. Qed.

Lemma norm_diff_same (a b : list R) : a = b -> norm_diff a b = 0%R.
Proof.
  intros <-. unfold norm_diff.
  replace (fold_right Rplus 0%R
             (map (fun xy => Rsqr (fst xy - snd xy)) (combine a a))) with 0%R;
    [apply sqrt_0 |].
  induction a as [|x a IH]; simpl; [reflexivity |].
  rewrite <- IH. unfold Rsqr. lra.
Qed.

(** X15. Every entry [recognize_faces] returns is of one of two kinds: the
    unknown entry, with name "Unknown", no person id and confidence 0; or
    the entry of a known face, whose person id and name are in the
    projection and whose confidence lies between 0.4 and 1.  So the
    confidence is positive exactly when a person id is present. *)
Theorem recognize_faces_confidence (s : matcher Enc) (frame : image)
    (rs : list recognized_face) :
  recognize_faces s frame = Ok rs ->
  forall r, In r rs ->
    (r_name r = "Unknown" /\ r_person_id r = None /\ r_confidence r = 0%R)
    \/ (exists pid, r_person_id r = Some pid
                    /\ In pid (known_face_ids s)
                    /\ In (r_name r) (known_face_names s)
                    /\ (4 / 10 <= r_confidence r <= 1)%R).
Proof.
  intros H r Hr. destruct (recognize_faces_entries s frame rs H) as [encs [_ F]].
  destruct (Forall2_in_r _ _ _ r F Hr) as [[loc candidate] [_ Hface]].
  simpl in Hface. apply recognize_face_entry in Hface.
  destruct Hface as [_ [Hu | [i [k [n [pid [Ek [En [Ei [Hd [Hn [Hp Hc]]]]]]]]]]]];
    [now left | right].
  exists pid. split; [exact Hp |].
  split; [eapply nth_error_In; exact Ei |].
  split; [rewrite Hn; eapply nth_error_In; exact En |].
  pose proof (norm_diff_nonneg (coords k) (coords candidate)).
  unfold tolerance in Hd. rewrite Hc. lra.
Qed.

(** X16. A face whose encoding has the coordinates of a known encoding is
    never reported unknown: its entry carries a person id and confidence 1. *)
Theorem known_encoding_recognized (s : matcher Enc) (frame : image)
    (encodings : list Enc) (rs : list recognized_face) :
  parallel s ->
  face_encodings (working_frame frame)
    (face_locations (working_frame frame) (model s)) = Ok encodings ->
  recognize_faces s frame = Ok rs ->
  Forall2 (fun face r =>
             (exists k, In k (known_face_encodings s)
                        /\ coords k = coords (snd face)) ->
             r_confidence r = 1%R /\ exists pid, r_person_id r = Some pid)
          (combine (face_locations (working_frame frame) (model s)) encodings)
          rs.
Proof.
  intros Hpar Henc H.
  destruct (recognize_faces_entries s frame rs H) as [encs [Henc' F]].
  assert (encs = encodings) by congruence. subst encs.
  eapply Forall2_impl; [| exact F].
  intros [loc candidate] r Hr [k [Hk Hsame]]. simpl in *.
  destruct (recognize_face_spec s (snd (shape (cvtColor_BGR2RGB frame))) loc
              candidate Hpar) as [r' [Hr' Hspec]].
  assert (r' = r) by congruence. subst r'.
  pose proof (norm_diff_same _ _ Hsame) as Hzero.
  destruct Hspec as [[i [k' [n [pid [Ek [En [Ei [Hd [Hmin [_ [Hn [Hp Hc]]]]]]]]]]]]
                    | [Hfar _]].
  - specialize (Hmin k Hk). rewrite Hzero in Hmin.
    pose proof (norm_diff_nonneg (coords k') (coords candidate)).
    split; [rewrite Hc; lra | now exists pid].
  - specialize (Hfar k Hk). rewrite Hzero in Hfar. unfold tolerance in Hfar. lra.
Qed.

(** *** The projection and the store *)

Lemma combine_maps {A B C D} (f : A -> B) (g : A -> C) (h : A -> D) (l : list A) :
  combine (combine (map f l) (map g l)) (map h l)
  = map (fun a => (f a, g a, h a)) l.
Proof. induction l as [|a l IH]; simpl; [reflexivity | now rewrite IH]. Qed.

Lemma combine_snoc {A B} (l : list A) (l' : list B) (a : A) (b : B) :
  List.length l = List.length l' ->
  combine (l ++ [a]) (l' ++ [b]) = combine l l' ++ [(a, b)].
Proof.
  revert l'. induction l as [|x l IH]; intros [|y l'] H; simpl in *;
    try discriminate; [reflexivity |].
  rewrite IH by lia. reflexivity.
Qed.

Lemma nth_error_combine {A B} (l : list A) (l' : list B) (i : nat) (a : A) (b : B) :
  nth_error l i = Some a -> nth_error l' i = Some b ->
  nth_error (combine l l') i = Some (a, b).
Proof.
  revert l' i. induction l as [|x l IH]; intros [|y l'] [|i]; simpl;
    try discriminate.
  - now intros [= ->] [= ->].
  - apply IH.
Qed.

Lemma stored_entries_decoded (rows : list person_row) (ps : list (person Enc Meta)) :
  Forall2 (fun r p => decode_row r = Ok p) rows ps ->
  flat_map (fun r =>
              match loads_encoding (face_encoding r) with
              | Some enc =>
                  match coords enc with
                  | [] => []
                  | _ :: _ => [(enc, name r, id r)]
                  end
              | None => []
              end) rows
  = map (fun p => (p_face_encoding p, p_name p, p_id p)) (filter has_encoding ps).
Proof.
  induction 1 as [|r p rows ps Hd _ IH]; simpl; [reflexivity |].
  apply decode_row_decodes in Hd. destruct Hd as [Hi [Hn [He _]]].
  rewrite He, IH. unfold has_encoding.
  destruct (coords (p_face_encoding p)); simpl; [reflexivity |].
  now rewrite Hi, Hn.
Qed.

(** What [load_known_faces] builds is in step with the store it read. *)
Lemma loaded_in_sync (s s' : matcher Enc) (d : database) :
  load_known_faces s d = Ok s' -> in_sync s' d.
Proof.
  intros H. split; [exact (load_known_faces_parallel s s' d H) |].
  unfold load_known_faces in H.
  destruct (get_all_persons d) as [ps|e] eqn:Eall; simpl in H; [| discriminate].
  injection H as <-. unfold entries; simpl. rewrite combine_maps.
  unfold get_all_persons in Eall. apply for_each_inv in Eall.
  rewrite <- (stored_entries_decoded _ _ Eall).
  unfold stored_entries. apply Permutation_flat_map.
  apply Permutation_sym, SortLastSeenName.Permuted_sort.
Qed.

(** A person named by an entry is a known face of any store the
    projection is in step with. *)
Lemma recognized_is_stored (s : matcher Enc) (d : database) (frame : image)
    (rs : list recognized_face) (r : recognized_face) (pid : Z) :
  in_sync s d ->
  recognize_faces s frame = Ok rs -> In r rs -> r_person_id r = Some pid ->
  exists row, In row (persons d) /\ id row = pid /\ name row = r_name r.
Proof.
  intros [_ Hperm] H Hr Hpid.
  destruct (recognize_faces_entries s frame rs H) as [encs [_ F]].
  destruct (Forall2_in_r _ _ _ r F Hr) as [[loc candidate] [_ Hface]].
  simpl in Hface. apply recognize_face_entry in Hface.
  destruct Hface as [_ [[_ [Hnone _]] | [i [k [n [q [Ek [En [Ei [_ [Hn [Hq _]]]]]]]]]]]];
    [congruence |].
  assert (q = pid) by congruence. subst q.
  assert (Hin : In (k, n, pid) (entries s)).
  { unfold entries. eapply nth_error_In.
    apply nth_error_combine; [| exact Ei].
    apply nth_error_combine; [exact Ek | exact En]. }
  apply (Permutation_in _ Hperm) in Hin.
  unfold stored_entries in Hin. apply in_flat_map in Hin.
  destruct Hin as [row [Hrow Hin]].
  destruct (loads_encoding (face_encoding row)) as [enc|]; [| contradiction].
  destruct (coords enc); [contradiction |].
  destruct Hin as [[= _ <- <-] | []].
  exists row. rewrite Hn. auto.
Qed.

(** X17. [load_known_faces], and so the constructor of the matcher, leaves
    the projection in step with the store: the three sequences have one
    length, and their entries are the encoding, name and id of exactly the
    stored persons whose encoding is a non-empty list, each once.  The
    detection model is kept. *)
Theorem load_known_faces_in_sync (s s' : matcher Enc) (d : database) :
  load_known_faces s d = Ok s' ->
  in_sync s' d
  /\ model s' = model s
  /\ (forall model_name s0, new_matcher model_name d = Ok s0 ->
        in_sync s0 d /\ model s0 = model_name).
Proof.
  intros H. split; [exact (loaded_in_sync s s' d H) |]. split.
  - unfold load_known_faces in H.
    destruct (get_all_persons d); simpl in H; [| discriminate].
    now injection H as <-.
  - intros model_name s0 H0. split; [exact (loaded_in_sync _ s0 d H0) |].
    unfold new_matcher, load_known_faces in H0.
    destruct (get_all_persons d); simpl in H0; [| discriminate].
    now injection H0 as <-.
Qed.

(** X18. Registration keeps the projection in step with the store without
    a reload: if the projection is in step before [register_new_face],
    [json.loads] inverts [json.dumps], and the detector yields no empty
    encoding, then it is in step afterwards, whether the call returned
    [True] or [False]. *)
Theorem register_new_face_in_sync (RT : JsonRoundTrip Enc Meta)
    (now : datetime) (frame : image) (n : string) (m : option Meta)
    (s : matcher Enc) (d : database) :
  (forall img boxes encs enc,
      face_encodings img boxes = Ok encs -> In enc encs -> coords enc <> []) ->
  in_sync s d ->
  in_sync (fst (snd (register_new_face now frame n m s d)))
          (snd (snd (register_new_face now frame n m s d))).
Proof.
  intros Hfull [Hpar Hperm]. unfold register_new_face.
  destruct (face_locations _ _) as [|b0 bs]; [now split |].
  destruct (nth_error _ _) as [best|]; [| now split].
  destruct (face_encodings _ [best]) as [[|enc rest]|e] eqn:Eenc; try now split.
  destruct (add_person now n enc m d) as [[pid|e] d'] eqn:Eadd.
  - simpl. split.
    + destruct Hpar as [Hn Hi]. unfold parallel; simpl.
      rewrite !length_app; simpl. lia.
    + destruct Hpar as [Hn Hi].
      unfold entries; simpl.
      rewrite !combine_snoc by (rewrite ?length_combine; lia).
      unfold add_person in Eadd.
      destruct (existsb _ (persons d)); [discriminate |].
      injection Eadd as <- <-.
      unfold stored_entries; simpl. rewrite flat_map_app; simpl.
      rewrite (proj1 RT enc).
      destruct (coords enc) eqn:Ec.
      * elim (Hfull _ _ _ enc Eenc (or_introl eq_refl) Ec).
      * rewrite app_nil_r. apply Permutation_app_tail. exact Hperm.
  - simpl. rewrite (add_person_raise _ _ _ _ _ _ _ Eadd). now split.
Qed.

(** X19. Whoever [recognize_faces] names is a person of the store the
    projection is in step with: an entry that carries a person id carries
    the id and the name of one stored row. *)
Theorem recognized_person_is_stored (s : matcher Enc) (d : database)
    (frame : image) (rs : list recognized_face) :
  in_sync s d ->
  recognize_faces s frame = Ok rs ->
  forall r pid, In r rs -> r_person_id r = Some pid ->
    exists row, In row (persons d) /\ id row = pid /\ name row = r_name r.
Proof.
  intros Hsync H r pid Hr Hp.
  exact (recognized_is_stored s d frame rs r pid Hsync H Hr Hp).
Qed.

(** X20. The Delete button of the application deletes the person and
    reloads the projection; when it returns normally, no frame is ever
    recognized as the deleted person again, and the person's log rows are
    gone with the person. *)
Theorem deleted_person_not_recognized (pid : Z) (s s' : matcher Enc)
    (d d' : database) :
  delete_and_reload pid s d = (Ok tt, (s', d')) ->
  (forall frame rs r, recognize_faces s' frame = Ok rs -> In r rs ->
                      r_person_id r <> Some pid)
  /\ (forall l, In l (detection_logs d') -> person_id l <> Some pid)
  /\ get_person_by_id pid d' = Ok None.
Proof.
  unfold delete_and_reload.
  destruct (load_known_faces s (delete_person pid d)) as [s0|e] eqn:El;
    [| discriminate].
  intros [= <- <-].
  pose proof (delete_person_rows pid d) as [Hrows Hlogs].
  split; [| split].
  - intros frame rs r H Hr Hp.
    destruct (recognized_is_stored s0 _ frame rs r pid (loaded_in_sync _ _ _ El)
                H Hr Hp) as [row [Hrow [Hid _]]].
    exact (Hrows row Hrow Hid).
  - exact Hlogs.
  - unfold get_person_by_id. rewrite find_absent; [reflexivity |].
    intros r Hr. apply Z.eqb_neq. exact (Hrows r Hr).
Qed.

(** X21. The Update button of the application renames the person and
    reloads the projection; when it returns normally with a non-empty
    name, every later entry that carries the person's id carries the new
    name. *)
Theorem renamed_person_recognized_by_new_name (pid : Z) (n : string) (m : Meta)
    (s s' : matcher Enc) (d d' : database) :
  truthy n = true ->
  update_and_reload pid n m s d = (Ok tt, (s', d')) ->
  forall frame rs r, recognize_faces s' frame = Ok rs -> In r rs ->
                     r_person_id r = Some pid -> r_name r = n.
Proof.
  intros Hn. unfold update_and_reload.
  destruct (update_person pid (Some n) (Some m) d) as [[u|e] d0] eqn:Eu;
    [| discriminate].
  destruct (load_known_faces s d0) as [s0|e] eqn:El; [| discriminate].
  intros [= <- <-] frame rs r H Hr Hp.
  destruct (recognized_is_stored s0 d0 frame rs r pid (loaded_in_sync _ _ _ El)
              H Hr Hp) as [row [Hrow [Hid Hname]]].
  rewrite <- Hname.
  unfold update_person, name_update in Eu. rewrite Hn in Eu.
  unfold metadata_update in Eu. cbn [option_map] in Eu.
  destruct (rename_conflict pid (Some n) (persons d)); [discriminate |].
  apply (f_equal snd) in Eu. simpl in Eu. subst d0. simpl in Hrow.
  apply in_updated_cases in Hrow.
  destruct Hrow as [r0 [_ [[Hne ->] | [_ ->]]]]; [congruence | reflexivity].
Qed.

(** X22. [register_new_face] returns [True] in exactly one situation: the
    detector located a face, it yielded an encoding for the face of
    greatest area, and no stored person has the name.  Then the store has
    gained one person row, with that name, and nothing else in it has
    changed. *)
Theorem register_new_face_succeeds_iff (now : datetime) (frame : image)
    (n : string) (m : option Meta) (s : matcher Enc) (d : database) :
  let rgb_frame := working_frame frame in
  let locations := face_locations rgb_frame (model s) in
  let outcome := register_new_face now frame n m s d in
  (fst outcome = true <->
   exists best enc rest,
     nth_error locations (argmax (map face_size locations)) = Some best
     /\ face_encodings rgb_frame [best] = Ok (enc :: rest)
     /\ forall r, In r (persons d) -> name r <> n)
  /\ (fst outcome = true ->
      exists row,
        persons (snd (snd outcome)) = persons d ++ [row]
        /\ name row = n
        /\ total_detections row = 0
        /\ detection_logs (snd (snd outcome)) = detection_logs d).
Proof.
  intros rgb_frame locations outcome. subst outcome.
  unfold register_new_face. fold rgb_frame. fold locations.
  destruct locations as [|b0 bs] eqn:El.
  { simpl. split; [split; [discriminate |] | discriminate].
    intros [best [enc [rest [H _]]]]. now destruct (argmax []). }
  rewrite <- El.
  destruct (nth_error locations (argmax (map face_size locations))) as [best|]
    eqn:Eb;
    [| simpl; split; [split; [discriminate |] | discriminate];
       intros [best [enc [rest [H _]]]]; congruence].
  destruct (face_encodings rgb_frame [best]) as [[|enc rest]|e] eqn:Eenc;
    try (simpl; split; [split; [discriminate |] | discriminate];
         intros [best' [enc' [rest' [Hb [He _]]]]]; congruence).
  unfold add_person.
  destruct (existsb (fun r => String.eqb (name r) n) (persons d)) eqn:Ex; simpl.
  - split; [split; [discriminate |] | discriminate].
    intros [best' [enc' [rest' [_ [_ Hfresh]]]]].
    apply existsb_name_false in Hfresh. congruence.
  - split.
    + split; [| reflexivity]. intros _.
      exists best, enc, rest. split; [reflexivity |]. split; [exact Eenc |].
      now apply existsb_name_false.
    + intros _. eexists. split; [reflexivity |]. auto.
Qed.

(** *** The Live Camera tab *)

Lemma flat_map_updated {B} (g : person_row -> list B) (pid : Z)
    (f : person_row -> person_row) (rows : list person_row) :
  (forall r, g (f r) = g r) ->
  flat_map g (map (fun r => if id r =? pid then f r else r) rows)
  = flat_map g rows.
Proof.
  intros Hg. induction rows as [|r rows IH]; simpl; [reflexivity |].
  rewrite IH. now destruct (id r =? pid); [rewrite Hg |].
Qed.

Lemma map_face_encoding_updated (pid : Z) (f : person_row -> person_row)
    (rows : list person_row) :
  (forall r, face_encoding (f r) = face_encoding r) ->
  map face_encoding (map (fun r => if id r =? pid then f r else r) rows)
  = map face_encoding rows.
Proof.
  intros Hf. rewrite map_map. apply map_ext. intros r.
  now destruct (id r =? pid); [rewrite Hf |].
Qed.

(** One pass of the loop either does nothing or appends one log row. *)
Lemma log_face_cases (now : datetime) (face : recognized_face) (d : database) :
  (logged face = false /\ log_face now face d = d)
  \/ (logged face = true
      /\ (exists l,
            detection_logs (log_face now face d) = detection_logs d ++ [l]
            /\ person_id l = r_person_id face
            /\ confidence l = Some (r_confidence face)
            /\ forall older, In older (detection_logs d) ->
                             log_id older < log_id l)
      /\ map id (persons (log_face now face d)) = map id (persons d)
      /\ map name (persons (log_face now face d)) = map name (persons d)
      /\ map face_encoding (persons (log_face now face d))
         = map face_encoding (persons d)
      /\ stored_entries (log_face now face d) = stored_entries d).
Proof.
  unfold logged, log_face.
  destruct (String.eqb (r_name face) "Unknown"); [now left | right].
  split; [reflexivity |].
  pose proof (next_rowid_above (logs_seq d) (map log_id (detection_logs d)))
    as [_ Hr].
  assert (Hold : forall older, In older (detection_logs d) ->
            log_id older
            < next_rowid (logs_seq d) (map log_id (detection_logs d))).
  { intros older Ho. apply Hr. now apply in_map. }
  destruct (r_person_id face) as [pid|]; simpl.
  - split; [eexists; split; [reflexivity |]; simpl; auto |].
    split; [now apply map_id_updated |].
    split; [now apply map_name_updated |].
    split; [now apply map_face_encoding_updated |].
    unfold stored_entries. simpl. now apply flat_map_updated.
  - split; [eexists; split; [reflexivity |]; simpl; auto |].
    repeat split; reflexivity.
Qed.

Lemma log_faces_logs (clock_at : nat -> datetime) (faces : list recognized_face)
    (d : database) :
  exists news,
    detection_logs (log_faces clock_at faces d) = detection_logs d ++ news
    /\ Forall2 (fun face l => person_id l = r_person_id face
                              /\ confidence l = Some (r_confidence face))
               (filter logged faces) news
    /\ (forall older l, In older (detection_logs d) -> In l news ->
                        log_id older < log_id l)
    /\ map id (persons (log_faces clock_at faces d)) = map id (persons d)
    /\ map name (persons (log_faces clock_at faces d)) = map name (persons d)
    /\ map face_encoding (persons (log_faces clock_at faces d))
       = map face_encoding (persons d)
    /\ stored_entries (log_faces clock_at faces d) = stored_entries d.
Proof.
  revert clock_at d. induction faces as [|face rest IH]; intros clock_at d.
  - exists []. simpl. rewrite app_nil_r.
    repeat split; try reflexivity; [constructor | intros ? ? _ []].
  - simpl.
    destruct (IH (fun k => clock_at (S k)) (log_face (clock_at O) face d))
      as [news [Hlogs [Hrows [Hids [Hid [Hname [Henc Hst]]]]]]].
    destruct (log_face_cases (clock_at O) face d)
      as [[Hno E] | [Hyes [[l [El [Hp [Hc Hl]]]] [Eid [Ename [Eenc Est]]]]]].
    + rewrite Hno. rewrite E in *. exists news. repeat split; assumption.
    + rewrite Hyes. exists (l :: news).
      split; [rewrite Hlogs, El, <- app_assoc; reflexivity |].
      split; [constructor; [now split | exact Hrows] |].
      split.
      { intros older l' Ho [<-|Hl']; [now apply Hl |].
        apply Hids; [| exact Hl']. rewrite El. apply in_or_app. now left. }
      repeat split; congruence.
Qed.

(** The loop keeps the invariants of the store when every entry it logs
    carries the id of a stored person. *)
Lemma log_faces_invariants (clock_at : nat -> datetime)
    (faces : list recognized_face) (d : database) :
  keyed d -> no_future d -> counted d ->
  Forall (fun face => logged face = true ->
            exists pid, r_person_id face = Some pid
                        /\ In pid (map id (persons d))) faces ->
  keyed (log_faces clock_at faces d)
  /\ no_future (log_faces clock_at faces d)
  /\ counted (log_faces clock_at faces d).
Proof.
  revert clock_at d. induction faces as [|face rest IH];
    intros clock_at d K N C F; [simpl; tauto |].
  simpl. inversion F as [|? ? Hface Hrest]; subst.
  destruct (log_face_cases (clock_at O) face d)
    as [[_ E] | [Hyes [_ [Eid _]]]].
  - rewrite E. now apply IH.
  - destruct (Hface Hyes) as [pid [Hp Hin]].
    set (o := @LogDetection Enc Meta datetime (clock_at O) pid
                (Some (r_confidence face))).
    assert (E : log_face (clock_at O) face d = step o d).
    { unfold log_face. unfold logged in Hyes.
      destruct (String.eqb (r_name face) "Unknown"); [discriminate |].
      now rewrite Hp. }
    assert (A : admissible o d).
    { simpl. apply in_map_iff in Hin. destruct Hin as [row [<- Hrow]].
      now apply K. }
    apply IH.
    + rewrite E. now apply keyed_step.
    + rewrite E. now apply no_future_step.
    + rewrite E. now apply counted_step.
    + rewrite Eid. exact Hrest.
Qed.

(** An entry of [recognize_faces] that the loop logs carries a person id. *)
Lemma logged_has_id (s : matcher Enc) (frame : image)
    (rs : list recognized_face) (r : recognized_face) :
  recognize_faces s frame = Ok rs -> In r rs -> logged r = true ->
  exists pid, r_person_id r = Some pid.
Proof.
  intros H Hr Hl. destruct (recognize_faces_entries s frame rs H) as [encs [_ F]].
  destruct (Forall2_in_r _ _ _ r F Hr) as [[loc candidate] [_ Hface]].
  simpl in Hface. apply recognize_face_entry in Hface.
  destruct Hface as [_ [[Hu _] | [i [k [n [pid [_ [_ [_ [_ [_ [Hp _]]]]]]]]]]]].
  - unfold logged in Hl. rewrite Hu in Hl. discriminate.
  - now exists pid.
Qed.

(** The loop leaves alone a person none of the logged entries refers to. *)
Lemma log_faces_other (clock_at : nat -> datetime)
    (faces : list recognized_face) (d : database) (row : person_row) :
  Forall (fun face => logged face = true ->
            exists pid, r_person_id face = Some pid /\ pid <> id row) faces ->
  In row (persons d) ->
  In row (persons (log_faces clock_at faces d))
  /\ logs_of (id row) (log_faces clock_at faces d) = logs_of (id row) d.
Proof.
  revert clock_at d. induction faces as [|face rest IH];
    intros clock_at d F Hrow; [now split |].
  simpl. inversion F as [|? ? Hface Hrest]; subst.
  destruct (log_face_cases (clock_at O) face d) as [[_ E] | [Hyes _]].
  - rewrite E. now apply IH.
  - destruct (Hface Hyes) as [pid [Hp Hne]].
    assert (E : log_face (clock_at O) face d
                = log_detection (clock_at O) pid (Some (r_confidence face)) d).
    { unfold log_face. unfold logged in Hyes.
      destruct (String.eqb (r_name face) "Unknown"); [discriminate |].
      now rewrite Hp. }
    rewrite E.
    destruct (IH (fun k => clock_at (S k))
                (log_detection (clock_at O) pid (Some (r_confidence face)) d)
                Hrest) as [Hin Hlogs].
    + simpl. apply in_map_iff. exists row. split; [| exact Hrow].
      destruct (id row =? pid) eqn:Eq; [| reflexivity].
      apply Z.eqb_eq in Eq. congruence.
    + split; [exact Hin |]. rewrite Hlogs. apply logs_of_log_other. congruence.
Qed.

(** X23. One picture on the Live Camera tab, when [recognize_faces]
    returns: the handler returns too, and the detection log has grown by
    exactly one row for every entry whose name is not "Unknown", in the
    order of the entries, each row holding the person id and the
    confidence of its entry under a log id larger than every earlier one.
    Ids, names and encodings of the stored persons are as before. *)
Theorem live_camera_logs (clock_at : nat -> datetime) (s : matcher Enc)
    (frame : image) (d : database) (faces : list recognized_face) :
  recognize_faces s frame = Ok faces ->
  exists d' news,
    live_camera clock_at s frame d = (Ok tt, d')
    /\ detection_logs d' = detection_logs d ++ news
    /\ Forall2 (fun face l => person_id l = r_person_id face
                              /\ confidence l = Some (r_confidence face))
               (filter logged faces) news
    /\ (forall older l, In older (detection_logs d) -> In l news ->
                        log_id older < log_id l)
    /\ map id (persons d') = map id (persons d)
    /\ map name (persons d') = map name (persons d)
    /\ map face_encoding (persons d') = map face_encoding (persons d).
Proof.
  intros H. unfold live_camera. rewrite H.
  destruct (log_faces_logs clock_at faces d)
    as [news [Hlogs [Hrows [Hids [Hid [Hname [Henc _]]]]]]].
  exists (log_faces clock_at faces d), news. now repeat split.
Qed.

(** X24. The Live Camera tab keeps the store sound.  When the projection
    is in step with a store that satisfies the key constraints and whose
    counters match its log, then after a picture was handled all of this
    still holds, with no reload of the projection, and every log row the
    handler wrote references a stored person. *)
Theorem live_camera_keeps_invariants (clock_at : nat -> datetime)
    (s : matcher Enc) (frame : image) (d d' : database) :
  in_sync s d -> keyed d -> no_future d -> counted d ->
  live_camera clock_at s frame d = (Ok tt, d') ->
  in_sync s d' /\ keyed d' /\ no_future d' /\ counted d'
  /\ exists news,
       detection_logs d' = detection_logs d ++ news
       /\ forall l, In l news ->
            exists row, In row (persons d') /\ person_id l = Some (id row).
Proof.
  intros Hsync K N C. unfold live_camera.
  destruct (recognize_faces s frame) as [faces|e] eqn:H; [| discriminate].
  intros [= <-].
  assert (F : Forall (fun face => logged face = true ->
                        exists pid, r_person_id face = Some pid
                                    /\ In pid (map id (persons d))) faces).
  { apply Forall_forall. intros face Hface Hl.
    destruct (logged_has_id s frame faces face H Hface Hl) as [pid Hp].
    exists pid. split; [exact Hp |].
    destruct (recognized_is_stored s d frame faces face pid Hsync H Hface Hp)
      as [row [Hrow [<- _]]].
    now apply in_map. }
  destruct (log_faces_logs clock_at faces d)
    as [news [Hlogs [Hrows [_ [Hid [_ [_ Hst]]]]]]].
  destruct (log_faces_invariants clock_at faces d K N C F) as [K' [N' C']].
  split; [destruct Hsync as [Hpar Hperm]; split; [exact Hpar | now rewrite Hst] |].
  split; [exact K' |]. split; [exact N' |]. split; [exact C' |].
  exists news. split; [exact Hlogs |].
  intros l Hl.
  destruct (Forall2_in_r _ _ _ l Hrows Hl) as [face [Hface [Hp _]]].
  apply filter_In in Hface. destruct Hface as [Hface Hlogged].
  rewrite Forall_forall in F.
  destruct (F face Hface Hlogged) as [pid [Hpid Hin]].
  rewrite <- Hid in Hin. apply in_map_iff in Hin.
  destruct Hin as [row [<- Hrow]].
  exists row. split; [exact Hrow | congruence].
Qed.

(** X25. The Live Camera tab tells a known face from an unknown one by the
    name of the entry, not by its person id.  So a person stored under the
    name "Unknown" is never logged: however often the person is
    recognized, the person's row and log rows stay as they are. *)
Theorem person_named_Unknown_never_logged (clock_at : nat -> datetime)
    (s : matcher Enc) (frame : image) (d d' : database) (row : person_row) :
  in_sync s d -> keyed d ->
  In row (persons d) -> name row = "Unknown" ->
  live_camera clock_at s frame d = (Ok tt, d') ->
  In row (persons d') /\ logs_of (id row) d' = logs_of (id row) d.
Proof.
  intros Hsync K Hrow Hname. unfold live_camera.
  destruct (recognize_faces s frame) as [faces|e] eqn:H; [| discriminate].
  intros [= <-].
  apply log_faces_other; [| exact Hrow].
  apply Forall_forall. intros face Hface Hl.
  destruct (logged_has_id s frame faces face H Hface Hl) as [pid Hp].
  exists pid. split; [exact Hp |]. intros ->.
  destruct (recognized_is_stored s d frame faces face (id row) Hsync H Hface Hp)
    as [row' [Hrow' [Hid Hn]]].
  assert (row' = row)
    by exact (NoDup_map_same id (persons d) row' row (proj1 K) Hrow' Hrow Hid).
  subst row'. unfold logged in Hl. rewrite <- Hn, Hname in Hl. discriminate.
Qed.

End MatcherFacts.

(* ===================================================================== *)
(** ** Facts about the annotation *)
(* ===================================================================== *)

Section AnnotationFacts.

Context {image Enc : Type} {vision : Vision image Enc} {float64 : Float64}.
Context {lettering : Lettering}.

Lemma draw_face_boxes_length (faces : list recognized_face) :
  List.length (draw_face_boxes faces) = (3 * List.length faces)%nat.
Proof.
  unfold draw_face_boxes. induction faces as [|face rest IH]; [reflexivity |].
  cbn [flat_map]. rewrite length_app, IH.
  unfold draw_face. destruct (location face) as [[[t r] b] l]. simpl. lia.
Qed.

Lemma Rltb_irrefl (x : R) : Rltb x x = false.
Proof. unfold Rltb. destruct (Rlt_dec x x); [lra | reflexivity]. Qed.

(** X26. What [draw_face_boxes] draws for the entries [recognize_faces]
    returns: three calls per entry, namely the box of the face, a filled
    band over its lowest 30 rows in the same colour, and a white label.
    The colour is green unless the entry is named "Unknown", then red.
    The label of an entry without person id is the bare "Unknown"; the
    label of an entry with a person id is the name followed by the
    confidence in percent.  The label is centred between the left and the
    right edge of the box, to the pixel. *)
Theorem draw_face_boxes_of_recognized (s : matcher Enc) (frame : image)
    (faces : list recognized_face) :
  recognize_faces s frame = Ok faces ->
  List.length (draw_face_boxes faces) = (3 * List.length faces)%nat
  /\ forall face top right_ bottom left_,
       In face faces -> location face = (top, right_, bottom, left_) ->
       exists color label text_x text_y,
         draw_face face
         = [Rectangle (left_, top) (right_, bottom) color 2;
            Rectangle (left_, bottom - 30) (right_, bottom) color FILLED;
            PutText label (text_x, text_y) (6 / 10)%R (255, 255, 255) 1]
         /\ (r_name face = "Unknown" -> color = (0, 0, 255))
         /\ (r_name face <> "Unknown" -> color = (0, 255, 0))
         /\ (r_person_id face = None -> label = "Unknown")
         /\ (r_person_id face <> None ->
             label = (r_name face ++ " ("
                      ++ format_percent (r_confidence face) ++ ")")%string)
         /\ left_ + right_ - fst (getTextSize label (6 / 10)%R 1) - 1
            <= 2 * text_x
            <= left_ + right_ - fst (getTextSize label (6 / 10)%R 1).
Proof.
  intros H. split; [apply draw_face_boxes_length |].
  intros face top right_ bottom left_ Hface Hloc.
  destruct (recognize_faces_entries s frame faces H) as [encs [_ F]].
  destruct (Forall2_in_r _ _ _ face F Hface) as [[loc candidate] [_ Hentry]].
  simpl in Hentry. apply recognize_face_entry in Hentry.
  unfold draw_face. rewrite Hloc.
  set (label := if Rltb 0 (r_confidence face)
                then (r_name face ++ " ("
                      ++ format_percent (r_confidence face) ++ ")")%string
                else r_name face).
  set (w := fst (getTextSize label (6 / 10)%R 1)).
  eexists _, label, _, _. split; [reflexivity |].
  split; [intros ->; reflexivity |].
  split; [intros Hn; apply String.eqb_neq in Hn; now rewrite Hn |].
  assert (Hcentre : left_ + right_ - w - 1
                    <= 2 * (left_ + (right_ - left_ - w) / 2)
                    <= left_ + right_ - w).
  { pose proof (Z.div_mod (right_ - left_ - w) 2 ltac:(lia)).
    pose proof (Z.mod_pos_bound (right_ - left_ - w) 2 ltac:(lia)). lia. }
  destruct Hentry
    as [_ [[Hu [Hp Hc]] | [i [k [n [pid [_ [_ [_ [Hd [_ [Hp Hc]]]]]]]]]]]].
  - split; [intros _; subst label; now rewrite Hc, Rltb_irrefl |].
    split; [congruence | exact Hcentre].
  - split; [congruence |]. split; [| exact Hcentre].
    intros _. subst label.
    replace (Rltb 0 (r_confidence face)) with true; [reflexivity |].
    symmetry. apply Rltb_true. unfold tolerance in Hd. rewrite Hc. lra.
Qed.

End AnnotationFacts.

(* ===================================================================== *)
(** ** The methods at work on the sample installation *)
(* ===================================================================== *)

#[local] Existing Instance Sample.json.
#[local] Existing Instance Sample.clock.
#[local] Existing Instance Sample.vision.
#[local] Existing Instance Sample.binary64.

Lemma norm_diff_single (x y : R) : (y <= x)%R -> norm_diff [x] [y] = (x - y)%R.
Proof.
  intros H. unfold norm_diff; simpl. rewrite Rplus_0_r. apply sqrt_Rsqr. lra.
Qed.

Lemma sample_json_round_trip : JsonRoundTrip Z unit.
Proof.
  split.
  - intros e. simpl. rewrite NilEmpty.isi. simpl. now rewrite DecimalZ.of_to.
  - intros []. reflexivity.
Qed.

Lemma sample_busy_decodable : decodable Sample.busy.
Proof.
  intros r [<-|[<-|[]]]; eexists; reflexivity.
Qed.

(** Loading the projection from the sample registry. *)
Lemma sample_load_known_faces :
  load_known_faces
    {| model := "hog"; known_face_encodings := [];
       known_face_names := []; known_face_ids := [] |}
    Sample.alice_registered
  = Ok Sample.knows_alice.
Proof. reflexivity. Qed.

(** [add_person] twice with the same name on the sample installation. *)
Lemma add_person_spec_witness :
  JsonRoundTrip Z unit
  /\ (exists pid p,
        fst (add_person 1%nat "Alice" 6 None init_database) = Ok pid
        /\ get_person_by_id pid Sample.alice_registered = Ok (Some p)
        /\ p_name p = "Alice" /\ p_face_encoding p = 6)
  /\ add_person 2%nat "Alice" 4 None Sample.alice_registered
     = (Raise (already_exists "Alice"), Sample.alice_registered).
Proof.
  split; [exact sample_json_round_trip |]. split.
  - destruct (proj1 (add_person_spec sample_json_round_trip
                       1%nat "Alice" 6 None init_database))
      as [pid [row [p [E [_ [_ [_ [_ [_ [_ [G [_ [Hn [He _]]]]]]]]]]]]]].
    + intros r [].
    + exists pid, p. rewrite E. auto.
  - apply (proj2 (add_person_spec sample_json_round_trip
                    2%nat "Alice" 4 None Sample.alice_registered)).
    exists Sample.alice_row. split; [now left | reflexivity].
Defined.


(** An update that supplies nothing, and one for an id nobody has. *)
Lemma update_person_frame_witness :
  update_person 1 (Some EmptyString) None Sample.alice_registered
    = (Ok tt, Sample.alice_registered)
  /\ update_person 5 (Some "Bob") (Some tt) Sample.alice_registered
    = (Ok tt, Sample.alice_registered).
Proof.
  pose proof (update_person_frame 1 (Some EmptyString) None
                Sample.alice_registered) as [_ [_ [_ [_ [H _]]]]].
  pose proof (update_person_frame 5 (Some "Bob") (Some tt)
                Sample.alice_registered) as [_ [_ [_ [_ [_ H']]]]].
  split.
  - apply H; [now right | reflexivity].
  - apply H'. intros r [<-|[]]. discriminate.
Defined.

(** Deleting an id that neither table mentions. *)
Lemma delete_person_spec_witness :
  delete_person 5 Sample.alice_registered = Sample.alice_registered.
Proof.
  pose proof (delete_person_spec 5 Sample.alice_registered)
    as [_ [_ [_ [_ H]]]].
  apply H.
  - intros r [<-|[]]. discriminate.
  - intros l [].
Defined.

(** C6, as the claim has it, fails: no person has id 7 in [Sample.dangling],
    yet deleting person 7 removes a log row. *)
Lemma delete_person_dangling :
  (forall r, In r (persons Sample.dangling) -> id r <> 7)
  /\ delete_person 7 Sample.dangling <> Sample.dangling.
Proof.
  split; [intros r [] |].
  intros E. apply (f_equal detection_logs) in E. discriminate E.
Qed.

(** Listing the sample registry with Alice never seen and Bob seen. *)
Lemma get_all_persons_spec_witness :
  decodable Sample.busy
  /\ exists rows ps,
       get_all_persons Sample.busy = Ok ps
       /\ Permutation (persons Sample.busy) rows
       /\ StronglySorted listed_no_later rows.
Proof.
  split; [exact sample_busy_decodable |].
  destruct (get_all_persons_spec Sample.busy sample_busy_decodable)
    as [rows [ps [E [P [S _]]]]].
  exists rows, ps. auto.
Defined.

(** The statistics of the day after day 2 on the sample registry. *)
Lemma get_detection_stats_spec_witness :
  In ("Bob", 1) (stat_top_visitors (get_detection_stats 3%nat 1 Sample.busy))
  /\ exists p, In p (persons Sample.busy) /\ name p = "Bob".
Proof.
  assert (H : In ("Bob", 1)
                (stat_top_visitors (get_detection_stats 3%nat 1 Sample.busy)))
    by (now left).
  split; [exact H |].
  pose proof (get_detection_stats_spec 3%nat 1 Sample.busy)
    as [_ [_ [_ [_ [_ [G _]]]]]].
  destruct (G "Bob" 1 H) as [p [Hp [Hn _]]].
  exists p. auto.
Defined.

(** A face at distance 0.2 from Alice is recognized. *)
Lemma recognize_faces_spec_witness :
  parallel Sample.knows_alice
  /\ face_encodings (working_frame Sample.near_alice)
       (face_locations (working_frame Sample.near_alice) (model Sample.knows_alice))
     = Ok [4]
  /\ exists rs,
       recognize_faces Sample.knows_alice Sample.near_alice = Ok rs
       /\ Forall2 (fun face r => recognized_as Sample.knows_alice (snd face) r)
                  [((10, 60, 60, 10), 4)] rs.
Proof.
  split; [split; reflexivity |]. split; [reflexivity |].
  exact (recognize_faces_spec Sample.knows_alice Sample.near_alice [4]
           (conj eq_refl eq_refl) eq_refl).
Defined.

(** C1, as the claim has it, fails at the tolerance itself: the only known
    encoding is at distance exactly 0.6 from the face, so no distance is
    below 0.6, and the face is matched to Alice with confidence 0.4. *)
Lemma recognize_faces_at_tolerance :
  (forall dist,
      In dist (face_distance (known_face_encodings Sample.knows_alice) 0) ->
      ~ (dist < tolerance)%R)
  /\ recognize_faces Sample.knows_alice Sample.at_tolerance
     = Ok [{| location := (10, 60, 60, 10); r_name := "Alice";
              r_person_id := Some 1; r_confidence := (1 - 6 / 10)%R |}].
Proof.
  assert (D : norm_diff (coords 6) (coords 0) = (6 / 10)%R).
  { simpl. rewrite norm_diff_single; lra. }
  split.
  - intros dist [<-|[]]. rewrite D. unfold tolerance. lra.
  - unfold recognize_faces, Sample.at_tolerance.
    cbn -[norm_diff coords Rleb Rltb].
    unfold recognize_face. cbn -[norm_diff coords Rleb Rltb].
    rewrite D.
    replace (Rleb (6 / 10) tolerance) with true
      by (symmetry; apply Rleb_true; unfold tolerance; lra).
    reflexivity.
Qed.


(** Registration under a name that is taken. *)
Lemma register_new_face_failure_witness :
  register_new_face 2%nat Sample.two_faces "Alice" None
    Sample.knows_alice Sample.alice_registered
  = (false, (Sample.knows_alice, Sample.alice_registered)).
Proof.
  destruct (proj2 (register_new_face_failure 2%nat Sample.two_faces "Alice" None
                     Sample.knows_alice Sample.alice_registered)
              (0, 200, 100, 100))
    as [_ [_ H]]; [discriminate | reflexivity |].
  exact (H 3 [] (already_exists "Alice") Sample.alice_registered eq_refl eq_refl).
Defined.

(** C8 at a query that is a LIKE wildcard: searching for the underscore
    returns Alice, whose name contains no underscore. *)
Theorem search_persons_underscore :
  search_persons "_" Sample.alice_registered
  = Ok [{| p_id := 1; p_name := "Alice"; p_face_encoding := 6;
           p_registration_date := "2024-01-01T12:00:00"; p_last_seen := None;
           p_total_detections := 0; p_metadata := tt |}]
  /\ ~ contains_folded "_" "Alice".
Proof.
  split; [reflexivity |].
  intros [before [mid [rest [E H]]]].
  destruct mid as [|d mid]; simpl in H; [discriminate |].
  destruct mid; [| rewrite andb_false_r in H; discriminate].
  rewrite andb_true_r in H.
  repeat (destruct before as [|? before]; simpl in E;
          [ injection E as <- _; vm_compute in H; discriminate
          | injection E as _ E ]).
  destruct before; discriminate.
Qed.

(** *** Runs, invariants and reads *)


Lemma sample_in_sync : in_sync Sample.knows_alice Sample.alice_registered.
Proof. exact (loaded_in_sync _ _ _ sample_load_known_faces). Qed.

Lemma sample_encodings_full :
  forall (img : Sample.frame) (boxes : list box) (encs : list Z) (enc : Z),
    face_encodings img boxes = Ok encs -> In enc encs -> coords enc <> [].
Proof. intros img boxes encs enc _ _. discriminate. Qed.

(** After Bob was added under id 2 and deleted, the next person gets id 3. *)
Lemma add_person_id_never_reused_witness :
  fst (add_person 5%nat "Carol" 2 None (run Sample.history init_database)) = Ok 3
  /\ forall r, In r (persons (run (firstn 5 Sample.history) init_database)) ->
              id r < 3.
Proof.
  split; [reflexivity |].
  exact (add_person_id_never_reused (firstn 5 Sample.history) [DeletePerson 2]
           5%nat "Carol" 2 None 3 eq_refl).
Defined.

(** The sample history logs detections only for Alice, who has id 1. *)
Lemma counters_match_log_witness :
  admissible_from Sample.history init_database
  /\ counted (run Sample.history init_database).
Proof.
  assert (H : admissible_from Sample.history init_database).
  { cbv -[Z.le Rdiv IZR]. repeat split; lia. }
  split; [exact H | exact (counters_match_log Sample.history H)].
Defined.

(** Renaming Alice in the sample registry, and renaming Bob to Alice. *)
Lemma update_person_effect_witness :
  row_of 1 Sample.alice_registered = Some Sample.alice_row
  /\ row_of 1 (snd (update_person 1 (Some "Alicia") None Sample.alice_registered))
     = Some (apply_update (Some "Alicia") None Sample.alice_row)
  /\ update_person 2 (Some "Alice") None Sample.busy
     = (Raise IntegrityError, Sample.busy).
Proof.
  split; [reflexivity |]. split.
  - apply (proj2 (update_person_effect 1 (Some "Alicia") None
                    Sample.alice_registered Sample.alice_row eq_refl)).
    intros s other _ [<-|[]] Hid. now elim Hid.
  - destruct (row_of 2 Sample.busy) as [bob|] eqn:Eb; [| discriminate].
    apply (proj1 (update_person_effect 2 (Some "Alice") None Sample.busy bob Eb)).
    exists "Alice", Sample.alice_row.
    split; [reflexivity |]. split; [now left |]. split; [discriminate | reflexivity].
Defined.

(** A detection logged for id 7 on the fresh database, then deleted. *)
Lemma log_detection_unknown_id_witness :
  persons (log_detection 1%nat 7 None init_database) = []
  /\ detection_logs
       (delete_person 7 (log_detection 1%nat 7 None init_database)) = [].
Proof.
  destruct (log_detection_unknown_id 1%nat 7 None init_database)
    as [[l [E _]] H].
  - intros r [].
  - split.
    + rewrite E. reflexivity.
    + apply H. intros x [].
Defined.


(** Listing and searching the store with the damaged row. *)
Lemma undecodable_row_is_fatal_witness :
  get_all_persons Sample.damaged = Raise JSONDecodeError
  /\ search_persons "bo" Sample.damaged = Raise JSONDecodeError.
Proof.
  destruct (undecodable_row_is_fatal Sample.damaged
              {| id := 2; name := "Bob"; face_encoding := "x";
                 registration_date := "2024-01-02T12:00:00"; last_seen := None;
                 total_detections := 0; metadata := Some "{}" |})
    as [Hall Hsearch].
  - right. now left.
  - reflexivity.
  - split; [exact Hall |].
    apply Hsearch; [unfold like_pattern_limit; simpl; lia | reflexivity].
Defined.


(** Searching the sample registry with the empty query. *)
Lemma search_persons_empty_query_witness :
  decodable Sample.busy
  /\ exists rows ps,
       search_persons EmptyString Sample.busy = Ok ps
       /\ Permutation (persons Sample.busy) rows.
Proof.
  split; [exact sample_busy_decodable |].
  destruct (search_persons_empty_query Sample.busy sample_busy_decodable)
    as [rows [ps [E [P _]]]].
  exists rows, ps. split; [exact E | exact P].
Defined.

(** Looking Alice up by id in the sample registry. *)
Lemma get_person_by_id_in_listing_witness :
  NoDup (map id (persons Sample.alice_registered))
  /\ exists ps p,
       get_all_persons Sample.alice_registered = Ok ps
       /\ get_person_by_id 1 Sample.alice_registered = Ok (Some p)
       /\ In p ps.
Proof.
  assert (Hnd : NoDup (map id (persons Sample.alice_registered))).
  { repeat constructor. intros []. }
  split; [exact Hnd |].
  destruct (get_all_persons Sample.alice_registered) as [ps|e] eqn:Eall;
    [| discriminate].
  destruct (get_person_by_id 1 Sample.alice_registered) as [[p|]|e] eqn:Eget;
    try discriminate.
  exists ps, p. split; [reflexivity |]. split; [reflexivity |].
  exact (proj1 (proj1 (get_person_by_id_in_listing Sample.alice_registered ps 1 p
                         Hnd Eall) Eget)).
Defined.

(** The statistics of the sample registry on day 3. *)
Lemma get_detection_stats_bounds_witness :
  NoDup (map id (persons Sample.busy))
  /\ sum_counts (stat_top_visitors (get_detection_stats 3%nat 1 Sample.busy))
     <= stat_total_detections (get_detection_stats 3%nat 1 Sample.busy).
Proof.
  assert (Hnd : NoDup (map id (persons Sample.busy))).
  { repeat constructor; [intros [E|[]]; discriminate | intros []]. }
  split; [exact Hnd |].
  exact (proj2 (proj2 (get_detection_stats_bounds 3%nat 1 Sample.busy)) Hnd).
Defined.

(** The figures shown after the sample history. *)
Lemma figures_shown_witness :
  JsonRoundTrip Z unit
  /\ admissible_from Sample.history init_database
  /\ total_detections_shown (run Sample.history init_database) = Ok 2
  /\ registered_shown (run Sample.history init_database) = Ok 1.
Proof.
  assert (H : admissible_from Sample.history init_database).
  { cbv -[Z.le Rdiv IZR]. repeat split; lia. }
  split; [exact sample_json_round_trip |]. split; [exact H |].
  exact (figures_shown sample_json_round_trip Sample.history H).
Defined.

(** *** Detection, recognition and the projection *)

Lemma sample_recognize_near_alice :
  recognize_faces Sample.knows_alice Sample.near_alice
  = Ok [{| location := (10, 60, 60, 10); r_name := "Alice";
           r_person_id := Some 1; r_confidence := (1 - 2 / 10)%R |}].
Proof.
  assert (D : norm_diff (coords 6) (coords 4) = (2 / 10)%R).
  { simpl. rewrite norm_diff_single; lra. }
  unfold recognize_faces, Sample.near_alice.
  cbn -[norm_diff coords Rleb Rltb].
  unfold recognize_face. cbn -[norm_diff coords Rleb Rltb].
  rewrite D.
  replace (Rleb (2 / 10) tolerance) with true
    by (symmetry; apply Rleb_true; unfold tolerance; lra).
  reflexivity.
Qed.

(** *** The frame arithmetic *)

Lemma exact_rounds (x : R) : rounds_to x x.
Proof.
  intros _. exists 0%R. split; [| ring].
  rewrite Rabs_R0. apply Rlt_le, Rinv_0_lt_compat, pow_lt. lra.
Qed.

(** Arithmetic without rounding meets the error bound of binary64. *)
Lemma sample_exact_binary64 : Binary64 Sample.exact.
Proof.
  split; [| split; [| split]].
  - intros n _. simpl. unfold Q2R. simpl. field.
  - intros x y. simpl. rewrite Qreals.Q2R_mult. apply exact_rounds.
  - intros x y Hy. simpl. rewrite Qreals.Q2R_div; [apply exact_rounds |].
    intros E. apply Hy. simpl. rewrite (Qreals.Qeq_eqR _ _ E).
    unfold Q2R. simpl. lra.
  - intros [num den]. simpl. unfold Q2R. simpl.
    set (d := Z.pos den). assert (Hd : 0 < d) by (unfold d; lia).
    assert (RD : (0 < IZR d)%R) by (now apply IZR_lt).
    pose proof (Z.quot_rem' num d) as E. set (n := Z.quot num d) in *.
    assert (EN : (IZR num = IZR d * IZR n + IZR (Z.rem num d))%R).
    { rewrite <- mult_IZR, <- plus_IZR. now f_equal. }
    assert (Hinv : (IZR num * / IZR d = IZR n + IZR (Z.rem num d) * / IZR d)%R).
    { rewrite EN. field. lra. }
    rewrite Hinv. split; intros H.
    + assert (Hnum : 0 <= num).
      { apply le_IZR. rewrite <- Hinv in H.
        apply Rmult_le_reg_r with (/ IZR d)%R; [now apply Rinv_0_lt_compat |].
        now rewrite Rmult_0_l. }
      pose proof (Z.rem_bound_pos num d Hnum Hd) as [R0 R1].
      apply IZR_le in R0. apply IZR_lt in R1.
      assert (0 <= IZR (Z.rem num d) * / IZR d < 1)%R.
      { split.
        - apply Rmult_le_pos; [exact R0 | now apply Rlt_le, Rinv_0_lt_compat].
        - apply Rmult_lt_reg_r with (IZR d); [exact RD |].
          rewrite Rmult_assoc, Rinv_l by lra. lra. }
      lra.
    + assert (Hnum : num <= 0).
      { apply le_IZR. rewrite <- Hinv in H.
        apply Rmult_le_reg_r with (/ IZR d)%R; [now apply Rinv_0_lt_compat |].
        now rewrite Rmult_0_l. }
      pose proof (Z.rem_bound_pos_neg num d Hd Hnum) as [R0 R1].
      apply IZR_lt in R0. apply IZR_le in R1. rewrite opp_IZR in R0.
      assert (-1 < IZR (Z.rem num d) * / IZR d <= 0)%R.
      { split.
        - apply Rmult_lt_reg_r with (IZR d); [exact RD |].
          rewrite Rmult_assoc, Rinv_l by lra. lra.
        - apply Rmult_le_reg_r with (IZR d); [exact RD |].
          rewrite Rmult_assoc, Rinv_l by lra. lra. }
      lra.
Qed.

(** The floats of the machine at work: a box scaled back from a frame 804
    pixels wide, and the height to which a frame of 537 rows and 895
    columns is resized.  In both the exact quotient is an integer (201,
    402 and 480) and the rounded product falls just short of it. *)
Lemma binary64_truncations :
  scale_back 804 (200, 400, 400, 200) = (200, 401, 401, 200)
  /\ scale_back 1600 (10, 60, 60, 10) = (20, 120, 120, 20)
  /\ int_of (fmul (of_int 537) (fdiv (of_int 800) (of_int 895))) = 479.
Proof. repeat split; vm_compute; reflexivity. Qed.

(** [detect_faces] on a frame 640 pixels wide and on one 1600 pixels wide. *)
Lemma detect_faces_boxes_witness :
  detect_faces Sample.knows_alice Sample.two_faces
    = [(10, 60, 60, 10); (0, 200, 100, 100)]
  /\ Binary64 Sample.exact
  /\ exists top' right' bottom' left',
       detect_faces (vision := Sample.wide_vision) (float64 := Sample.exact)
         Sample.knows_alice Sample.near_alice = [(top', right', bottom', left')]
       /\ scaled 10 1600 800 top'
       /\ scaled 60 1600 800 bottom'
       /\ 10 <= top' <= bottom'.
Proof.
  split.
  - assert (Hle : snd (shape (cvtColor_BGR2RGB Sample.two_faces)) <= 800)
      by (simpl; lia).
    exact (proj2 (proj1 (proj2 (detect_faces_boxes Sample.knows_alice
                                  Sample.two_faces)) Hle)).
  - split; [exact sample_exact_binary64 |].
    assert (Hwide : 800 < snd (shape (Vision := Sample.wide_vision)
                                 (cvtColor_BGR2RGB (Vision := Sample.wide_vision)
                                    Sample.near_alice)) < 2 ^ 20)
      by (simpl; lia).
    pose proof (proj2 (proj2 (proj2 (detect_faces_boxes
                                       (vision := Sample.wide_vision)
                                       (float64 := Sample.exact)
                                       Sample.knows_alice Sample.near_alice))
                        sample_exact_binary64 Hwide)) as H.
    destruct (detect_faces (vision := Sample.wide_vision) (float64 := Sample.exact)
                Sample.knows_alice Sample.near_alice)
      as [|[[[t r] b] l] rest] eqn:E; [inversion H |].
    inversion H as [|x y xs ys Hbox Hrest]; subst. inversion Hrest; subst.
    exists t, r, b, l. split; [reflexivity |].
    assert (M10 : moderate 10) by (unfold moderate; simpl; lia).
    assert (M60 : moderate 60) by (unfold moderate; simpl; lia).
    destruct (Hbox M10 M60 M60 M10)
      as [St [_ [Sb [_ [Htb [_ [Ht _]]]]]]].
    split; [exact St |]. split; [exact Sb |].
    split; [exact Ht | apply Htb; lia].
Defined.

(** The entries for a frame with two faces sit where the faces are. *)
Lemma recognize_faces_locations_witness :
  recognize_faces Sample.knows_nobody Sample.two_faces
    = Ok [{| location := (10, 60, 60, 10); r_name := "Unknown";
             r_person_id := None; r_confidence := 0%R |};
          {| location := (0, 200, 100, 100); r_name := "Unknown";
             r_person_id := None; r_confidence := 0%R |}]
  /\ [(10, 60, 60, 10); (0, 200, 100, 100)]
     = firstn 2 (detect_faces Sample.knows_nobody Sample.two_faces).
Proof.
  split; [reflexivity |].
  exact (recognize_faces_locations Sample.knows_nobody Sample.two_faces _ eq_refl).
Defined.

(** The entry for the face at distance 0.2 from Alice. *)
Lemma recognize_faces_confidence_witness :
  exists r, recognize_faces Sample.knows_alice Sample.near_alice = Ok [r]
            /\ (4 / 10 <= r_confidence r <= 1)%R.
Proof.
  eexists. split; [exact sample_recognize_near_alice |].
  destruct (recognize_faces_confidence Sample.knows_alice Sample.near_alice _
              sample_recognize_near_alice _ (or_introl eq_refl))
    as [[H _] | [pid [_ [_ [_ H]]]]]; [discriminate | exact H].
Defined.

(** A face with Alice's own encoding. *)
Lemma known_encoding_recognized_witness :
  parallel Sample.knows_alice
  /\ exists r, recognize_faces Sample.knows_alice Sample.alice_again = Ok [r]
               /\ r_confidence r = 1%R.
Proof.
  split; [split; reflexivity |].
  destruct (recognize_face_spec Sample.knows_alice 640 (10, 60, 60, 10) 6
              (conj eq_refl eq_refl)) as [r [Er _]].
  assert (E : recognize_faces Sample.knows_alice Sample.alice_again = Ok [r]).
  { unfold recognize_faces, Sample.alice_again.
    cbn -[recognize_face]. now rewrite Er. }
  exists r. split; [exact E |].
  pose proof (known_encoding_recognized Sample.knows_alice Sample.alice_again [6] [r]
                (conj eq_refl eq_refl) eq_refl E) as F.
  inversion F as [|face r' l l' Hface _]; subst.
  apply Hface. exists 6. split; [now left | reflexivity].
Defined.

(** Loading the projection from the sample registry. *)
Lemma load_known_faces_in_sync_witness :
  load_known_faces Sample.knows_nobody Sample.alice_registered
    = Ok Sample.knows_alice
  /\ in_sync Sample.knows_alice Sample.alice_registered.
Proof.
  split; [reflexivity |].
  exact (proj1 (load_known_faces_in_sync Sample.knows_nobody Sample.knows_alice
                  Sample.alice_registered eq_refl)).
Defined.

(** Registering Bob from the frame with two faces. *)
Lemma register_new_face_in_sync_witness :
  JsonRoundTrip Z unit
  /\ in_sync Sample.knows_alice Sample.alice_registered
  /\ in_sync
       (fst (snd (register_new_face 2%nat Sample.two_faces "Bob" None
                    Sample.knows_alice Sample.alice_registered)))
       (snd (snd (register_new_face 2%nat Sample.two_faces "Bob" None
                    Sample.knows_alice Sample.alice_registered))).
Proof.
  split; [exact sample_json_round_trip |]. split; [exact sample_in_sync |].
  exact (register_new_face_in_sync sample_json_round_trip 2%nat Sample.two_faces
           "Bob" None Sample.knows_alice Sample.alice_registered
           sample_encodings_full sample_in_sync).
Defined.

(** The person recognized near Alice is a row of the sample registry. *)
Lemma recognized_person_is_stored_witness :
  in_sync Sample.knows_alice Sample.alice_registered
  /\ exists row, In row (persons Sample.alice_registered)
                 /\ id row = 1 /\ name row = "Alice".
Proof.
  split; [exact sample_in_sync |].
  exact (recognized_person_is_stored Sample.knows_alice Sample.alice_registered
           Sample.near_alice _ sample_in_sync sample_recognize_near_alice
           _ 1 (or_introl eq_refl) eq_refl).
Defined.

(** Deleting Alice through the application. *)
Lemma deleted_person_not_recognized_witness :
  delete_and_reload 1 Sample.knows_alice Sample.alice_registered
    = (Ok tt, (Sample.knows_nobody, delete_person 1 Sample.alice_registered))
  /\ forall rs r,
       recognize_faces Sample.knows_nobody Sample.alice_again = Ok rs ->
       In r rs -> r_person_id r <> Some 1.
Proof.
  split; [reflexivity |].
  intros rs r.
  exact (proj1 (deleted_person_not_recognized 1 Sample.knows_alice
                  Sample.knows_nobody Sample.alice_registered
                  (delete_person 1 Sample.alice_registered) eq_refl)
           Sample.alice_again rs r).
Defined.

(** Renaming Alice through the application. *)
Lemma renamed_person_recognized_by_new_name_witness :
  truthy "Alicia" = true
  /\ exists s' d',
       update_and_reload 1 "Alicia" tt Sample.knows_alice Sample.alice_registered
         = (Ok tt, (s', d'))
       /\ forall rs r,
            recognize_faces s' Sample.alice_again = Ok rs -> In r rs ->
            r_person_id r = Some 1 -> r_name r = "Alicia".
Proof.
  split; [reflexivity |].
  eexists _, _. split; [reflexivity |].
  intros rs r.
  exact (renamed_person_recognized_by_new_name 1 "Alicia" tt Sample.knows_alice
           _ Sample.alice_registered _ eq_refl eq_refl Sample.alice_again rs r).
Defined.

(** Registration succeeds for Bob and not for a second Alice. *)
Lemma register_new_face_succeeds_iff_witness :
  fst (register_new_face 2%nat Sample.two_faces "Bob" None
         Sample.knows_alice Sample.alice_registered) = true
  /\ exists row,
       persons (snd (snd (register_new_face 2%nat Sample.two_faces "Bob" None
                            Sample.knows_alice Sample.alice_registered)))
       = persons Sample.alice_registered ++ [row]
       /\ name row = "Bob".
Proof.
  pose proof (register_new_face_succeeds_iff 2%nat Sample.two_faces "Bob" None
                Sample.knows_alice Sample.alice_registered) as [Hiff Hrow].
  assert (Hok : fst (register_new_face 2%nat Sample.two_faces "Bob" None
                       Sample.knows_alice Sample.alice_registered) = true).
  { apply Hiff. exists (0, 200, 100, 100), 3, [].
    split; [reflexivity |]. split; [reflexivity |].
    intros r [<-|[]]. discriminate. }
  split; [exact Hok |].
  destruct (Hrow Hok) as [row [Hp [Hn _]]]. exists row. auto.
Defined.

(** *** The Live Camera tab and the annotation *)

Lemma sample_alice_keyed : keyed Sample.alice_registered.
Proof.
  exact (keyed_run [AddPerson 1%nat "Alice" 6 None] init_database keyed_init).
Qed.

Lemma sample_alice_no_future : no_future Sample.alice_registered.
Proof. intros l pid []. Qed.

Lemma sample_alice_counted : counted Sample.alice_registered.
Proof. intros r [<-|[]]. split; reflexivity. Qed.

Lemma sample_live_camera :
  live_camera Sample.camera_clock Sample.knows_alice Sample.near_alice
    Sample.alice_registered
  = (Ok tt,
     log_detection 2%nat 1 (Some (1 - 2 / 10)%R) Sample.alice_registered).
Proof. unfold live_camera. now rewrite sample_recognize_near_alice. Qed.

Lemma sample_unknown_in_sync :
  in_sync Sample.knows_unknown Sample.unknown_registered.
Proof.
  apply (loaded_in_sync
           {| model := "hog"; known_face_encodings := [];
              known_face_names := []; known_face_ids := [] |}).
  reflexivity.
Qed.

Lemma sample_unknown_keyed : keyed Sample.unknown_registered.
Proof.
  exact (keyed_run [AddPerson 1%nat "Unknown" 6 None] init_database keyed_init).
Qed.

(** The person stored as "Unknown" is recognized, under id 1. *)
Lemma sample_recognize_unknown :
  recognize_faces Sample.knows_unknown Sample.alice_again
  = Ok [{| location := (10, 60, 60, 10); r_name := "Unknown";
           r_person_id := Some 1; r_confidence := (1 - 0)%R |}].
Proof.
  assert (D : norm_diff (coords 6) (coords 6) = 0%R).
  { simpl. rewrite norm_diff_single; lra. }
  unfold recognize_faces, Sample.alice_again.
  cbn -[norm_diff coords Rleb Rltb].
  unfold recognize_face. cbn -[norm_diff coords Rleb Rltb].
  rewrite D.
  replace (Rleb 0 tolerance) with true
    by (symmetry; apply Rleb_true; unfold tolerance; lra).
  reflexivity.
Qed.

(** A picture of a face near Alice: one row is logged, for person 1. *)
Lemma live_camera_logs_witness :
  exists d' l,
    live_camera Sample.camera_clock Sample.knows_alice Sample.near_alice
      Sample.alice_registered = (Ok tt, d')
    /\ detection_logs d' = [l]
    /\ person_id l = Some 1
    /\ confidence l = Some (1 - 2 / 10)%R.
Proof.
  destruct (live_camera_logs Sample.camera_clock Sample.knows_alice
              Sample.near_alice Sample.alice_registered _
              sample_recognize_near_alice)
    as [d' [news [Hrun [Hlogs [Hrows _]]]]].
  simpl in Hrows. inversion Hrows as [|face l faces ls [Hp Hc] Hrest]; subst.
  inversion Hrest; subst.
  exists d', l. split; [exact Hrun |]. split; [exact Hlogs |].
  split; [exact Hp | exact Hc].
Defined.

(** After that picture the counters of the sample registry match its log. *)
Lemma live_camera_keeps_invariants_witness :
  in_sync Sample.knows_alice Sample.alice_registered
  /\ keyed Sample.alice_registered
  /\ no_future Sample.alice_registered
  /\ counted Sample.alice_registered
  /\ counted (log_detection 2%nat 1 (Some (1 - 2 / 10)%R)
                Sample.alice_registered).
Proof.
  split; [exact sample_in_sync |]. split; [exact sample_alice_keyed |].
  split; [exact sample_alice_no_future |]. split; [exact sample_alice_counted |].
  exact (proj1 (proj2 (proj2 (proj2
           (live_camera_keeps_invariants Sample.camera_clock Sample.knows_alice
              Sample.near_alice Sample.alice_registered _
              sample_in_sync sample_alice_keyed sample_alice_no_future
              sample_alice_counted sample_live_camera))))).
Defined.

(** The person registered as "Unknown" is recognized under id 1 and yet
    nothing is logged. *)
Lemma person_named_Unknown_never_logged_witness :
  in_sync Sample.knows_unknown Sample.unknown_registered
  /\ keyed Sample.unknown_registered
  /\ In Sample.unknown_row (persons Sample.unknown_registered)
  /\ live_camera Sample.camera_clock Sample.knows_unknown Sample.alice_again
       Sample.unknown_registered = (Ok tt, Sample.unknown_registered)
  /\ logs_of 1 Sample.unknown_registered = [].
Proof.
  assert (Hrow : In Sample.unknown_row (persons Sample.unknown_registered))
    by (left; reflexivity).
  assert (Hrun : live_camera Sample.camera_clock Sample.knows_unknown
                   Sample.alice_again Sample.unknown_registered
                 = (Ok tt, Sample.unknown_registered)).
  { unfold live_camera. now rewrite sample_recognize_unknown. }
  split; [exact sample_unknown_in_sync |]. split; [exact sample_unknown_keyed |].
  split; [exact Hrow |]. split; [exact Hrun |].
  exact (proj2 (person_named_Unknown_never_logged Sample.camera_clock
                  Sample.knows_unknown Sample.alice_again
                  Sample.unknown_registered _ Sample.unknown_row
                  sample_unknown_in_sync sample_unknown_keyed Hrow eq_refl Hrun)).
Defined.

(** The annotation of the picture of a face near Alice. *)
Lemma draw_face_boxes_of_recognized_witness :
  List.length
    (draw_face_boxes (lettering := Sample.lettering)
       [{| location := (10, 60, 60, 10); r_name := "Alice";
           r_person_id := Some 1; r_confidence := (1 - 2 / 10)%R |}])
  = 3%nat.
Proof.
  exact (proj1 (draw_face_boxes_of_recognized (lettering := Sample.lettering)
                  Sample.knows_alice Sample.near_alice _
                  sample_recognize_near_alice)).
Defined.
